(** * Sparse matrix (dsa/sparse_matrix/code/src/sparse_matrix.py)

    A shallow embedding of the [SparseMatrix] class and a verification of
    its storage invariant, element access, arithmetic, text loader and
    serializer.

    Modelling choices.
    - Python [int] is unbounded: [Z].  Its conversions to and from text
      are not: [int(s)] and [str(n)], f-string fields included, raise
      [ValueError] above 4300 digits, the default of
      [sys.set_int_max_str_digits], which the program leaves as it is.  So
      an f-string that formats a number can raise, also inside a [raise]
      statement, before the exception it was building a message for.
    - Python [str] is a list of characters; the development covers the
      code points below 256, which is what [ascii] holds.
    - The instance attribute [matrix_data] is a Python [dict].  A dict
      iterates in insertion order and the class iterates over it
      ([items()], [keys()]), so it is an association list in insertion
      order whose keys are pairwise distinct ([dict_ok]).
    - Methods mutate [self]; they are computations in a state-and-exception
      monad [M] over the instance.  A raised exception keeps the state
      reached so far, as in Python.
    - Exceptions carry their Python class and which message they were
      raised with.
    - A path of the disk is missing, holds a text, or exists without being
      readable (a directory, a file without permission, bytes that do not
      decode); [open] raises for the last.
    - [main] talks to a console and a disk: the lines [input] returns are a
      list, what is printed is a list of events, and the disk is a state
      with reading, directory creation and file writing, the last two able
      to fail.  Paths follow [posixpath]. *)

From Stdlib Require Import ZArith Bool Ascii String List Lia Permutation Sorted.
From Stdlib Require Import DecimalPos DecimalN DecimalZ.
Import ListNotations.

Local Open Scope Z_scope.
Local Open Scope list_scope.

(** ** Python strings *)

Module Py.

Definition str := list ascii.

(** A string literal of the source. *)
Definition lit (s : string) : str := list_ascii_of_string s.

Definition ord (c : ascii) : Z := Z.of_N (N_of_ascii c).

(** [str.isspace] on one character, for code points below 256: TAB, LF, VT,
    FF, CR, the separators FS, GS, RS, US, SPACE, NEL and NBSP. *)
Definition isspace (c : ascii) : bool :=
  let n := ord c in
  ((9 <=? n) && (n <=? 13)) || ((28 <=? n) && (n <=? 32))
  || (n =? 133) || (n =? 160).

Fixpoint lstrip (s : str) : str :=
  match s with
  | [] => []
  | c :: s' => if isspace c then lstrip s' else s
  end.

Definition rstrip (s : str) : str := rev (lstrip (rev s)).

(** [s.strip()] *)
Definition strip (s : str) : str := lstrip (rstrip s).

(** [s.startswith(p)] *)
Fixpoint startswith (s p : str) : bool :=
  match p, s with
  | [], _ => true
  | _ :: _, [] => false
  | a :: p', b :: s' => Ascii.eqb a b && startswith s' p'
  end.

(** [s.endswith(p)] *)
Definition endswith (s p : str) : bool := startswith (rev s) (rev p).

(** [s[n:]] for a literal [n >= 0] *)
Definition slice_from (n : nat) (s : str) : str := skipn n s.

(** [s[1:-1]] *)
Definition slice_1_m1 (s : str) : str := removelast (skipn 1 s).

(** [s.split(sep)] for a one-character separator: never returns the empty
    list. *)
Fixpoint split (sep : ascii) (s : str) : list str :=
  match s with
  | [] => [[]]
  | c :: s' =>
      if Ascii.eqb c sep then [] :: split sep s'
      else match split sep s' with
           | p :: ps => (c :: p) :: ps
           | [] => [[c]]
           end
  end.

(** [f.readlines()]: the text cut after every line feed, each line keeping
    its line feed. *)
Fixpoint readlines (s : str) : list str :=
  match s with
  | [] => []
  | c :: s' =>
      if Ascii.eqb c "010"%char then [c] :: readlines s'
      else match readlines s' with
           | l :: ls => (c :: l) :: ls
           | [] => [[c]]
           end
  end.

(** *** [int(s)] and [str(n)] *)

Definition digit_value (c : ascii) : option Z :=
  let n := ord c in
  if (48 <=? n) && (n <=? 57) then Some (n - 48) else None.

(** The digits of a decimal literal: a non-empty run of digits in which
    single underscores may separate digits.  [after_digit] tells whether the
    previous character was a digit. *)
Fixpoint int_digits (after_digit : bool) (s : str) (acc : Z) : option Z :=
  match s with
  | [] => if after_digit then Some acc else None
  | c :: s' =>
      match digit_value c with
      | Some d => int_digits true s' (10 * acc + d)
      | None =>
          if Ascii.eqb c "_"%char && after_digit then int_digits false s' acc
          else None
      end
  end.

(** The white space [int] skips at both ends of its argument: TAB, LF, VT,
    FF, CR, SPACE, and NEL and NBSP, which it first turns into spaces.  The
    separators FS, GS, RS and US, which [str.strip] removes, are not part
    of it. *)
Definition int_isspace (c : ascii) : bool :=
  let n := ord c in
  ((9 <=? n) && (n <=? 13)) || (n =? 32) || (n =? 133) || (n =? 160).

Fixpoint int_lstrip (s : str) : str :=
  match s with
  | [] => []
  | c :: s' => if int_isspace c then int_lstrip s' else s
  end.

Definition int_strip (s : str) : str := int_lstrip (rev (int_lstrip (rev s))).

(** [sys.get_int_max_str_digits()], at its default: the number of digits
    above which [int(s)] and [str(n)] raise [ValueError]. *)
Definition int_max_str_digits : nat := 4300.

(** The digit characters of a literal; underscores do not count. *)
Fixpoint count_digits (s : str) : nat :=
  match s with
  | [] => O
  | c :: s' =>
      match digit_value c with
      | Some _ => S (count_digits s')
      | None => count_digits s'
      end
  end.

(** The literal after the sign. *)
Definition int_literal (ds : str) : option Z :=
  match int_digits false ds 0 with
  | Some n =>
      if Nat.leb (count_digits ds) int_max_str_digits then Some n else None
  | None => None
  end.

(** [int(s)] in base 10; [None] stands for the [ValueError] it raises. *)
Definition int (s : str) : option Z :=
  match int_strip s with
  | "+"%char :: ds => int_literal ds
  | "-"%char :: ds => option_map Z.opp (int_literal ds)
  | ds => int_literal ds
  end.

Fixpoint uint_chars (d : Decimal.uint) : str :=
  match d with
  | Decimal.Nil => []
  | Decimal.D0 d => "0"%char :: uint_chars d
  | Decimal.D1 d => "1"%char :: uint_chars d
  | Decimal.D2 d => "2"%char :: uint_chars d
  | Decimal.D3 d => "3"%char :: uint_chars d
  | Decimal.D4 d => "4"%char :: uint_chars d
  | Decimal.D5 d => "5"%char :: uint_chars d
  | Decimal.D6 d => "6"%char :: uint_chars d
  | Decimal.D7 d => "7"%char :: uint_chars d
  | Decimal.D8 d => "8"%char :: uint_chars d
  | Decimal.D9 d => "9"%char :: uint_chars d
  end.

(** The decimal notation of [n]. *)
Definition str_of_int (n : Z) : str :=
  match n with
  | Z0 => ["0"%char]
  | Zpos p => uint_chars (Pos.to_uint p)
  | Zneg p => "-"%char :: uint_chars (Pos.to_uint p)
  end.

(** The number of digits of that notation, the sign left out. *)
Definition digit_count (n : Z) : nat :=
  match n with
  | Z0 => 1%nat
  | Zpos p | Zneg p => length (uint_chars (Pos.to_uint p))
  end.

(** [n] has no more digits than [str] accepts. *)
Definition printable (n : Z) : bool :=
  Nat.leb (digit_count n) int_max_str_digits.

(** [str(n)], also what an f-string field [{n}] produces for an [int];
    [None] stands for the [ValueError] it raises. *)
Definition str_int (n : Z) : option str :=
  if printable n then Some (str_of_int n) else None.

(** *** Tuples [(row, col)] and [sorted] *)

Abbreviation key := (Z * Z)%type.

Definition key_eqb (a b : key) : bool :=
  (fst a =? fst b) && (snd a =? snd b).

(** Tuple comparison [a < b]: lexicographic. *)
Definition key_ltb (a b : key) : bool :=
  (fst a <? fst b) || ((fst a =? fst b) && (snd a <? snd b)).

Definition key_leb (a b : key) : bool := negb (key_ltb b a).

Fixpoint insert_sorted (k : key) (l : list key) : list key :=
  match l with
  | [] => [k]
  | h :: t => if key_leb k h then k :: l else h :: insert_sorted k t
  end.

(** [sorted(l)]: ascending and stable. *)
Fixpoint sorted (l : list key) : list key :=
  match l with
  | [] => []
  | k :: t => insert_sorted k (sorted t)
  end.

(** *** [dict] keyed by tuples, in insertion order *)

Definition dict : Type := list (key * Z).

Fixpoint dict_find (d : dict) (k : key) : option Z :=
  match d with
  | [] => None
  | (k', v) :: t => if key_eqb k k' then Some v else dict_find t k
  end.

(** [d.get(k, default)] *)
Definition dict_get (d : dict) (k : key) (default : Z) : Z :=
  match dict_find d k with
  | Some v => v
  | None => default
  end.

(** [k in d] *)
Definition dict_contains (d : dict) (k : key) : bool :=
  match dict_find d k with
  | Some _ => true
  | None => false
  end.

(** [d[k] = v]: an existing key keeps its position, a new key goes last. *)
Fixpoint dict_setitem (d : dict) (k : key) (v : Z) : dict :=
  match d with
  | [] => [(k, v)]
  | (k', v') :: t =>
      if key_eqb k k' then (k', v) :: t else (k', v') :: dict_setitem t k v
  end.

(** [del d[k]] for a key that is present. *)
Fixpoint dict_delitem (d : dict) (k : key) : dict :=
  match d with
  | [] => []
  | (k', v') :: t =>
      if key_eqb k k' then t else (k', v') :: dict_delitem t k
  end.

(** [d.items()] and [d.keys()] *)
Definition items (d : dict) : list (key * Z) := d.
Definition keys (d : dict) : list key := map fst d.

(** What every Python dict satisfies: no key occurs twice. *)
Definition dict_ok (d : dict) : Prop := NoDup (keys d).

End Py.

Import Py.

(** ** Exceptions *)

Inductive exn_class : Type :=
| ValueError
| IndexError
| FileNotFoundError
| KeyError
| OSError.

(** The messages of the [raise] statements of the class, in source order.
    [msg_builtin] is the message of an exception raised by the interpreter
    ([int], [str], indexing, [open]) or by a bare [raise ValueError]. *)
Inductive message : Type :=
| msg_builtin
| msg_empty_dims
    (* "For an empty matrix, numRows and numCols must be positive." *)
| msg_not_found (matrixFilePath : str)
    (* "Matrix file not found at: ..." *)
| msg_dims_positive
    (* "Matrix dimensions must be positive." *)
| msg_header
    (* "Input file has wrong format: Missing or invalid rows/cols definitions." *)
| msg_parens
    (* "Input file has wrong format: Entry not enclosed in parentheses." *)
| msg_fields
    (* "Input file has wrong format: Entry does not have 3 comma-separated values." *)
| msg_not_int
    (* "Input file has wrong format: Row, column, or value is not an integer." *)
| msg_entry_bounds (row col rows cols : Z)
    (* "Input file has wrong format: Entry (row, col) out of bounds for matrix dimensions (rows, cols)." *)
| msg_index_bounds (currRow currCol rows cols : Z)
    (* "(currRow, currCol) is out of bounds for matrix of size (rows, cols)" *)
| msg_add
    (* "Matrix dimensions must match for addition." *)
| msg_sub
    (* "Matrix dimensions must match for subtraction." *)
| msg_mul.
    (* "Number of columns in the first matrix must equal number of rows in the second matrix for multiplication." *)

Definition exn : Type := exn_class * message.

Definition exn_class_eqb (a b : exn_class) : bool :=
  match a, b with
  | ValueError, ValueError | IndexError, IndexError
  | FileNotFoundError, FileNotFoundError | KeyError, KeyError
  | OSError, OSError => true
  | _, _ => false
  end.

(** The error kinds of the specification, and the kind each exception of
    the class stands for. *)
Inductive error_kind : Type :=
| SourceNotFound
| MalformedHeader
| MalformedEntry
| EntryOutOfBounds
| InvalidDimension
| IndexOutOfBounds
| DimensionMismatch.

Definition kind_of (e : exn) : option error_kind :=
  match e with
  | (FileNotFoundError, msg_not_found _) => Some SourceNotFound
  | (ValueError, msg_header) => Some MalformedHeader
  | (ValueError, (msg_parens | msg_fields | msg_not_int)) => Some MalformedEntry
  | (ValueError, msg_entry_bounds _ _ _ _) => Some EntryOutOfBounds
  | (ValueError, msg_empty_dims) => Some InvalidDimension
  | (IndexError, msg_index_bounds _ _ _ _) => Some IndexOutOfBounds
  | (ValueError, (msg_add | msg_sub | msg_mul)) => Some DimensionMismatch
  | _ => None
  end.

(** ** The instance and the method monad *)

Record SparseMatrix : Type := mkSparseMatrix {
  rows : Z;
  cols : Z;
  matrix_data : dict
}.

(** A method body: from the instance before to the outcome and the instance
    after. *)
Definition M (A : Type) : Type := SparseMatrix -> (exn + A) * SparseMatrix.

Definition ret {A} (a : A) : M A := fun self => (inr a, self).

Definition bind {A B} (m : M A) (f : A -> M B) : M B :=
  fun self =>
    match m self with
    | (inl e, self') => (inl e, self')
    | (inr a, self') => f a self'
    end.

Definition raise {A} (e : exn) : M A := fun self => (inl e, self).

Definition get_self : M SparseMatrix := fun self => (inr self, self).

Definition set_rows (v : Z) : M unit :=
  fun self => (inr tt, mkSparseMatrix v (cols self) (matrix_data self)).

Definition set_cols (v : Z) : M unit :=
  fun self => (inr tt, mkSparseMatrix (rows self) v (matrix_data self)).

Definition set_matrix_data (d : dict) : M unit :=
  fun self => (inr tt, mkSparseMatrix (rows self) (cols self) d).

Declare Scope meth_scope.
Delimit Scope meth_scope with meth.

Notation "x <- m ;; k" := (bind m (fun x => k))
  (at level 100, m at next level, right associativity) : meth_scope.
Notation "m ;; k" := (bind m (fun _ => k))
  (at level 100, right associativity) : meth_scope.
Notation "' p <- m ;; k" := (bind m (fun x => match x with p => k end))
  (at level 100, p pattern, m at next level, right associativity) : meth_scope.

Local Open Scope meth_scope.

(** [try: body except (classes): handler] *)
Definition try_except {A} (body : M A) (classes : list exn_class)
    (handler : M A) : M A :=
  fun self =>
    match body self with
    | (inl e, self') =>
        if existsb (exn_class_eqb (fst e)) classes then handler self'
        else (inl e, self')
    | r => r
    end.

(** [for x in l: body] *)
Fixpoint for_each {X} (l : list X) (body : X -> M unit) : M unit :=
  match l with
  | [] => ret tt
  | x :: l' => body x ;; for_each l' body
  end.

(** [for x in l: acc = body(acc, x)], for a loop that rebinds a local. *)
Fixpoint for_acc {X A} (l : list X) (acc : A) (body : A -> X -> M A) : M A :=
  match l with
  | [] => ret acc
  | x :: l' => acc' <- body acc x ;; for_acc l' acc' body
  end.

(** The instance a method leaves behind, when it returns. *)
Definition returning {A} (m : M A) (self : SparseMatrix) : exn + SparseMatrix :=
  match m self with
  | (inl e, _) => inl e
  | (inr _, self') => inr self'
  end.

(** [int(s)] and [l[i]] as statements. *)
Definition int_ (s : str) : M Z :=
  match Py.int s with
  | Some n => ret n
  | None => raise (ValueError, msg_builtin)
  end.

Definition index_ (l : list str) (i : nat) : M str :=
  match nth_error l i with
  | Some x => ret x
  | None => raise (IndexError, msg_builtin)
  end.

(** An f-string field [{n}] for an [int]. *)
Definition str_ (n : Z) : M str :=
  match Py.str_int n with
  | Some s => ret s
  | None => raise (ValueError, msg_builtin)
  end.

(** [d[k]] as an expression. *)
Definition getitem_ (d : dict) (k : key) : M Z :=
  match dict_find d k with
  | Some v => ret v
  | None => raise (KeyError, msg_builtin)
  end.

(** What a path is on the disk.  [Missing]: [os.path.exists] is false.
    [Text]: the file opens, and reading it in text mode delivers this text
    (decoded, line ends translated to line feeds).  [Unreadable]: the path
    exists but [open] or [readlines] raises an exception of class [c]: an
    [OSError] for a directory or a file without read permission, a
    [ValueError] for bytes that do not decode. *)
Inductive file : Type :=
| Missing
| Unreadable (c : exn_class)
| Text (text : str).

(** The files the program can see. *)
Definition FileSystem : Type := str -> file.

(** ** class SparseMatrix *)

Section SparseMatrixClass.

Variable fs : FileSystem.

(** [0 <= r < self.rows and 0 <= c < self.cols] *)
Definition in_bounds (self : SparseMatrix) (r c : Z) : bool :=
  ((0 <=? r) && (r <? rows self)) && ((0 <=? c) && (c <? cols self)).

(** The body of the [for i in range(2, len(lines))] loop of
    [_load_from_file], on [lines[i]]. *)
Definition load_entry (raw : str) : M unit :=
  let line := strip raw in
  match line with
  | [] => ret tt
  | _ :: _ =>
      if negb (startswith line (lit "(") && endswith line (lit ")")) then
        raise (ValueError, msg_parens)
      else
        let content := slice_1_m1 line in
        let parts := split ","%char content in
        if negb (Nat.eqb (length parts) 3) then
          raise (ValueError, msg_fields)
        else
          ' (row, col, value) <-
            try_except
              (row <- int_ (strip (nth 0 parts [])) ;;
               col <- int_ (strip (nth 1 parts [])) ;;
               value <- int_ (strip (nth 2 parts [])) ;;
               ret (row, col, value))
              [ValueError]
              (raise (ValueError, msg_not_int)) ;;
          self <- get_self ;;
          if negb (in_bounds self row col) then
            str_ row ;; str_ col ;; str_ (rows self) ;; str_ (cols self) ;;
            raise (ValueError,
                   msg_entry_bounds row col (rows self) (cols self))
          else if negb (value =? 0) then
            set_matrix_data (dict_setitem (matrix_data self) (row, col) value)
          else ret tt
  end.

(** The first [try] block of [_load_from_file]: the two header lines. *)
Definition load_header (lines : list str) : M unit :=
  try_except
    (l0 <- index_ lines 0 ;;
     let rows_str := strip l0 in
     l1 <- index_ lines 1 ;;
     let cols_str := strip l1 in
     if negb (startswith rows_str (lit "rows="))
        || negb (startswith cols_str (lit "cols=")) then
       raise (ValueError, msg_builtin)
     else
       r <- int_ (slice_from (length (lit "rows=")) rows_str) ;;
       set_rows r ;;
       c <- int_ (slice_from (length (lit "cols=")) cols_str) ;;
       set_cols c ;;
       self <- get_self ;;
       if (rows self <=? 0) || (cols self <=? 0) then
         raise (ValueError, msg_dims_positive)
       else ret tt)
    [IndexError; ValueError]
    (raise (ValueError, msg_header)).

Definition _load_from_file (matrixFilePath : str) : M unit :=
  match fs matrixFilePath with
  | Missing => raise (FileNotFoundError, msg_not_found matrixFilePath)
  | Unreadable c => raise (c, msg_builtin)
  | Text text =>
      let lines := readlines text in
      load_header lines ;;
      for_each (skipn 2 lines) load_entry
  end.

(** [SparseMatrix(matrixFilePath, numRows, numCols)]; [None] or the empty
    path are the falsy values of [if matrixFilePath]. *)
Definition __init__ (matrixFilePath : option str) (numRows numCols : Z)
    : exn + SparseMatrix :=
  let self := mkSparseMatrix numRows numCols [] in
  match matrixFilePath with
  | Some (c :: p) => returning (_load_from_file (c :: p)) self
  | _ =>
      if (numRows <=? 0) || (numCols <=? 0) then
        inl (ValueError, msg_empty_dims)
      else inr self
  end.

(** The out-of-bounds branch of [getElement] and [setElement]: the message
    is formatted, field by field, before the exception is raised. *)
Definition raise_index_bounds {A} (currRow currCol : Z) : M A :=
  self <- get_self ;;
  str_ currRow ;; str_ currCol ;; str_ (rows self) ;; str_ (cols self) ;;
  raise (IndexError, msg_index_bounds currRow currCol (rows self) (cols self)).

Definition getElement (currRow currCol : Z) : M Z :=
  self <- get_self ;;
  if negb (in_bounds self currRow currCol) then
    raise_index_bounds currRow currCol
  else ret (dict_get (matrix_data self) (currRow, currCol) 0).

Definition setElement (currRow currCol value : Z) : M unit :=
  self <- get_self ;;
  if negb (in_bounds self currRow currCol) then
    raise_index_bounds currRow currCol
  else if negb (value =? 0) then
    set_matrix_data (dict_setitem (matrix_data self) (currRow, currCol) value)
  else if dict_contains (matrix_data self) (currRow, currCol) then
    set_matrix_data (dict_delitem (matrix_data self) (currRow, currCol))
  else ret tt.

Definition add (self other_matrix : SparseMatrix) : exn + SparseMatrix :=
  if negb (rows self =? rows other_matrix)
     || negb (cols self =? cols other_matrix) then
    inl (ValueError, msg_add)
  else
    match __init__ None (rows self) (cols self) with
    | inl e => inl e
    | inr result_matrix =>
        returning
          (for_each (items (matrix_data self))
             (fun '((r, c), val) => setElement r c val) ;;
           for_each (items (matrix_data other_matrix))
             (fun '((r, c), val) =>
                current_val <- getElement r c ;;
                setElement r c (current_val + val)))
          result_matrix
    end.

Definition subtract (self other_matrix : SparseMatrix) : exn + SparseMatrix :=
  if negb (rows self =? rows other_matrix)
     || negb (cols self =? cols other_matrix) then
    inl (ValueError, msg_sub)
  else
    match __init__ None (rows self) (cols self) with
    | inl e => inl e
    | inr result_matrix =>
        returning
          (for_each (items (matrix_data self))
             (fun '((r, c), val) => setElement r c val) ;;
           for_each (items (matrix_data other_matrix))
             (fun '((r, c), val) =>
                current_val <- getElement r c ;;
                setElement r c (current_val - val)))
          result_matrix
    end.

Definition multiply (self other_matrix : SparseMatrix) : exn + SparseMatrix :=
  if negb (cols self =? rows other_matrix) then
    inl (ValueError, msg_mul)
  else
    match __init__ None (rows self) (cols other_matrix) with
    | inl e => inl e
    | inr result_matrix =>
        returning
          (for_each (items (matrix_data self))
             (fun '((r1, c1), val1) =>
                for_each (items (matrix_data other_matrix))
                  (fun '((r2, c2), val2) =>
                     if c1 =? r2 then
                       current_sum <- getElement r1 c2 ;;
                       setElement r1 c2 (current_sum + val1 * val2)
                     else ret tt)))
          result_matrix
    end.

Definition to_string : M str :=
  self <- get_self ;;
  rows_text <- str_ (rows self) ;;
  cols_text <- str_ (cols self) ;;
  let output :=
    lit "rows=" ++ rows_text ++ ["010"%char]
    ++ lit "cols=" ++ cols_text ++ ["010"%char] in
  let sorted_keys := sorted (keys (matrix_data self)) in
  for_acc sorted_keys output
    (fun output '(r, c) =>
       r_text <- str_ r ;;
       c_text <- str_ c ;;
       v <- getitem_ (matrix_data self) (r, c) ;;
       v_text <- str_ v ;;
       ret (output ++ lit "(" ++ r_text ++ lit ", " ++ c_text ++ lit ", "
            ++ v_text ++ lit ")" ++ ["010"%char])).

End SparseMatrixClass.

(** ** Vocabulary of the properties *)

(** The logical value at a coordinate: the stored value, or 0 when absent. *)
Definition value_at (m : SparseMatrix) (r c : Z) : Z :=
  dict_get (matrix_data m) (r, c) 0.

(** Whether the message of an out-of-bounds error can be formatted: its
    four numbers have no more digits than [str] accepts. *)
Definition message_printable (m : SparseMatrix) (r c : Z) : bool :=
  printable r && printable c && printable (rows m) && printable (cols m).

(** What the out-of-bounds branch of [getElement] and [setElement] raises,
    and what the bounds check of the loader raises. *)
Definition index_bounds_error (m : SparseMatrix) (r c : Z) : exn :=
  if message_printable m r c
  then (IndexError, msg_index_bounds r c (rows m) (cols m))
  else (ValueError, msg_builtin).

Definition entry_bounds_error (m : SparseMatrix) (r c : Z) : exn :=
  if message_printable m r c
  then (ValueError, msg_entry_bounds r c (rows m) (cols m))
  else (ValueError, msg_builtin).


(** Every number [to_string] writes has no more digits than [str]
    accepts. *)
Definition printable_entry (e : key * Z) : bool :=
  printable (fst (fst e)) && printable (snd (fst e)) && printable (snd e).

Definition printable_matrix (m : SparseMatrix) : bool :=
  printable (rows m) && printable (cols m)
  && forallb printable_entry (matrix_data m).

(** The storage invariant: positive dimensions, no stored zero, every stored
    key inside [[0, rows) x [0, cols)]. *)
Definition entry_ok (m : SparseMatrix) (e : key * Z) : Prop :=
  snd e <> 0 /\ 0 <= fst (fst e) < rows m /\ 0 <= snd (fst e) < cols m.

Definition storage_invariant (m : SparseMatrix) : Prop :=
  0 < rows m /\ 0 < cols m /\ Forall (entry_ok m) (matrix_data m).

(** A matrix: an instance whose [matrix_data] is a dict and which satisfies
    the storage invariant. *)
Definition matrix (m : SparseMatrix) : Prop :=
  dict_ok (matrix_data m) /\ storage_invariant m.

(** Two instances hold the same set of entries [(row, col, value)]. *)
Definition same_entries (m1 m2 : SparseMatrix) : Prop :=
  Permutation (items (matrix_data m1)) (items (matrix_data m2)).

(** The instances the public operations can produce, on any file system. *)
Inductive reachable : SparseMatrix -> Prop :=
| reach_init fs matrixFilePath numRows numCols m :
    __init__ fs matrixFilePath numRows numCols = inr m -> reachable m
| reach_setElement m r c v :
    reachable m -> reachable (snd (setElement r c v m))
| reach_getElement m r c :
    reachable m -> reachable (snd (getElement r c m))
| reach_to_string m :
    reachable m -> reachable (snd (to_string m))
| reach_add fs a b m :
    reachable a -> reachable b -> add fs a b = inr m -> reachable m
| reach_subtract fs a b m :
    reachable a -> reachable b -> subtract fs a b = inr m -> reachable m
| reach_multiply fs a b m :
    reachable a -> reachable b -> multiply fs a b = inr m -> reachable m.


(** [f 0 + f 1 + ... + f (n - 1)] *)
Fixpoint sum_below (n : nat) (f : Z -> Z) : Z :=
  match n with
  | O => 0
  | S n' => sum_below n' f + f (Z.of_nat n')
  end.

(** The sum over [k] in [[0, n)] for an integer bound [n]. *)
Definition sum_range (n : Z) (f : Z -> Z) : Z := sum_below (Z.to_nat n) f.

(** Ascending order of the tuples [(row, col)]: row first, then col. *)
Definition key_lt (a b : key) : Prop :=
  fst a < fst b \/ (fst a = fst b /\ snd a < snd b).

Definition key_le (a b : key) : Prop := key_lt a b \/ a = b.

(** The text format of the specification: the line [(row, col, value)] of
    one entry, and the text of a matrix, a line [rows=<rows>], a line
    [cols=<cols>] and the lines of the entries [es] in the order of [es],
    every line ended by a line feed and every number in decimal notation. *)
Definition entry_line (r c v : Z) : str :=
  lit "(" ++ str_of_int r ++ lit ", " ++ str_of_int c ++ lit ", "
  ++ str_of_int v ++ lit ")" ++ ["010"%char].

Definition serialized (nrows ncols : Z) (es : list (key * Z)) : str :=
  lit "rows=" ++ str_of_int nrows ++ ["010"%char]
  ++ lit "cols=" ++ str_of_int ncols ++ ["010"%char]
  ++ concat (map (fun e => entry_line (fst (fst e)) (snd (fst e)) (snd e)) es).

(** A character that is neither white space nor a comma: what [str(n)]
    is made of. *)
Definition plain (c : ascii) : bool :=
  negb (isspace c) && negb (Ascii.eqb c ","%char).

(** *** The file format, in the words of the specification *)

(** A blank line. *)
Definition blank_line (l : str) : Prop := strip l = [].

(** A line of the form [(<int>, <int>, <int>)]: both parentheses, exactly
    three comma-separated fields, each an integer once trimmed. *)
Definition entry_line_of (l : str) (row col value : Z) : Prop :=
  exists f1 f2 f3 : str,
    strip l = lit "(" ++ f1 ++ lit "," ++ f2 ++ lit "," ++ f3 ++ lit ")"
    /\ ~ In ","%char f1 /\ ~ In ","%char f2 /\ ~ In ","%char f3
    /\ Py.int (strip f1) = Some row
    /\ Py.int (strip f2) = Some col
    /\ Py.int (strip f3) = Some value.

(** A non-blank line that is not of that form. *)
Definition malformed_line (l : str) : Prop :=
  ~ blank_line l /\ forall row col value, ~ entry_line_of l row col value.

(** A line the loader goes past: blank, or an entry inside the declared
    dimensions. *)
Definition accepted_line (nrows ncols : Z) (l : str) : Prop :=
  blank_line l
  \/ exists row col value,
       entry_line_of l row col value
       /\ 0 <= row < nrows /\ 0 <= col < ncols.

(** Line 0 is [rows=<int>], line 1 is [cols=<int>], both values positive. *)
Definition header_ok (lines : list str) (nrows ncols : Z) : Prop :=
  exists (l0 l1 : str) (rest : list str) (a b : str),
    lines = l0 :: l1 :: rest
    /\ strip l0 = lit "rows=" ++ a /\ strip l1 = lit "cols=" ++ b
    /\ Py.int a = Some nrows /\ Py.int b = Some ncols
    /\ 0 < nrows /\ 0 < ncols.

(** [sep.join(parts)] *)
Fixpoint join (sep : ascii) (parts : list str) : str :=
  match parts with
  | [] => []
  | [p] => p
  | p :: ps => p ++ sep :: join sep ps
  end.

(** What [to_string] writes between the parentheses of an entry line. *)
Definition entry_fields (r c v : Z) : str :=
  str_of_int r ++ ","%char :: (" "%char :: str_of_int c)
  ++ ","%char :: (" "%char :: str_of_int v).

(** The get-then-set step of the arithmetic loops: add [d] to the value at
    [(r, c)], or do nothing. *)
Definition accumulate (o : option (key * Z)) : M unit :=
  match o with
  | Some ((r, c), d) =>
      current <- getElement r c ;; setElement r c (current + d)
  | None => ret tt
  end.

(** The total a list of such steps adds at one key. *)
Fixpoint contrib {X} (op : X -> option (key * Z)) (l : list X) (k : key) : Z :=
  match l with
  | [] => 0
  | x :: l' =>
      match op x with
      | Some (k', d) => (if key_eqb k k' then d else 0) + contrib op l' k
      | None => contrib op l' k
      end
  end.

(** The step the inner loop of [multiply] takes for an entry of [self] and
    an entry of [other_matrix]. *)
Definition mul_op (a b : key * Z) : option (key * Z) :=
  let '((r1, c1), val1) := a in
  let '((r2, c2), val2) := b in
  if c1 =? r2 then Some ((r1, c2), val1 * val2) else None.

(** The total the nested loops of [multiply] add at one key. *)
Fixpoint mul_contrib (la lb : dict) (k : key) : Z :=
  match la with
  | [] => 0
  | a :: la' => contrib (mul_op a) lb k + mul_contrib la' lb k
  end.

(** *** Concrete inputs *)

(** A file system without files. *)
Definition no_files : FileSystem := fun _ => Missing.

(** The scenario matrices: [A = {(0,0): 1, (1,1): 2}] and
    [B = {(0,0): 3, (0,1): 4}], both 2x2. *)
Definition scenario_A : SparseMatrix :=
  mkSparseMatrix 2 2 [((0, 0), 1); ((1, 1), 2)].

Definition scenario_B : SparseMatrix :=
  mkSparseMatrix 2 2 [((0, 0), 3); ((0, 1), 4)].

Definition LF : str := ["010"%char].


(** A file whose two entry lines carry the coordinate [(0, 0)], the later
    one with value 0. *)
Definition dup_line_5 : str := lit "(0, 0, 5)" ++ LF.
Definition dup_line_0 : str := lit "(0, 0, 0)" ++ LF.

Definition dup_text : str :=
  lit "rows=2" ++ LF ++ lit "cols=2" ++ LF ++ dup_line_5 ++ dup_line_0.

Definition dup_files : FileSystem := fun _ => Text dup_text.

(** Files for each kind of loading error. *)
Definition bounds_text : str :=
  lit "rows=3" ++ LF ++ lit "cols=2" ++ LF ++ lit "(5, 0, 1)" ++ LF.

Definition fields_text : str :=
  lit "rows=3" ++ LF ++ lit "cols=2" ++ LF ++ lit "(1,2)" ++ LF.

Definition header_text : str := lit "rows=3" ++ LF ++ lit "(5, 0, 1)" ++ LF.

(** *** Vocabulary of the further properties *)

(** [not line.strip()]: the test of the loader for a line to skip. *)
Definition is_blank (l : str) : bool :=
  match strip l with
  | [] => true
  | _ :: _ => false
  end.

(** Every coordinate of an [nrows x ncols] matrix. *)
Definition all_coords (nrows ncols : Z) : list key :=
  list_prod (map Z.of_nat (seq 0 (Z.to_nat nrows)))
    (map Z.of_nat (seq 0 (Z.to_nat ncols))).

(** A file with a blank line between its entries, and the same file
    without it. *)
Definition blank_text : str :=
  lit "rows=2" ++ LF ++ lit "cols=2" ++ LF
  ++ lit "(0, 1, 7)" ++ LF ++ lit "   " ++ LF ++ lit "(1, 0, -3)" ++ LF.

Definition dense_text : str :=
  lit "rows=2" ++ LF ++ lit "cols=2" ++ LF
  ++ lit "(0, 1, 7)" ++ LF ++ lit "(1, 0, -3)" ++ LF.

(** ** def main *)

(** [a == b] on strings. *)
Fixpoint str_eqb (a b : str) : bool :=
  match a, b with
  | [], [] => true
  | x :: a', y :: b' => Ascii.eqb x y && str_eqb a' b'
  | _, _ => false
  end.

(** [s.lower()], for code points below 256. *)
Definition lower_char (c : ascii) : ascii :=
  let n := ord c in
  if ((65 <=? n) && (n <=? 90))
     || (((192 <=? n) && (n <=? 222)) && negb (n =? 215))
  then ascii_of_N (Z.to_N (n + 32))
  else c.

Definition lower (s : str) : str := map lower_char s.

(** [os.path.join(a, b)] and [os.path.basename(p)] of [posixpath]. *)
Definition path_join (a b : str) : str :=
  if startswith b (lit "/") then b
  else match a with
       | [] => b
       | _ :: _ => if endswith a (lit "/") then a ++ b
                   else a ++ lit "/" ++ b
       end.

Definition basename (p : str) : str := last (split "/"%char p) [].

(** What the program writes to and reads from the console, in order. *)
Inductive event : Type :=
| Print (s : str)
    (* print(s) *)
| PrintError (prefix : str) (e : exn)
    (* print(f"{prefix}{e}") for an exception of the class *)
| PrintOther (prefix : str) (text : str)
    (* print(f"{prefix}{e}") for an exception from elsewhere, of message text *)
| Input (prompt : str).
    (* input(prompt) *)

(** How [main] ends: it returns, [input] meets the end of input, or an
    exception escapes. *)
Inductive ending : Type :=
| Returned
| EndOfInput
| Raised (e : exn).

Definition base_input_path : str :=
  path_join (path_join (lit "dsa") (lit "sparse_matrix")) (lit "sample_inputs").

Definition output_dir : str :=
  path_join (path_join (lit "dsa") (lit "sparse_matrix")) (lit "output").

Definition menu : list event :=
  [Print (LF ++ lit "--- Choose a Matrix Operation ---");
   Print (lit "1. Addition");
   Print (lit "2. Subtraction");
   Print (lit "3. Multiplication");
   Print (lit "4. Exit");
   Input (lit "Enter your choice (1-4): ")].

(** [f"result_{operation_name.lower()}_{stem1}_{stem2}.txt"], a stem being
    [os.path.basename(path).split('.')[0]]. *)
Definition output_filename (operation_name file1_path file2_path : str) : str :=
  lit "result_" ++ lower operation_name ++ lit "_"
  ++ nth 0 (split "."%char (basename file1_path)) [] ++ lit "_"
  ++ nth 0 (split "."%char (basename file2_path)) [] ++ lit ".txt".

(** The handlers of the second [try]: [except ValueError] then
    [except Exception]. *)
Definition operation_error (e : exn) : event :=
  if exn_class_eqb (fst e) ValueError
  then PrintError (lit "Error during matrix operation: ") e
  else PrintError (lit "An unexpected error occurred: ") e.

Section CommandLine.

(** The state of the disk.  [read] gives the files as the class sees them.
    [makedirs] and [write_file] stand for [os.makedirs(d, exist_ok=True)] and
    for opening a file for writing and writing a text to it; each gives the
    disk afterwards and, when the system refuses, the message of its
    [OSError]. *)
Variable World : Type.
Variable read : World -> FileSystem.
Variable makedirs : World -> str -> option str * World.
Variable write_file : World -> str -> str -> option str * World.

(** The first [try] of the loop body: load both matrices. *)
Definition load_pair (w : World) (file1_path file2_path : str)
    : list event * (exn + SparseMatrix * SparseMatrix) :=
  let full_file1_path := path_join base_input_path file1_path in
  let full_file2_path := path_join base_input_path file2_path in
  let line1 := Print (lit "Loading matrix 1 from: " ++ full_file1_path) in
  let line2 := Print (lit "Loading matrix 2 from: " ++ full_file2_path) in
  match __init__ (read w) (Some full_file1_path) 0 0 with
  | inl e => ([line1], inl e)
  | inr matrix1 =>
      match __init__ (read w) (Some full_file2_path) 0 0 with
      | inl e => ([line1; line2], inl e)
      | inr matrix2 => ([line1; line2], inr (matrix1, matrix2))
      end
  end.

(** The second [try] of the loop body: compute, print, save.  The text is
    computed twice in the source, by two calls of [to_string] on the same
    instance. *)
Definition operate (w : World) (choice file1_path file2_path : str)
    (matrix1 matrix2 : SparseMatrix) : list event * World :=
  let '(operation_name, result) :=
    if str_eqb choice (lit "1") then
      (lit "Addition", Some (add (read w) matrix1 matrix2))
    else if str_eqb choice (lit "2") then
      (lit "Subtraction", Some (subtract (read w) matrix1 matrix2))
    else if str_eqb choice (lit "3") then
      (lit "Multiplication", Some (multiply (read w) matrix1 matrix2))
    else ([], None) in
  let header := Print (LF ++ lit "--- Result of " ++ operation_name ++ lit " ---") in
  match result with
  | None =>
      ([header;
        PrintOther (lit "An unexpected error occurred: ")
          (lit "'NoneType' object has no attribute 'to_string'")], w)
  | Some (inl e) => ([operation_error e], w)
  | Some (inr result_matrix) =>
      match fst (to_string result_matrix) with
      | inl e => ([header; operation_error e], w)
      | inr text =>
          let output_filepath :=
            path_join output_dir
              (output_filename operation_name file1_path file2_path) in
          match makedirs w output_dir with
          | (Some failure, w1) =>
              ([header; Print text;
                PrintOther (lit "An unexpected error occurred: ") failure], w1)
          | (None, w1) =>
              match write_file w1 output_filepath text with
              | (Some failure, w2) =>
                  ([header; Print text;
                    PrintOther (lit "An unexpected error occurred: ") failure],
                   w2)
              | (None, w2) =>
                  ([header; Print text;
                    Print (lit "Result saved to: " ++ output_filepath)], w2)
              end
          end
      end
  end.

(** The [while True] loop, on the lines [input] will return. *)
Fixpoint main_loop (w : World) (inputs : list str)
    : ending * list event * World :=
  match inputs with
  | [] => (EndOfInput, menu, w)
  | choice :: rest =>
      if str_eqb choice (lit "4") then
        (Returned, menu ++ [Print (lit "Exiting program. Happy coding!")], w)
      else if negb (existsb (str_eqb choice) [lit "1"; lit "2"; lit "3"]) then
        let '(en, ev, w') := main_loop w rest in
        (en,
         menu
         ++ Print (lit "Invalid choice. Please enter a number between 1 and 4.")
            :: ev,
         w')
      else
        let ask1 :=
          Input (lit "Enter path for the first matrix file (e.g., matrix1.txt): ") in
        let ask2 :=
          Input (lit "Enter path for the second matrix file (e.g., matrix2.txt): ") in
        match rest with
        | [] => (EndOfInput, menu ++ [ask1], w)
        | [_] => (EndOfInput, menu ++ [ask1; ask2], w)
        | file1_path :: file2_path :: rest' =>
            match load_pair w file1_path file2_path with
            | (loading, inl e) =>
                if existsb (exn_class_eqb (fst e)) [FileNotFoundError; ValueError]
                then
                  let '(en, ev, w') := main_loop w rest' in
                  (en,
                   menu ++ [ask1; ask2] ++ loading
                   ++ PrintError (lit "Error loading matrices: ") e :: ev,
                   w')
                else (Raised e, menu ++ [ask1; ask2] ++ loading, w)
            | (loading, inr (matrix1, matrix2)) =>
                let '(operating, w1) :=
                  operate w choice file1_path file2_path matrix1 matrix2 in
                let '(en, ev, w') := main_loop w1 rest' in
                (en, menu ++ [ask1; ask2] ++ loading ++ operating ++ ev, w')
            end
        end
  end.

Definition main (w : World) (inputs : list str)
    : ending * list event * World :=
  let '(en, ev, w') := main_loop w inputs in
  (en,
   Print (lit "Welcome to the Sparse Matrix Operations Program!")
   :: Print (lit "Please ensure your input files are located in: /dsa/sparse_matrix/sample_inputs/")
   :: ev,
   w').

(** The disks a session can leave behind: those reached by creating the
    output directory and by writing the text of a matrix to a file directly
    inside it. *)
Inductive touched (w : World) : World -> Prop :=
| touched_none : touched w w
| touched_makedirs w' :
    touched w w' -> touched w (snd (makedirs w' output_dir))
| touched_write w' name m text :
    touched w w' -> ~ In "/"%char name -> matrix m ->
    fst (to_string m) = inr text ->
    touched w (snd (write_file w' (output_dir ++ lit "/" ++ name) text)).

(** What one command computes, when it computes something. *)
Definition computed (w : World) (choice : str) (m1 m2 result : SparseMatrix)
    : Prop :=
  (choice = lit "1" /\ add (read w) m1 m2 = inr result)
  \/ (choice = lit "2" /\ subtract (read w) m1 m2 = inr result)
  \/ (choice = lit "3" /\ multiply (read w) m1 m2 = inr result).

End CommandLine.

(** A disk as a table from paths to texts, on which every operation
    succeeds. *)
Definition table_write (w : FileSystem) (path text : str) : option str * FileSystem :=
  (None, fun p => if str_eqb p path then Text text else w p).

Definition table_makedirs (w : FileSystem) (d : str) : option str * FileSystem :=
  (None, w).

Definition table_read (w : FileSystem) : FileSystem := w.

(** The disk holding the two scenario matrices as [a.txt] and [b.txt]. *)
Definition scenario_disk : FileSystem :=
  fun p =>
    if str_eqb p (lit "dsa/sparse_matrix/sample_inputs/a.txt") then
      Text (lit "rows=2" ++ LF ++ lit "cols=2" ++ LF
            ++ lit "(0, 0, 1)" ++ LF ++ lit "(1, 1, 2)" ++ LF)
    else if str_eqb p (lit "dsa/sparse_matrix/sample_inputs/b.txt") then
      Text (lit "rows=2" ++ LF ++ lit "cols=2" ++ LF
            ++ lit "(0, 0, 3)" ++ LF ++ lit "(0, 1, 4)" ++ LF)
    else Missing.

(** ** Tuples and dicts *)

Lemma key_eqb_eq (a b : key) : key_eqb a b = true <-> a = b.
Proof.
  destruct a as [a1 a2], b as [b1 b2]; unfold key_eqb; simpl.
  rewrite andb_true_iff, !Z.eqb_eq.
  split; [intros [-> ->]; reflexivity | intros H; inversion H; auto].
Qed.

Lemma key_eqb_refl (a : key) : key_eqb a a = true.
Proof. apply key_eqb_eq; reflexivity. Qed.

Lemma key_eqb_neq (a b : key) : key_eqb a b = false <-> a <> b.
Proof.
  rewrite <- key_eqb_eq. destruct (key_eqb a b); split; congruence.
Qed.

Lemma key_eqb_sym (a b : key) : key_eqb a b = key_eqb b a.
Proof.
  destruct (key_eqb a b) eqn:E.
  - apply key_eqb_eq in E; subst; symmetry; apply key_eqb_refl.
  - symmetry; apply key_eqb_neq; apply key_eqb_neq in E; congruence.
Qed.

Ltac key_cases k k' :=
  let E := fresh "E" in
  let N := fresh "Hneq" in
  destruct (key_eqb k k') eqn:E;
  [apply key_eqb_eq in E; try subst
  | pose proof (proj1 (key_eqb_neq _ _) E) as N].

Lemma dict_find_In (d : dict) (k : key) (v : Z) :
  dict_find d k = Some v -> In (k, v) d.
Proof.
  induction d as [|[k' v'] d IH]; simpl; [discriminate|].
  key_cases k k'.
  - intros H; inversion H; subst; auto.
  - auto.
Qed.

Lemma dict_find_None (d : dict) (k : key) :
  dict_find d k = None <-> ~ In k (keys d).
Proof.
  induction d as [|[k' v'] d IH]; simpl; [tauto|].
  key_cases k k'.
  - split; [discriminate | intros H; exfalso; apply H; auto].
  - rewrite IH; split; [intros H1 [H2|H2]; [congruence | auto] | tauto].
Qed.

Lemma In_dict_find (d : dict) (k : key) (v : Z) :
  dict_ok d -> In (k, v) d -> dict_find d k = Some v.
Proof.
  unfold dict_ok.
  induction d as [|[k' v'] d IH]; simpl; [tauto|].
  intros Hnd [H|H]; inversion Hnd as [|? ? Hnotin Hnd']; subst.
  - inversion H; subst. rewrite key_eqb_refl; reflexivity.
  - key_cases k k'.
    + exfalso; apply Hnotin. change (In (fst (k', v)) (map fst d)).
      apply in_map; assumption.
    + auto.
Qed.

Lemma dict_find_setitem (d : dict) (k k' : key) (v : Z) :
  dict_find (dict_setitem d k v) k'
  = if key_eqb k' k then Some v else dict_find d k'.
Proof.
  induction d as [|[k0 v0] d IH]; simpl.
  - reflexivity.
  - key_cases k k0; simpl.
    + destruct (key_eqb k' k0); reflexivity.
    + rewrite IH. key_cases k' k0; [|reflexivity].
      rewrite key_eqb_sym, E; reflexivity.
Qed.

Lemma In_setitem (d : dict) (k : key) (v : Z) (e : key * Z) :
  In e (dict_setitem d k v) -> e = (k, v) \/ In e d.
Proof.
  induction d as [|[k0 v0] d IH]; simpl.
  - intros [H|[]]; auto.
  - key_cases k k0; simpl.
    + intros [H|H]; auto.
    + intros [H|H]; auto. destruct (IH H); auto.
Qed.

Lemma keys_setitem_In (d : dict) (k k' : key) (v : Z) :
  In k' (keys (dict_setitem d k v)) -> k' = k \/ In k' (keys d).
Proof.
  unfold keys; rewrite in_map_iff; intros [[k0 v0] [<- H]]; simpl.
  apply In_setitem in H as [H|H].
  - inversion H; auto.
  - right. change k0 with (fst (k0, v0)). apply in_map; assumption.
Qed.

Lemma dict_ok_setitem (d : dict) (k : key) (v : Z) :
  dict_ok d -> dict_ok (dict_setitem d k v).
Proof.
  unfold dict_ok.
  induction d as [|[k0 v0] d IH]; simpl; intros Hnd.
  - constructor; [simpl; tauto | constructor].
  - inversion Hnd as [|? ? Hnotin Hnd']; subst.
    key_cases k k0; simpl.
    + constructor; assumption.
    + constructor; [|auto].
      intros Hin; apply keys_setitem_In in Hin as [Hin|Hin]; auto.
Qed.

Lemma In_delitem (d : dict) (k : key) (e : key * Z) :
  In e (dict_delitem d k) -> In e d.
Proof.
  induction d as [|[k0 v0] d IH]; simpl; [tauto|].
  destruct (key_eqb k k0); simpl; [auto|]. intros [H|H]; auto.
Qed.

Lemma keys_delitem_In (d : dict) (k k' : key) :
  In k' (keys (dict_delitem d k)) -> In k' (keys d).
Proof.
  unfold keys; rewrite !in_map_iff; intros [e [<- H]].
  exists e; split; [reflexivity | eapply In_delitem; eassumption].
Qed.

Lemma dict_ok_delitem (d : dict) (k : key) :
  dict_ok d -> dict_ok (dict_delitem d k).
Proof.
  unfold dict_ok.
  induction d as [|[k0 v0] d IH]; simpl; intros Hnd; [constructor|].
  inversion Hnd as [|? ? Hnotin Hnd']; subst.
  destruct (key_eqb k k0); simpl; [assumption|].
  constructor; [|auto].
  intros Hin; apply keys_delitem_In in Hin; auto.
Qed.

Lemma dict_find_delitem (d : dict) (k k' : key) :
  dict_ok d ->
  dict_find (dict_delitem d k) k'
  = if key_eqb k' k then None else dict_find d k'.
Proof.
  unfold dict_ok.
  induction d as [|[k0 v0] d IH]; simpl; intros Hnd.
  - destruct (key_eqb k' k); reflexivity.
  - inversion Hnd as [|? ? Hnotin Hnd']; subst.
    key_cases k k0; simpl.
    + key_cases k' k0; [apply dict_find_None; assumption | reflexivity].
    + rewrite (IH Hnd'). key_cases k' k0; [|reflexivity].
      rewrite key_eqb_sym, E; reflexivity.
Qed.

(** ** Element access *)

Lemma in_bounds_iff (m : SparseMatrix) (r c : Z) :
  in_bounds m r c = true <-> 0 <= r < rows m /\ 0 <= c < cols m.
Proof.
  unfold in_bounds. rewrite !andb_true_iff, !Z.leb_le, !Z.ltb_lt. tauto.
Qed.

Lemma in_bounds_false_iff (m : SparseMatrix) (r c : Z) :
  in_bounds m r c = false <-> ~ (0 <= r < rows m /\ 0 <= c < cols m).
Proof.
  rewrite <- in_bounds_iff. destruct (in_bounds m r c); split; congruence.
Qed.

Lemma getElement_in (m : SparseMatrix) (r c : Z) :
  in_bounds m r c = true -> getElement r c m = (inr (value_at m r c), m).
Proof.
  intros H. unfold getElement, bind, get_self, ret. rewrite H. reflexivity.
Qed.

(** An f-string field, without the monad. *)
Lemma str__eq (n : Z) (m : SparseMatrix) :
  str_ n m
  = if printable n then (inr (str_of_int n), m)
    else (inl (ValueError, msg_builtin), m).
Proof. unfold str_, str_int. destruct (printable n); reflexivity. Qed.

Lemma raise_index_bounds_eq (A : Type) (m : SparseMatrix) (r c : Z) :
  @raise_index_bounds A r c m = (inl (index_bounds_error m r c), m).
Proof.
  unfold raise_index_bounds, index_bounds_error, message_printable, bind,
    get_self, raise.
  rewrite (str__eq r).
  destruct (printable r); [|reflexivity]. rewrite (str__eq c).
  destruct (printable c); [|reflexivity]. rewrite (str__eq (rows m)).
  destruct (printable (rows m)); [|reflexivity]. rewrite (str__eq (cols m)).
  destruct (printable (cols m)); reflexivity.
Qed.

Lemma getElement_out (m : SparseMatrix) (r c : Z) :
  in_bounds m r c = false ->
  getElement r c m = (inl (index_bounds_error m r c), m).
Proof.
  intros H. unfold getElement, bind, get_self. rewrite H.
  apply raise_index_bounds_eq.
Qed.

Lemma setElement_out (m : SparseMatrix) (r c v : Z) :
  in_bounds m r c = false ->
  setElement r c v m = (inl (index_bounds_error m r c), m).
Proof.
  intros H. unfold setElement, bind, get_self. rewrite H.
  apply raise_index_bounds_eq.
Qed.

(** What an in-bounds [setElement] does to the instance. *)
Lemma setElement_in (m : SparseMatrix) (r c v : Z) :
  in_bounds m r c = true ->
  exists d',
    setElement r c v m = (inr tt, mkSparseMatrix (rows m) (cols m) d')
    /\ (forall e, In e d' -> (e = ((r, c), v) /\ v <> 0) \/ In e (matrix_data m))
    /\ (dict_ok (matrix_data m) ->
        dict_ok d'
        /\ forall k, dict_find d' k
                     = if key_eqb k (r, c)
                       then (if v =? 0 then None else Some v)
                       else dict_find (matrix_data m) k).
Proof.
  intros H. unfold setElement, bind, get_self, ret, set_matrix_data.
  rewrite H; simpl.
  destruct (Z.eqb_spec v 0) as [Hv|Hv]; simpl.
  - destruct (dict_contains (matrix_data m) (r, c)) eqn:Hc.
    + eexists; split; [reflexivity|]. split.
      * intros e He; right; eapply In_delitem; eassumption.
      * intros Hok; split; [apply dict_ok_delitem; assumption|].
        intros k; apply dict_find_delitem; assumption.
    + exists (matrix_data m); split; [destruct m; reflexivity|]. split.
      * auto.
      * intros Hok; split; [assumption|]. intros k.
        key_cases k (r, c); [|reflexivity].
        unfold dict_contains in Hc.
        destruct (dict_find (matrix_data m) (r, c)); [discriminate|reflexivity].
  - eexists; split; [reflexivity|]. split.
    + intros e He. apply In_setitem in He as [He|He]; auto.
    + intros Hok; split; [apply dict_ok_setitem; assumption|].
      intros k; apply dict_find_setitem.
Qed.

Lemma entry_ok_dims (m m' : SparseMatrix) (e : key * Z) :
  rows m' = rows m -> cols m' = cols m -> entry_ok m e -> entry_ok m' e.
Proof. unfold entry_ok; intros -> ->; auto. Qed.

(** An in-bounds [setElement] returns, keeps the dimensions, keeps the
    instance a matrix, and changes the logical value at its coordinate
    only. *)
Lemma setElement_matrix (m : SparseMatrix) (r c v : Z) :
  matrix m -> in_bounds m r c = true ->
  exists m',
    setElement r c v m = (inr tt, m')
    /\ rows m' = rows m /\ cols m' = cols m /\ matrix m'
    /\ forall r' c', value_at m' r' c'
                     = if key_eqb (r', c') (r, c) then v else value_at m r' c'.
Proof.
  intros [Hok [Hr [Hc Hall]]] Hin.
  destruct (setElement_in m r c v Hin) as [d' [Hset [Hmem Hfind]]].
  destruct (Hfind Hok) as [Hok' Hfind'].
  eexists; split; [exact Hset|]. simpl.
  split; [reflexivity|]. split; [reflexivity|]. split.
  - split; [exact Hok'|]. split; [exact Hr|]. split; [exact Hc|]. simpl.
    apply Forall_forall. intros e He.
    apply Hmem in He as [[-> Hv]|He].
    + apply in_bounds_iff in Hin. unfold entry_ok; simpl. tauto.
    + rewrite Forall_forall in Hall. apply (Hall e He).
  - intros r' c'. unfold value_at, dict_get; simpl. rewrite Hfind'.
    destruct (key_eqb (r', c') (r, c)); [|reflexivity].
    destruct (Z.eqb_spec v 0); congruence.
Qed.

(** [getElement] leaves the instance as it was, whatever it returns. *)
Lemma getElement_pure (m : SparseMatrix) (r c : Z) :
  snd (getElement r c m) = m.
Proof.
  destruct (in_bounds m r c) eqn:H.
  - rewrite getElement_in by assumption; reflexivity.
  - rewrite getElement_out by assumption; reflexivity.
Qed.

(** A failing [setElement] leaves the instance as it was. *)
Lemma setElement_fail_pure (m : SparseMatrix) (r c v : Z) (e : exn) :
  fst (setElement r c v m) = inl e -> snd (setElement r c v m) = m.
Proof.
  destruct (in_bounds m r c) eqn:H.
  - destruct (setElement_in m r c v H) as [d' [-> _]]; discriminate.
  - rewrite setElement_out by assumption; reflexivity.
Qed.

(** ** The loops of the arithmetic operations *)

Lemma in_bounds_dims (m m' : SparseMatrix) (r c : Z) :
  rows m' = rows m -> cols m' = cols m -> in_bounds m' r c = in_bounds m r c.
Proof. unfold in_bounds; intros -> ->; reflexivity. Qed.

Lemma accumulate_matrix (m : SparseMatrix) (r c d : Z) :
  matrix m -> in_bounds m r c = true ->
  exists m',
    accumulate (Some ((r, c), d)) m = (inr tt, m')
    /\ rows m' = rows m /\ cols m' = cols m /\ matrix m'
    /\ forall r' c', value_at m' r' c'
                     = value_at m r' c'
                       + (if key_eqb (r', c') (r, c) then d else 0).
Proof.
  intros Hm Hin.
  destruct (setElement_matrix m r c (value_at m r c + d) Hm Hin)
    as [m' [Hset [Hr [Hc [Hm' Hval]]]]].
  exists m'. unfold accumulate, bind. rewrite getElement_in by assumption.
  split; [exact Hset|]. repeat (split; [assumption|]).
  intros r' c'. rewrite Hval. key_cases (r', c') (r, c).
  - inversion E; subst; reflexivity.
  - lia.
Qed.

(** A loop of get-then-set steps returns and adds [contrib] everywhere. *)
Lemma for_each_accumulate {X} (op : X -> option (key * Z))
    (body : X -> M unit) (l : list X) :
  (forall x m, body x m = accumulate (op x) m) ->
  forall m,
    matrix m ->
    (forall x r c d, In x l -> op x = Some ((r, c), d) ->
                     in_bounds m r c = true) ->
    exists m',
      for_each l body m = (inr tt, m')
      /\ rows m' = rows m /\ cols m' = cols m /\ matrix m'
      /\ forall r c, value_at m' r c = value_at m r c + contrib op l (r, c).
Proof.
  intros Hbody. induction l as [|x l IH]; intros m Hm Hin; simpl.
  - exists m. unfold ret. repeat (split; [auto|]). intros; lia.
  - unfold bind. rewrite Hbody.
    destruct (op x) as [[[r c] d]|] eqn:Hop.
    + destruct (accumulate_matrix m r c d Hm (Hin x r c d (or_introl eq_refl) Hop))
        as [m1 [Hacc [Hr1 [Hc1 [Hm1 Hv1]]]]].
      destruct (IH m1 Hm1) as [m' [Hrest [Hr [Hc [Hm' Hv]]]]].
      { intros y r' c' d' Hy Hopy. rewrite (in_bounds_dims _ _ _ _ Hr1 Hc1).
        eapply Hin; [right; exact Hy | exact Hopy]. }
      exists m'. split; [rewrite Hacc; exact Hrest|].
      split; [congruence|]. split; [congruence|]. split; [assumption|].
      intros r' c'. rewrite Hv, Hv1. lia.
    + simpl. unfold ret.
      destruct (IH m Hm) as [m' [Hrest H]].
      { intros y r' c' d' Hy Hopy. eapply Hin; [right; exact Hy | exact Hopy]. }
      exists m'. split; [exact Hrest | exact H].
Qed.

(** The copying loop of [add] and [subtract]. *)
Lemma for_each_setElement (l : dict) :
  dict_ok l ->
  forall m,
    matrix m ->
    (forall r c v, In ((r, c), v) l -> in_bounds m r c = true) ->
    exists m',
      for_each l (fun '((r, c), val) => setElement r c val) m = (inr tt, m')
      /\ rows m' = rows m /\ cols m' = cols m /\ matrix m'
      /\ forall r c, value_at m' r c
                     = match dict_find l (r, c) with
                       | Some v => v
                       | None => value_at m r c
                       end.
Proof.
  unfold dict_ok.
  induction l as [|[[r0 c0] v0] l IH]; intros Hnd m Hm Hin; simpl.
  - exists m. unfold ret. repeat (split; [auto|]). reflexivity.
  - inversion Hnd as [|? ? Hnotin Hnd']; subst.
    destruct (setElement_matrix m r0 c0 v0 Hm (Hin r0 c0 v0 (or_introl eq_refl)))
      as [m1 [Hset [Hr1 [Hc1 [Hm1 Hv1]]]]].
    unfold bind. rewrite Hset.
    destruct (IH Hnd' m1 Hm1) as [m' [Hrest [Hr [Hc [Hm' Hv]]]]].
    { intros r c v Hrc. rewrite (in_bounds_dims _ _ _ _ Hr1 Hc1).
      apply (Hin r c v); right; exact Hrc. }
    exists m'. split; [exact Hrest|].
    split; [congruence|]. split; [congruence|]. split; [assumption|].
    intros r c. rewrite Hv, Hv1.
    key_cases (r, c) (r0, c0); [|reflexivity].
    inversion E; subst.
    apply dict_find_None in Hnotin. unfold keys in Hnotin. simpl in Hnotin.
    rewrite Hnotin. reflexivity.
Qed.

Lemma contrib_items (f : Z -> Z) (d : dict) (k : key) :
  dict_ok d -> f 0 = 0 ->
  contrib (fun e : key * Z => Some (fst e, f (snd e))) d k
  = f (dict_get d k 0).
Proof.
  unfold dict_ok, dict_get. intros Hnd Hf.
  induction d as [|[k0 v0] d IH]; simpl; [auto|].
  inversion Hnd as [|? ? Hnotin Hnd']; subst.
  rewrite (IH Hnd'). key_cases k k0.
  - apply dict_find_None in Hnotin. rewrite Hnotin. lia.
  - lia.
Qed.

Lemma init_empty (fs : FileSystem) (numRows numCols : Z) :
  0 < numRows -> 0 < numCols ->
  __init__ fs None numRows numCols = inr (mkSparseMatrix numRows numCols []).
Proof.
  intros Hr Hc. unfold __init__.
  destruct (Z.leb_spec numRows 0); [lia|].
  destruct (Z.leb_spec numCols 0); [lia|]. reflexivity.
Qed.

Lemma empty_matrix (numRows numCols : Z) :
  0 < numRows -> 0 < numCols -> matrix (mkSparseMatrix numRows numCols []).
Proof.
  intros Hr Hc. split; [constructor|].
  split; [exact Hr|]. split; [exact Hc|]. constructor.
Qed.

Lemma matrix_entry_in_bounds (m : SparseMatrix) (r c v : Z) :
  matrix m -> In ((r, c), v) (matrix_data m) -> in_bounds m r c = true.
Proof.
  intros [_ [_ [_ Hall]]] Hin. rewrite Forall_forall in Hall.
  apply in_bounds_iff. destruct (Hall _ Hin) as [_ H]. exact H.
Qed.

(** [add] and [subtract] share their shape: copy [self], then combine the
    entries of [other_matrix] with [f]. *)
Lemma combine_loops (f : Z -> Z) (res a b : SparseMatrix)
    (body : key * Z -> M unit) :
  (forall e m, body e m = accumulate (Some (fst e, f (snd e))) m) ->
  f 0 = 0 ->
  matrix res -> matrix_data res = [] -> matrix a -> matrix b ->
  rows a = rows res -> cols a = cols res ->
  rows b = rows res -> cols b = cols res ->
  exists m',
    returning
      (for_each (items (matrix_data a))
         (fun '((r, c), val) => setElement r c val) ;;
       for_each (items (matrix_data b)) body) res = inr m'
    /\ rows m' = rows res /\ cols m' = cols res /\ matrix m'
    /\ forall r c, value_at m' r c = value_at a r c + f (value_at b r c).
Proof.
  intros Hbody Hf Hres Hempty Ha Hb Hra Hca Hrb Hcb.
  destruct (for_each_setElement _ (proj1 Ha) res Hres)
    as [m1 [H1 [Hr1 [Hc1 [Hm1 Hv1]]]]].
  { intros r c v Hin.
    rewrite <- (matrix_entry_in_bounds _ _ _ _ Ha Hin).
    apply in_bounds_dims; congruence. }
  destruct (for_each_accumulate (fun e => Some (fst e, f (snd e))) body
              (items (matrix_data b)) Hbody m1 Hm1)
    as [m2 [H2 [Hr2 [Hc2 [Hm2 Hv2]]]]].
  { intros [[r0 c0] v0] r c d Hin Heq. simpl in Heq. inversion Heq; subst.
    rewrite <- (matrix_entry_in_bounds _ _ _ _ Hb Hin).
    apply in_bounds_dims; congruence. }
  exists m2. unfold returning, bind, items in *. rewrite H1, H2.
  split; [reflexivity|]. split; [congruence|]. split; [congruence|].
  split; [assumption|].
  intros r c. rewrite Hv2, Hv1.
  rewrite (contrib_items f _ (r, c) (proj1 Hb) Hf).
  unfold value_at at 2 3, dict_get.
  destruct (dict_find (matrix_data a) (r, c)); [reflexivity|].
  unfold value_at, dict_get. rewrite Hempty. reflexivity.
Qed.

(** ** [add] and [subtract] *)

Lemma add_matrix (fs : FileSystem) (a b : SparseMatrix) :
  matrix a -> matrix b -> rows a = rows b -> cols a = cols b ->
  exists m,
    add fs a b = inr m
    /\ rows m = rows a /\ cols m = cols a /\ matrix m
    /\ forall r c, value_at m r c = value_at a r c + value_at b r c.
Proof.
  intros Ha Hb Hr Hc. unfold add.
  rewrite (proj2 (Z.eqb_eq _ _) Hr), (proj2 (Z.eqb_eq _ _) Hc).
  cbn [negb orb].
  rewrite init_empty by apply Ha.
  apply (combine_loops (fun v => v) (mkSparseMatrix (rows a) (cols a) []) a b).
  - intros [[r c] v] m; reflexivity.
  - reflexivity.
  - apply empty_matrix; [apply Ha | apply Ha].
  - reflexivity.
  - assumption.
  - assumption.
  - reflexivity.
  - reflexivity.
  - simpl; congruence.
  - simpl; congruence.
Qed.

Lemma subtract_matrix (fs : FileSystem) (a b : SparseMatrix) :
  matrix a -> matrix b -> rows a = rows b -> cols a = cols b ->
  exists m,
    subtract fs a b = inr m
    /\ rows m = rows a /\ cols m = cols a /\ matrix m
    /\ forall r c, value_at m r c = value_at a r c - value_at b r c.
Proof.
  intros Ha Hb Hr Hc. unfold subtract.
  rewrite (proj2 (Z.eqb_eq _ _) Hr), (proj2 (Z.eqb_eq _ _) Hc).
  cbn [negb orb].
  rewrite init_empty by apply Ha.
  apply (combine_loops Z.opp (mkSparseMatrix (rows a) (cols a) []) a b).
  - intros [[r c] v] m; reflexivity.
  - reflexivity.
  - apply empty_matrix; [apply Ha | apply Ha].
  - reflexivity.
  - assumption.
  - assumption.
  - reflexivity.
  - reflexivity.
  - simpl; congruence.
  - simpl; congruence.
Qed.

(** Two matrices with the same logical values hold the same entries. *)
Lemma matrix_In_value (m : SparseMatrix) (r c v : Z) :
  matrix m ->
  (In ((r, c), v) (matrix_data m) <-> v <> 0 /\ value_at m r c = v).
Proof.
  intros [Hok [_ [_ Hall]]]. rewrite Forall_forall in Hall.
  unfold value_at, dict_get. split.
  - intros Hin. split; [apply (Hall _ Hin)|].
    rewrite (In_dict_find _ _ _ Hok Hin). reflexivity.
  - intros [Hv Hval].
    destruct (dict_find (matrix_data m) (r, c)) as [v'|] eqn:Hf.
    + subst. apply dict_find_In; assumption.
    + congruence.
Qed.

Lemma dict_ok_NoDup (d : dict) : dict_ok d -> NoDup d.
Proof. unfold dict_ok, keys. apply NoDup_map_inv. Qed.

Lemma same_values_same_entries (m1 m2 : SparseMatrix) :
  matrix m1 -> matrix m2 ->
  (forall r c, value_at m1 r c = value_at m2 r c) ->
  same_entries m1 m2.
Proof.
  intros H1 H2 Hval. unfold same_entries, items.
  apply NoDup_Permutation.
  - apply dict_ok_NoDup, H1.
  - apply dict_ok_NoDup, H2.
  - intros [[r c] v].
    rewrite (matrix_In_value m1 r c v H1), (matrix_In_value m2 r c v H2).
    rewrite Hval. tauto.
Qed.

(** ** [multiply] *)

Lemma sum_below_ext (n : nat) (f g : Z -> Z) :
  (forall k, 0 <= k < Z.of_nat n -> f k = g k) ->
  sum_below n f = sum_below n g.
Proof.
  induction n as [|n IH]; intros H; simpl; [reflexivity|].
  rewrite IH, (H (Z.of_nat n)) by (try intros; try apply H; lia). reflexivity.
Qed.

Lemma sum_below_add (n : nat) (f g : Z -> Z) :
  sum_below n (fun k => f k + g k) = sum_below n f + sum_below n g.
Proof. induction n as [|n IH]; simpl; [reflexivity | rewrite IH; lia]. Qed.

Lemma sum_below_single (n : nat) (c x : Z) :
  sum_below n (fun k => if k =? c then x else 0)
  = if (0 <=? c) && (c <? Z.of_nat n) then x else 0.
Proof.
  induction n as [|n IH].
  - simpl. destruct (0 <=? c) eqn:E1, (c <? 0) eqn:E2; try reflexivity.
    apply Z.leb_le in E1; apply Z.ltb_lt in E2; lia.
  - cbn [sum_below]. rewrite IH.
    destruct (Z.eqb_spec (Z.of_nat n) c) as [Heq|Hne];
      destruct (Z.leb_spec 0 c); destruct (Z.ltb_spec c (Z.of_nat n));
      destruct (Z.ltb_spec c (Z.of_nat (S n))); simpl; lia.
Qed.

Lemma contrib_mul_op (r1 c1 v1 : Z) (lb : dict) (i j : Z) :
  dict_ok lb ->
  contrib (mul_op ((r1, c1), v1)) lb (i, j)
  = if i =? r1 then v1 * dict_get lb (c1, j) 0 else 0.
Proof.
  unfold dict_ok, dict_get.
  induction lb as [|[[r2 c2] v2] lb IH]; intros Hnd; simpl.
  - destruct (i =? r1); lia.
  - inversion Hnd as [|? ? Hnotin Hnd']; subst.
    specialize (IH Hnd'). simpl in Hnotin.
    unfold key_eqb at 2; simpl.
    destruct (Z.eqb_spec c1 r2) as [Hc|Hc]; simpl.
    + subst r2. unfold key_eqb at 1; simpl. rewrite IH.
      destruct (Z.eqb_spec i r1), (Z.eqb_spec j c2); simpl; try lia.
      subst. apply dict_find_None in Hnotin. rewrite Hnotin. lia.
    + exact IH.
Qed.

Lemma mul_contrib_sum (la lb : dict) (n : nat) (i j : Z) :
  dict_ok la -> dict_ok lb ->
  (forall r c v, In ((r, c), v) la -> 0 <= c < Z.of_nat n) ->
  mul_contrib la lb (i, j)
  = sum_below n (fun k => dict_get la (i, k) 0 * dict_get lb (k, j) 0).
Proof.
  intros Hla Hlb. unfold dict_ok in Hla.
  induction la as [|[[r1 c1] v1] la IH]; intros Hcols.
  - simpl. induction n as [|n IHn]; simpl; [reflexivity|].
    rewrite <- IHn; [unfold dict_get; simpl; lia | intros r c v []].
  - inversion Hla as [|? ? Hnotin Hnd']; subst. simpl in Hnotin.
    cbn [mul_contrib]. rewrite contrib_mul_op by assumption.
    rewrite (IH Hnd') by (intros r c v H; apply (Hcols r c v); right; exact H).
    apply dict_find_None in Hnotin.
    rewrite (sum_below_ext n
      (fun k => dict_get (((r1, c1), v1) :: la) (i, k) 0 * dict_get lb (k, j) 0)
      (fun k => (if k =? c1
                 then (if i =? r1 then v1 * dict_get lb (c1, j) 0 else 0)
                 else 0)
                + dict_get la (i, k) 0 * dict_get lb (k, j) 0)).
    + rewrite sum_below_add, sum_below_single.
      destruct (Hcols r1 c1 v1 (or_introl eq_refl)) as [H0 Hn].
      destruct (Z.leb_spec 0 c1); [|lia].
      destruct (Z.ltb_spec c1 (Z.of_nat n)); [|lia]. reflexivity.
    + intros k _. unfold dict_get; simpl. unfold key_eqb; simpl.
      destruct (Z.eqb_spec i r1), (Z.eqb_spec k c1); simpl; subst; try lia.
      rewrite Hnotin. lia.
Qed.

Lemma multiply_inner_body (r1 c1 val1 : Z) (e : key * Z) (m : SparseMatrix) :
  (let '((r2, c2), val2) := e in
   if c1 =? r2 then
     current_sum <- getElement r1 c2 ;;
     setElement r1 c2 (current_sum + val1 * val2)
   else ret tt) m
  = accumulate (mul_op ((r1, c1), val1) e) m.
Proof.
  destruct e as [[r2 c2] val2]; simpl. destruct (c1 =? r2); reflexivity.
Qed.

Lemma multiply_loops (la lb : dict) :
  dict_ok lb ->
  forall m,
    matrix m ->
    (forall r c v, In ((r, c), v) la -> 0 <= r < rows m) ->
    (forall r c v, In ((r, c), v) lb -> 0 <= c < cols m) ->
    exists m',
      for_each la
        (fun '((r1, c1), val1) =>
           for_each lb
             (fun '((r2, c2), val2) =>
                if c1 =? r2 then
                  current_sum <- getElement r1 c2 ;;
                  setElement r1 c2 (current_sum + val1 * val2)
                else ret tt)) m = (inr tt, m')
      /\ rows m' = rows m /\ cols m' = cols m /\ matrix m'
      /\ forall r c, value_at m' r c = value_at m r c + mul_contrib la lb (r, c).
Proof.
  intros Hlb.
  induction la as [|[[r1 c1] val1] la IH]; intros m Hm Hra Hcb.
  - exists m. simpl. unfold ret. repeat (split; [auto|]). intros; lia.
  - cbn [for_each]. unfold bind at 1.
    destruct (for_each_accumulate (mul_op ((r1, c1), val1))
                (fun '((r2, c2), val2) =>
                   if c1 =? r2 then
                     current_sum <- getElement r1 c2 ;;
                     setElement r1 c2 (current_sum + val1 * val2)
                   else ret tt)
                lb (multiply_inner_body r1 c1 val1) m Hm)
      as [m1 [H1 [Hr1 [Hc1 [Hm1 Hv1]]]]].
    { intros [[r2 c2] val2] r c d Hin Hop. simpl in Hop.
      destruct (c1 =? r2); [|discriminate]. inversion Hop; subst.
      apply in_bounds_iff. split.
      - apply (Hra r c1 val1); left; reflexivity.
      - apply (Hcb r2 c val2); assumption. }
    rewrite H1.
    destruct (IH m1 Hm1) as [m' [Hrest [Hr [Hc [Hm' Hv]]]]].
    { intros r c v H. rewrite Hr1. apply (Hra r c v); right; exact H. }
    { intros r c v H. rewrite Hc1. apply (Hcb r c v); exact H. }
    exists m'. split; [exact Hrest|].
    split; [congruence|]. split; [congruence|]. split; [assumption|].
    intros r c. rewrite Hv, Hv1. cbn [mul_contrib]. lia.
Qed.

Lemma multiply_matrix (fs : FileSystem) (a b : SparseMatrix) :
  matrix a -> matrix b -> cols a = rows b ->
  exists m,
    multiply fs a b = inr m
    /\ rows m = rows a /\ cols m = cols b /\ matrix m
    /\ forall i j,
         value_at m i j
         = sum_range (cols a) (fun k => value_at a i k * value_at b k j).
Proof.
  intros Ha Hb Hab. unfold multiply.
  rewrite (proj2 (Z.eqb_eq _ _) Hab). cbn [negb].
  rewrite init_empty by (try apply Ha; apply Hb).
  destruct (multiply_loops (matrix_data a) (matrix_data b) (proj1 Hb)
              (mkSparseMatrix (rows a) (cols b) []))
    as [m' [Hloop [Hr [Hc [Hm' Hv]]]]].
  - apply empty_matrix; [apply Ha | apply Hb].
  - intros r c v Hin. simpl.
    apply (proj1 (in_bounds_iff _ _ _) (matrix_entry_in_bounds a r c v Ha Hin)).
  - intros r c v Hin. simpl.
    apply (proj1 (in_bounds_iff _ _ _) (matrix_entry_in_bounds b r c v Hb Hin)).
  - exists m'. unfold returning, items. rewrite Hloop.
    split; [reflexivity|]. split; [exact Hr|]. split; [exact Hc|].
    split; [exact Hm'|].
    intros i j. rewrite Hv. unfold sum_range, value_at at 1, dict_get; simpl.
    apply mul_contrib_sum; [apply Ha | apply Hb |].
    intros r c v Hin.
    destruct (proj1 (in_bounds_iff _ _ _) (matrix_entry_in_bounds a r c v Ha Hin))
      as [_ H].
    rewrite Z2Nat.id; lia.
Qed.

(** ** [sorted] *)

Lemma key_ltb_lt (a b : key) : key_ltb a b = true <-> key_lt a b.
Proof.
  unfold key_ltb, key_lt.
  rewrite orb_true_iff, andb_true_iff, !Z.ltb_lt, Z.eqb_eq. tauto.
Qed.

Lemma key_leb_le (a b : key) : key_leb a b = true <-> key_le a b.
Proof.
  unfold key_leb, key_le. rewrite negb_true_iff.
  destruct (key_ltb b a) eqn:E.
  - apply key_ltb_lt in E. destruct a, b; unfold key_lt in *; simpl in *.
    split; [discriminate|]. intros [H|H]; [lia | inversion H; lia].
  - split; [intros _ | reflexivity].
    assert (H : ~ key_lt b a) by (rewrite <- key_ltb_lt; congruence).
    destruct a as [a1 a2], b as [b1 b2]; unfold key_lt in *; simpl in *.
    destruct (Z.eq_dec a1 b1), (Z.eq_dec a2 b2); subst; auto; left; lia.
Qed.

Lemma key_leb_total (a b : key) : key_leb a b = false -> key_le b a.
Proof.
  unfold key_leb. rewrite negb_false_iff, key_ltb_lt. left; assumption.
Qed.

Lemma key_lt_trans (a b c : key) : key_lt a b -> key_lt b c -> key_lt a c.
Proof. unfold key_lt; lia. Qed.

Lemma key_le_trans (a b c : key) : key_le a b -> key_le b c -> key_le a c.
Proof.
  intros [H1|H1] [H2|H2]; subst; unfold key_le; auto.
  left; eapply key_lt_trans; eassumption.
Qed.

Lemma key_lt_irrefl (a : key) : ~ key_lt a a.
Proof. unfold key_lt; lia. Qed.

Lemma insert_sorted_perm (k : key) (l : list key) :
  Permutation (insert_sorted k l) (k :: l).
Proof.
  induction l as [|h t IH]; simpl; [reflexivity|].
  destruct (key_leb k h); [reflexivity|].
  rewrite IH. apply perm_swap.
Qed.

Lemma sorted_perm (l : list key) : Permutation (sorted l) l.
Proof.
  induction l as [|k t IH]; simpl; [reflexivity|].
  rewrite insert_sorted_perm, IH. reflexivity.
Qed.

Lemma insert_sorted_le (k : key) (l : list key) :
  StronglySorted key_le l -> StronglySorted key_le (insert_sorted k l).
Proof.
  induction l as [|h t IH]; intros Hs; simpl.
  - constructor; constructor.
  - inversion Hs as [|? ? Ht Hh]; subst.
    destruct (key_leb k h) eqn:E.
    + apply key_leb_le in E. constructor; [assumption|].
      constructor; [assumption|].
      eapply Forall_impl; [|exact Hh].
      intros x Hx; eapply key_le_trans; eassumption.
    + apply key_leb_total in E. constructor; [auto|].
      rewrite Forall_forall. intros x Hx.
      apply (Permutation_in _ (insert_sorted_perm k t)) in Hx.
      destruct Hx as [<-|Hx]; [assumption|].
      rewrite Forall_forall in Hh; auto.
Qed.

Lemma sorted_le (l : list key) : StronglySorted key_le (sorted l).
Proof.
  induction l as [|k t IH]; simpl; [constructor | apply insert_sorted_le, IH].
Qed.

Lemma StronglySorted_le_lt (l : list key) :
  NoDup l -> StronglySorted key_le l -> StronglySorted key_lt l.
Proof.
  induction l as [|h t IH]; intros Hnd Hs; [constructor|].
  inversion Hnd as [|? ? Hnotin Hnd']; subst.
  inversion Hs as [|? ? Ht Hh]; subst.
  constructor; [auto|].
  rewrite Forall_forall in *. intros x Hx.
  destruct (Hh x Hx) as [H|H]; [assumption | subst; contradiction].
Qed.

(** [sorted] on distinct keys is strictly ascending. *)
Lemma sorted_lt (l : list key) : NoDup l -> StronglySorted key_lt (sorted l).
Proof.
  intros Hnd. apply StronglySorted_le_lt; [|apply sorted_le].
  eapply Permutation_NoDup; [symmetry; apply sorted_perm | assumption].
Qed.

(** A strictly ascending list is determined by its elements. *)
Lemma StronglySorted_lt_unique (l1 l2 : list key) :
  StronglySorted key_lt l1 -> StronglySorted key_lt l2 ->
  (forall x, In x l1 <-> In x l2) -> l1 = l2.
Proof.
  revert l2. induction l1 as [|h1 t1 IH]; intros l2 H1 H2 Hmem.
  - destruct l2 as [|h2 t2]; [reflexivity|].
    exfalso. apply (proj2 (Hmem h2)). left; reflexivity.
  - destruct l2 as [|h2 t2].
    + exfalso. apply (proj1 (Hmem h1)). left; reflexivity.
    + inversion H1 as [|? ? Ht1 Hh1]; subst.
      inversion H2 as [|? ? Ht2 Hh2]; subst.
      rewrite Forall_forall in Hh1, Hh2.
      assert (Hhead : h1 = h2).
      { destruct (proj1 (Hmem h1) (or_introl eq_refl)) as [E|E]; [auto|].
        destruct (proj2 (Hmem h2) (or_introl eq_refl)) as [E'|E']; [auto|].
        exfalso. apply (key_lt_irrefl h1).
        eapply key_lt_trans; [apply Hh1; exact E' | apply Hh2; exact E]. }
      subst h2. f_equal. apply IH; [assumption | assumption |].
      intros x; split; intros Hx.
      * destruct (proj1 (Hmem x) (or_intror Hx)) as [E|E]; [|assumption].
        subst x. exfalso. apply (key_lt_irrefl h1). apply Hh1; assumption.
      * destruct (proj2 (Hmem x) (or_intror Hx)) as [E|E]; [|assumption].
        subst x. exfalso. apply (key_lt_irrefl h1). apply Hh2; assumption.
Qed.

Lemma sorted_perm_eq (l1 l2 : list key) :
  NoDup l1 -> Permutation l1 l2 -> sorted l1 = sorted l2.
Proof.
  intros Hnd Hp. apply StronglySorted_lt_unique.
  - apply sorted_lt; assumption.
  - apply sorted_lt. eapply Permutation_NoDup; eassumption.
  - intros x. split; intros Hx.
    + apply (Permutation_in _ (sorted_perm l1)) in Hx.
      apply (Permutation_in _ Hp) in Hx.
      apply (Permutation_in _ (Permutation_sym (sorted_perm l2))); assumption.
    + apply (Permutation_in _ (sorted_perm l2)) in Hx.
      apply (Permutation_in _ (Permutation_sym Hp)) in Hx.
      apply (Permutation_in _ (Permutation_sym (sorted_perm l1))); assumption.
Qed.

(** ** [to_string] *)

Lemma for_acc_cons {X A} (x : X) (l : list X) (acc : A) (body : A -> X -> M A)
    (m : SparseMatrix) :
  for_acc (x :: l) acc body m
  = match body acc x m with
    | (inl e, m') => (inl e, m')
    | (inr acc', m') => for_acc l acc' body m'
    end.
Proof. reflexivity. Qed.

(** The body of the loop of [to_string], for a key of the dict. *)
Lemma to_string_body (d : dict) (out : str) (r c v : Z) (m : SparseMatrix) :
  dict_find d (r, c) = Some v ->
  (r_text <- str_ r ;;
   c_text <- str_ c ;;
   v <- getitem_ d (r, c) ;;
   v_text <- str_ v ;;
   ret (out ++ lit "(" ++ r_text ++ lit ", " ++ c_text ++ lit ", "
        ++ v_text ++ lit ")" ++ ["010"%char])) m
  = if printable_entry ((r, c), v)
    then (inr (out ++ entry_line r c v), m)
    else (inl (ValueError, msg_builtin), m).
Proof.
  intros Hf. unfold bind, getitem_, printable_entry. cbn [fst snd].
  rewrite (str__eq r).
  destruct (printable r); [|reflexivity]. rewrite (str__eq c).
  destruct (printable c); [|reflexivity]. rewrite Hf. unfold ret.
  rewrite (str__eq v).
  destruct (printable v); reflexivity.
Qed.

(** The entries of a dict in the order of a list of its keys: the loop
    returns their lines when every number can be written, and raises
    otherwise. *)
Lemma to_string_loop (d : dict) (l : list key) (out : str) (m : SparseMatrix) :
  (forall k, In k l -> In k (keys d)) ->
  for_acc l out
    (fun output '(r, c) =>
       r_text <- str_ r ;;
       c_text <- str_ c ;;
       v <- getitem_ d (r, c) ;;
       v_text <- str_ v ;;
       ret (output ++ lit "(" ++ r_text ++ lit ", " ++ c_text ++ lit ", "
            ++ v_text ++ lit ")" ++ ["010"%char])) m
  = if forallb printable_entry (map (fun k => (k, dict_get d k 0)) l)
    then (inr (out ++ concat (map (fun e => entry_line (fst (fst e))
                                              (snd (fst e)) (snd e))
                                (map (fun k => (k, dict_get d k 0)) l))), m)
    else (inl (ValueError, msg_builtin), m).
Proof.
  revert out. induction l as [|[r c] l IH]; intros out Hin.
  - simpl. unfold ret. rewrite app_nil_r. reflexivity.
  - rewrite for_acc_cons.
    destruct (dict_find d (r, c)) as [v|] eqn:Hf.
    + rewrite (to_string_body d out r c v m Hf).
      cbn [map forallb concat fst snd]. unfold dict_get at 1 3. rewrite Hf.
      destruct (printable_entry ((r, c), v)); [|reflexivity].
      rewrite IH by (intros k Hk; apply Hin; right; exact Hk).
      cbn [andb]. rewrite <- app_assoc. reflexivity.
    + exfalso. apply dict_find_None in Hf. apply Hf, Hin. left; reflexivity.
Qed.

(** [to_string] returns the header and the entries in sorted key order when
    every number can be written, and raises [ValueError] otherwise. *)
Lemma to_string_eq (m : SparseMatrix) :
  to_string m
  = if printable (rows m) && printable (cols m)
       && forallb printable_entry
            (map (fun k => (k, dict_get (matrix_data m) k 0))
               (sorted (keys (matrix_data m))))
    then (inr (serialized (rows m) (cols m)
                 (map (fun k => (k, dict_get (matrix_data m) k 0))
                    (sorted (keys (matrix_data m))))), m)
    else (inl (ValueError, msg_builtin), m).
Proof.
  unfold to_string, bind at 1, get_self.
  unfold bind at 1. rewrite (str__eq (rows m)).
  destruct (printable (rows m)); [|reflexivity].
  unfold bind at 1. rewrite (str__eq (cols m)).
  destruct (printable (cols m)); [|reflexivity].
  rewrite to_string_loop.
  - cbn [andb]. unfold serialized. rewrite <- !app_assoc. reflexivity.
  - intros k Hk. apply (Permutation_in _ (sorted_perm _)); assumption.
Qed.

(** [to_string] leaves the instance as it was, whatever it returns. *)
Lemma to_string_pure (m : SparseMatrix) : snd (to_string m) = m.
Proof.
  rewrite to_string_eq.
  match goal with |- snd (if ?b then _ else _) = _ => destruct b end;
    reflexivity.
Qed.

(** The only exception [to_string] raises. *)
Lemma to_string_error (m : SparseMatrix) (e : exn) :
  fst (to_string m) = inl e -> e = (ValueError, msg_builtin).
Proof.
  rewrite to_string_eq.
  match goal with |- fst (if ?b then _ else _) = _ -> _ => destruct b end;
    cbn [fst]; intros H; [discriminate | inversion H; reflexivity].
Qed.

Lemma map_dict_get_keys (d : dict) :
  dict_ok d -> map (fun k => (k, dict_get d k 0)) (keys d) = d.
Proof.
  intros Hok. unfold keys. rewrite map_map.
  rewrite <- (map_id d) at 2. apply map_ext_in.
  intros [k v] Hin. simpl. unfold dict_get.
  rewrite (In_dict_find _ _ _ Hok Hin). reflexivity.
Qed.

Lemma sorted_entries_perm (d : dict) :
  dict_ok d ->
  Permutation (map (fun k => (k, dict_get d k 0)) (sorted (keys d))) d.
Proof.
  intros Hok. eapply Permutation_trans.
  - apply Permutation_map, sorted_perm.
  - rewrite (map_dict_get_keys d Hok). reflexivity.
Qed.

Lemma dict_get_perm (d1 d2 : dict) (k : key) :
  dict_ok d1 -> dict_ok d2 -> Permutation d1 d2 ->
  dict_get d1 k 0 = dict_get d2 k 0.
Proof.
  intros H1 H2 Hp. unfold dict_get.
  destruct (dict_find d1 k) as [v|] eqn:E1.
  - apply dict_find_In in E1. apply (Permutation_in _ Hp) in E1.
    rewrite (In_dict_find _ _ _ H2 E1). reflexivity.
  - destruct (dict_find d2 k) as [v|] eqn:E2; [|reflexivity].
    apply dict_find_In in E2. apply (Permutation_in _ (Permutation_sym Hp)) in E2.
    rewrite (In_dict_find _ _ _ H1 E2) in E1. discriminate.
Qed.

Lemma forallb_perm {X} (f : X -> bool) (l1 l2 : list X) :
  Permutation l1 l2 -> forallb f l1 = forallb f l2.
Proof.
  induction 1; cbn [forallb].
  - reflexivity.
  - rewrite IHPermutation; reflexivity.
  - destruct (f x), (f y); reflexivity.
  - congruence.
Qed.

(** [to_string] on an instance whose [matrix_data] is a dict. *)
Lemma to_string_dict (m : SparseMatrix) :
  dict_ok (matrix_data m) ->
  to_string m
  = if printable_matrix m
    then (inr (serialized (rows m) (cols m)
                 (map (fun k => (k, dict_get (matrix_data m) k 0))
                    (sorted (keys (matrix_data m))))), m)
    else (inl (ValueError, msg_builtin), m).
Proof.
  intros Hok. rewrite to_string_eq. unfold printable_matrix.
  rewrite (forallb_perm printable_entry _ _ (sorted_entries_perm _ Hok)).
  reflexivity.
Qed.

(** When [to_string] returns, it returns the text of the entries in sorted
    key order, and every number of the instance can be written. *)
Lemma to_string_text (m : SparseMatrix) (text : str) :
  dict_ok (matrix_data m) ->
  fst (to_string m) = inr text ->
  printable_matrix m = true
  /\ text = serialized (rows m) (cols m)
             (map (fun k => (k, dict_get (matrix_data m) k 0))
                (sorted (keys (matrix_data m)))).
Proof.
  intros Hok. rewrite (to_string_dict m Hok).
  destruct (printable_matrix m); cbn [fst]; intros H;
    [inversion H; auto | discriminate].
Qed.

(** ** Strings *)

Lemma lstrip_nonspace (c : ascii) (s : str) :
  isspace c = false -> lstrip (c :: s) = c :: s.
Proof. intros H; simpl; rewrite H; reflexivity. Qed.

Lemma rstrip_app_space (s : str) (c : ascii) :
  isspace c = true -> rstrip (s ++ [c]) = rstrip s.
Proof.
  intros H. unfold rstrip. rewrite rev_app_distr. simpl. rewrite H. reflexivity.
Qed.

Lemma rstrip_app_nonspace (s : str) (c : ascii) :
  isspace c = false -> rstrip (s ++ [c]) = s ++ [c].
Proof.
  intros H. unfold rstrip. rewrite rev_app_distr. simpl. rewrite H.
  simpl. rewrite rev_involutive. reflexivity.
Qed.

Lemma plain_nonspace (c : ascii) : plain c = true -> isspace c = false.
Proof.
  unfold plain. rewrite andb_true_iff, !negb_true_iff. tauto.
Qed.

Lemma plain_not_comma (s : str) :
  Forall (fun c => plain c = true) s -> ~ In ","%char s.
Proof.
  intros H Hin. rewrite Forall_forall in H. specialize (H _ Hin).
  discriminate.
Qed.

Lemma plain_not_newline (s : str) :
  Forall (fun c => plain c = true) s -> ~ In "010"%char s.
Proof.
  intros H Hin. rewrite Forall_forall in H. specialize (H _ Hin).
  discriminate.
Qed.

(** A string without white space is its own [strip]. *)
Lemma strip_plain (s : str) :
  Forall (fun c => plain c = true) s -> strip s = s.
Proof.
  intros H. unfold strip.
  assert (Hr : rstrip s = s).
  { unfold rstrip. destruct (rev s) as [|c t] eqn:E.
    - simpl. rewrite <- (rev_involutive s), E. reflexivity.
    - rewrite lstrip_nonspace; [rewrite <- E; apply rev_involutive|].
      apply plain_nonspace. rewrite Forall_forall in H. apply H.
      apply in_rev. rewrite E. left; reflexivity. }
  rewrite Hr. destruct s as [|c t]; [reflexivity|].
  apply lstrip_nonspace, plain_nonspace. inversion H; assumption.
Qed.

(** A line of text between two non-space characters, followed by white
    space. *)
Lemma strip_between (a b sp : ascii) (mid : str) :
  isspace a = false -> isspace b = false -> isspace sp = true ->
  strip (a :: mid ++ [b] ++ [sp]) = a :: mid ++ [b].
Proof.
  intros Ha Hb Hsp. unfold strip.
  replace (a :: mid ++ [b] ++ [sp]) with ((a :: mid ++ [b]) ++ [sp])
    by (simpl; rewrite <- app_assoc; reflexivity).
  rewrite rstrip_app_space by assumption.
  replace (a :: mid ++ [b]) with ((a :: mid) ++ [b]) by reflexivity.
  rewrite rstrip_app_nonspace by assumption.
  simpl. rewrite Ha. reflexivity.
Qed.

Lemma strip_plain_space (s : str) (sp : ascii) :
  Forall (fun c => plain c = true) s -> isspace sp = true ->
  strip (s ++ [sp]) = s.
Proof.
  intros H Hsp. unfold strip. rewrite rstrip_app_space by assumption.
  apply strip_plain; assumption.
Qed.

Lemma strip_space_plain (s : str) (sp : ascii) :
  Forall (fun c => plain c = true) s -> isspace sp = true ->
  strip (sp :: s) = s.
Proof.
  intros H Hsp. unfold strip.
  destruct s as [|c t] using rev_ind.
  - unfold rstrip. simpl. rewrite Hsp. reflexivity.
  - clear IHt. change (sp :: t ++ [c]) with ((sp :: t) ++ [c]).
    assert (Hc : isspace c = false).
    { apply plain_nonspace. rewrite Forall_forall in H. apply H.
      apply in_or_app. right. left. reflexivity. }
    rewrite rstrip_app_nonspace by assumption.
    simpl. rewrite Hsp.
    destruct t as [|c' t'].
    + simpl. rewrite Hc. reflexivity.
    + simpl. rewrite (plain_nonspace c'); [reflexivity|].
      inversion H; assumption.
Qed.

Lemma startswith_app (p s : str) : startswith (p ++ s) p = true.
Proof.
  induction p as [|c p IH]; simpl; [destruct s; reflexivity|].
  rewrite Ascii.eqb_refl, IH. reflexivity.
Qed.

Lemma endswith_app (s p : str) : endswith (s ++ p) p = true.
Proof. unfold endswith. rewrite rev_app_distr. apply startswith_app. Qed.

Lemma slice_from_app (p s : str) : slice_from (length p) (p ++ s) = s.
Proof.
  unfold slice_from. induction p as [|c p IH]; simpl; [reflexivity | exact IH].
Qed.

Lemma slice_1_m1_between (a b : ascii) (mid : str) :
  slice_1_m1 (a :: mid ++ [b]) = mid.
Proof. unfold slice_1_m1. simpl. apply removelast_last. Qed.

Lemma split_no_sep (sep : ascii) (s : str) :
  ~ In sep s -> split sep s = [s].
Proof.
  induction s as [|c s IH]; intros H; simpl; [reflexivity|].
  destruct (Ascii.eqb_spec c sep) as [->|Hne].
  - exfalso; apply H; left; reflexivity.
  - rewrite IH; [reflexivity|]. intros Hin; apply H; right; exact Hin.
Qed.

Lemma split_app (sep : ascii) (a rest : str) :
  ~ In sep a -> split sep (a ++ sep :: rest) = a :: split sep rest.
Proof.
  induction a as [|c a IH]; intros H; simpl.
  - rewrite Ascii.eqb_refl. reflexivity.
  - destruct (Ascii.eqb_spec c sep) as [->|Hne].
    + exfalso; apply H; left; reflexivity.
    + rewrite IH; [reflexivity|]. intros Hin; apply H; right; exact Hin.
Qed.

Lemma readlines_line (l rest : str) :
  ~ In "010"%char l ->
  readlines (l ++ "010"%char :: rest) = (l ++ ["010"%char]) :: readlines rest.
Proof.
  induction l as [|c l IH]; intros H; simpl.
  - reflexivity.
  - destruct (Ascii.eqb_spec c "010"%char) as [->|Hne].
    + exfalso; apply H; left; reflexivity.
    + rewrite IH; [reflexivity|]. intros Hin; apply H; right; exact Hin.
Qed.

(** *** [str(n)] and [int(s)] *)

Lemma uint_chars_plain (d : Decimal.uint) :
  Forall (fun c => plain c = true) (uint_chars d).
Proof.
  induction d; simpl; constructor; solve [reflexivity | assumption].
Qed.

Lemma str_of_int_plain (n : Z) :
  Forall (fun c => plain c = true) (str_of_int n).
Proof.
  destruct n; simpl.
  - constructor; [reflexivity | constructor].
  - apply uint_chars_plain.
  - constructor; [reflexivity | apply uint_chars_plain].
Qed.

(** The white space of [int] is white space of [strip]. *)
Lemma int_isspace_isspace (c : ascii) :
  int_isspace c = true -> isspace c = true.
Proof.
  unfold int_isspace, isspace. generalize (ord c) as n. intros n.
  rewrite !orb_true_iff, !andb_true_iff, !Z.leb_le, !Z.eqb_eq. lia.
Qed.

Lemma plain_int_nonspace (c : ascii) : plain c = true -> int_isspace c = false.
Proof.
  intros H. apply plain_nonspace in H.
  destruct (int_isspace c) eqn:E; [|reflexivity].
  apply int_isspace_isspace in E. congruence.
Qed.

Lemma int_strip_plain (s : str) :
  Forall (fun c => plain c = true) s -> int_strip s = s.
Proof.
  intros H. unfold int_strip.
  assert (Hr : rev (int_lstrip (rev s)) = s).
  { destruct (rev s) as [|c t] eqn:E.
    - simpl. rewrite <- (rev_involutive s), E. reflexivity.
    - cbn [int_lstrip]. rewrite plain_int_nonspace.
      + rewrite <- E. apply rev_involutive.
      + rewrite Forall_forall in H. apply H.
        apply in_rev. rewrite E. left; reflexivity. }
  rewrite <- (rev_involutive (int_lstrip (rev s))), Hr, rev_involutive.
  destruct s as [|c t]; [reflexivity|].
  cbn [int_lstrip]. rewrite plain_int_nonspace; [reflexivity|].
  inversion H; assumption.
Qed.

Lemma digit_value_range (c : ascii) (k : Z) :
  digit_value c = Some k -> 0 <= k <= 9.
Proof.
  unfold digit_value. generalize (ord c) as n. intros n.
  destruct ((48 <=? n) && (n <=? 57)) eqn:E; [|discriminate].
  apply andb_true_iff in E. rewrite !Z.leb_le in E.
  intros H; inversion H; lia.
Qed.

Lemma int_digits_digit (b : bool) (c : ascii) (k : Z) (s : str) (acc : Z) :
  digit_value c = Some k ->
  int_digits b (c :: s) acc = int_digits true s (10 * acc + k).
Proof. intros H. cbn [int_digits]. rewrite H. reflexivity. Qed.

(** A literal of [k] digits denotes a number below [10 ** k]. *)
Lemma int_digits_bounds (s : str) (b : bool) (acc v : Z) :
  0 <= acc -> int_digits b s acc = Some v ->
  acc * 10 ^ Z.of_nat (count_digits s) <= v
  < (acc + 1) * 10 ^ Z.of_nat (count_digits s).
Proof.
  revert b acc. induction s as [|c s IH]; intros b acc Hacc H.
  - cbn [int_digits] in H. destruct b; [|discriminate].
    inversion H; subst. cbn [count_digits]. simpl. lia.
  - cbn [int_digits count_digits] in *.
    destruct (digit_value c) as [k|] eqn:Ek.
    + apply digit_value_range in Ek.
      apply IH in H; [|lia].
      rewrite Nat2Z.inj_succ, Z.pow_succ_r by lia.
      assert (Hp : 0 < 10 ^ Z.of_nat (count_digits s))
        by (apply Z.pow_pos_nonneg; lia).
      nia.
    + destruct (Ascii.eqb c "_"%char && b); [|discriminate].
      apply IH in H; assumption.
Qed.

Lemma int_digits_acc (d : Decimal.uint) (p : positive) :
  int_digits true (uint_chars d) (Zpos p)
  = Some (Zpos (Pos.of_uint_acc d p)).
Proof.
  revert p. induction d; intros p; cbn [uint_chars Pos.of_uint_acc];
    [reflexivity|..];
    erewrite int_digits_digit by reflexivity;
    rewrite <- IHd; f_equal;
    try match goal with
        | |- context [ord ?c] =>
            let v := eval compute in (ord c) in change (ord c) with v
        end;
    lia.
Qed.

Lemma int_digits_zero (d : Decimal.uint) (b : bool) :
  d <> Decimal.Nil \/ b = true ->
  int_digits b (uint_chars d) 0 = Some (Z.of_N (Pos.of_uint d)).
Proof.
  revert b. induction d; intros b H; cbn [uint_chars Pos.of_uint];
    [destruct H as [H|H]; [congruence | subst; reflexivity] | ..];
    erewrite int_digits_digit by reflexivity;
    [apply IHd; right; reflexivity | ..];
    cbn [Z.of_N]; rewrite <- int_digits_acc; reflexivity.
Qed.

Lemma count_digits_uint_chars (d : Decimal.uint) :
  count_digits (uint_chars d) = length (uint_chars d).
Proof.
  induction d; [reflexivity|..]; cbn [uint_chars length];
    rewrite <- IHd; reflexivity.
Qed.

Lemma length_uint_chars (d : Decimal.uint) :
  length (uint_chars d) = Decimal.nb_digits d.
Proof. induction d; simpl; congruence. Qed.

(** The digits of a positive number, read back. *)
Lemma int_digits_to_uint (p : positive) :
  int_digits false (uint_chars (Pos.to_uint p)) 0 = Some (Zpos p).
Proof.
  rewrite int_digits_zero
    by (left; apply DecimalPos.Unsigned.to_uint_nonnil).
  rewrite DecimalPos.Unsigned.of_to. reflexivity.
Qed.

(** The notation of a positive number does not start with a zero. *)
Lemma to_uint_head (p : positive) (d : Decimal.uint) :
  Pos.to_uint p <> Decimal.D0 d.
Proof.
  intros E.
  pose proof (DecimalPos.Unsigned.of_to p) as Hof.
  rewrite E in Hof. cbn [Pos.of_uint] in Hof.
  pose proof (DecimalPos.Unsigned.to_of d) as Hto.
  rewrite Hof in Hto. cbn [N.to_uint] in Hto. rewrite E in Hto.
  destruct (Decimal.uint_eq_dec d Decimal.Nil) as [->|Hd].
  - apply (DecimalPos.Unsigned.to_uint_nonzero p). exact E.
  - pose proof (DecimalFacts.nb_digits_unorm d Hd) as Hle.
    rewrite <- Hto in Hle. cbn [Decimal.nb_digits] in Hle. lia.
Qed.

(** A number of [k] digits lies in [[10 ** (k - 1), 10 ** k)]. *)
Lemma digit_count_bounds (p : positive) :
  10 ^ (Z.of_nat (digit_count (Zpos p)) - 1) <= Zpos p
  < 10 ^ Z.of_nat (digit_count (Zpos p)).
Proof.
  cbn [digit_count]. split.
  - pose proof (to_uint_head p) as Hhead.
    pose proof (DecimalPos.Unsigned.of_to p) as Hof.
    pose proof (DecimalPos.Unsigned.to_uint_nonnil p) as Hnn.
    destruct (Pos.to_uint p) as [|d|d|d|d|d|d|d|d|d|d];
      [congruence | exfalso; apply (Hhead d); reflexivity | ..];
      cbn [Pos.of_uint] in Hof; inversion Hof as [Hp];
      cbn [uint_chars length];
      rewrite Nat2Z.inj_succ;
      replace (Z.succ (Z.of_nat (length (uint_chars d))) - 1)
        with (Z.of_nat (length (uint_chars d))) by lia;
      rewrite <- count_digits_uint_chars;
      match goal with
      | |- _ <= Zpos (Pos.of_uint_acc _ ?k) =>
          pose proof (int_digits_bounds (uint_chars d) true (Zpos k) _
                        ltac:(lia) (int_digits_acc d k)) as Hb
      end;
      assert (Hpow : 0 < 10 ^ Z.of_nat (count_digits (uint_chars d)))
        by (apply Z.pow_pos_nonneg; lia);
      nia.
  - rewrite <- count_digits_uint_chars.
    pose proof (int_digits_bounds _ false 0 _ ltac:(lia)
                  (int_digits_to_uint p)) as Hb.
    lia.
Qed.

(** [str(n)] returns exactly for the numbers below [10 ** 4300] in absolute
    value. *)
Lemma printable_iff (n : Z) :
  printable n = true <-> Z.abs n < 10 ^ Z.of_nat int_max_str_digits.
Proof.
  assert (Hpos : forall p,
            Nat.leb (digit_count (Zpos p)) int_max_str_digits = true
            <-> Zpos p < 10 ^ Z.of_nat int_max_str_digits).
  { intros p. pose proof (digit_count_bounds p) as [Hlo Hhi].
    rewrite Nat.leb_le. split; intros H.
    - eapply Z.lt_le_trans; [exact Hhi|].
      apply Z.pow_le_mono_r; lia.
    - destruct (Nat.le_gt_cases (digit_count (Zpos p)) int_max_str_digits)
        as [Hle|Hgt]; [exact Hle|].
      exfalso.
      assert (10 ^ Z.of_nat int_max_str_digits
              <= 10 ^ (Z.of_nat (digit_count (Zpos p)) - 1))
        by (apply Z.pow_le_mono_r; lia).
      lia. }
  unfold printable. destruct n as [|p|p].
  - split; intros _; [apply Z.pow_pos_nonneg; lia | reflexivity].
  - apply Hpos.
  - apply Hpos.
Qed.


Lemma printable_opp (n : Z) : printable (- n) = printable n.
Proof. destruct n; reflexivity. Qed.

(** [int(s)], opened: a literal after an optional sign. *)
Lemma int_inv (s : str) (n : Z) :
  Py.int s = Some n ->
  exists (ds : str) (v : Z),
    int_literal ds = Some v /\ (n = v \/ n = - v).
Proof.
  unfold Py.int. destruct (int_strip s) as [|c ds].
  - intros H. exists [], n. auto.
  - destruct c as [[] [] [] [] [] [] [] []]; intros H;
      first
        [ exists ds, n; split; [exact H | left; reflexivity]
        | eexists (_ :: ds), n; split; [exact H | left; reflexivity]
        | destruct (int_literal ds) as [v|] eqn:E; [|discriminate];
          inversion H; exists ds, v; split; [exact E | right; reflexivity] ].
Qed.

Lemma int_literal_bounds (ds : str) (v : Z) :
  int_literal ds = Some v -> 0 <= v < 10 ^ Z.of_nat int_max_str_digits.
Proof.
  unfold int_literal.
  destruct (int_digits false ds 0) as [w|] eqn:E; [|discriminate].
  destruct (Nat.leb (count_digits ds) int_max_str_digits) eqn:Hc;
    [|discriminate].
  intros H; inversion H; subst w.
  apply Nat.leb_le in Hc.
  pose proof (int_digits_bounds ds false 0 v ltac:(lia) E) as Hb.
  assert (10 ^ Z.of_nat (count_digits ds) <= 10 ^ Z.of_nat int_max_str_digits)
    by (apply Z.pow_le_mono_r; lia).
  lia.
Qed.

(** What [int] returns, [str] accepts. *)
Lemma int_printable (s : str) (n : Z) :
  Py.int s = Some n -> printable n = true.
Proof.
  intros H. apply int_inv in H as [ds [v [Hv Hn]]].
  apply int_literal_bounds in Hv. apply printable_iff.
  destruct Hn; subst n; lia.
Qed.

Lemma int_literal_to_uint (p : positive) :
  printable (Zpos p) = true ->
  int_literal (uint_chars (Pos.to_uint p)) = Some (Zpos p).
Proof.
  intros H. unfold int_literal.
  rewrite int_digits_to_uint, count_digits_uint_chars.
  unfold printable in H. cbn [digit_count] in H. rewrite H. reflexivity.
Qed.

(** [int(str(n)) == n], for a number [str] accepts. *)
Lemma int_str_of_int (n : Z) :
  printable n = true -> Py.int (str_of_int n) = Some n.
Proof.
  intros Hn. unfold Py.int.
  rewrite int_strip_plain by apply str_of_int_plain.
  destruct n as [|p|p]; [vm_compute; reflexivity| |].
  - cbn [str_of_int].
    pose proof (DecimalPos.Unsigned.to_uint_nonnil p) as Hnn.
    pose proof (int_literal_to_uint p Hn) as Hlit.
    destruct (Pos.to_uint p) as [|d|d|d|d|d|d|d|d|d|d] eqn:E;
      [congruence|..]; exact Hlit.
  - cbn [str_of_int].
    change (option_map Z.opp (int_literal (uint_chars (Pos.to_uint p)))
            = Some (Zneg p)).
    rewrite int_literal_to_uint by exact Hn. reflexivity.
Qed.

(** [int] at its edges: a separator is no white space for it although
    [strip] removes it, and a literal of 4301 digits is refused. *)
Example int_separator :
  Py.int ("031"%char :: lit "2") = None /\ strip ("031"%char :: lit "2") = lit "2".
Proof. split; reflexivity. Qed.

Example int_nbsp : Py.int ("160"%char :: lit "2") = Some 2.
Proof. reflexivity. Qed.

Example int_too_long :
  Py.int (repeat "1"%char 4301) = None
  /\ Py.int (repeat "1"%char 4300) <> None.
Proof. split; vm_compute; [reflexivity | discriminate]. Qed.

Lemma str_int_Some (n : Z) (s : str) :
  str_int n = Some s <-> printable n = true /\ s = str_of_int n.
Proof.
  unfold str_int. destruct (printable n); split.
  - intros H; inversion H; auto.
  - intros [_ ->]; reflexivity.
  - discriminate.
  - intros [H _]; discriminate.
Qed.

(** ** The loader, line by line *)

(** [load_entry] without the monad. *)
Lemma load_entry_eq (raw : str) (m : SparseMatrix) :
  load_entry raw m
  = match strip raw with
    | [] => (inr tt, m)
    | _ :: _ =>
        if negb (startswith (strip raw) (lit "(")
                 && endswith (strip raw) (lit ")")) then
          (inl (ValueError, msg_parens), m)
        else
          let parts := split ","%char (slice_1_m1 (strip raw)) in
          if negb (Nat.eqb (length parts) 3) then
            (inl (ValueError, msg_fields), m)
          else
            match Py.int (strip (nth 0 parts [])),
                  Py.int (strip (nth 1 parts [])),
                  Py.int (strip (nth 2 parts [])) with
            | Some row, Some col, Some value =>
                if negb (in_bounds m row col) then
                  (inl (entry_bounds_error m row col), m)
                else if negb (value =? 0) then
                  (inr tt,
                   mkSparseMatrix (rows m) (cols m)
                     (dict_setitem (matrix_data m) (row, col) value))
                else (inr tt, m)
            | _, _, _ => (inl (ValueError, msg_not_int), m)
            end
    end.
Proof.
  unfold load_entry. destruct (strip raw) as [|a line] eqn:Hline.
  - reflexivity.
  - destruct (negb (startswith (a :: line) (lit "(")
                    && endswith (a :: line) (lit ")"))); [reflexivity|].
    cbv zeta.
    destruct (negb (Nat.eqb (length (split ","%char (slice_1_m1 (a :: line))))
                      3)); [reflexivity|].
    generalize (split ","%char (slice_1_m1 (a :: line))). intros parts.
    unfold bind, try_except, int_, ret, raise, get_self, set_matrix_data.
    destruct (Py.int (strip (nth 0 parts []))) as [row|]; [|reflexivity].
    destruct (Py.int (strip (nth 1 parts []))) as [col|]; [|reflexivity].
    destruct (Py.int (strip (nth 2 parts []))) as [value|]; [|reflexivity].
    cbn [fst existsb exn_class_eqb orb].
    destruct (negb (in_bounds m row col)).
    + unfold entry_bounds_error, message_printable. rewrite (str__eq row).
      destruct (printable row); [|reflexivity]. rewrite (str__eq col).
      destruct (printable col); [|reflexivity]. rewrite (str__eq (rows m)).
      destruct (printable (rows m)); [|reflexivity].
      rewrite (str__eq (cols m)).
      destruct (printable (cols m)); reflexivity.
    + destruct (negb (value =? 0)); reflexivity.
Qed.

Lemma load_entry_blank (l : str) (m : SparseMatrix) :
  blank_line l -> load_entry l m = (inr tt, m).
Proof.
  unfold blank_line. intros H. rewrite load_entry_eq, H. reflexivity.
Qed.

Lemma startswith_paren (s : str) : startswith ("("%char :: s) (lit "(") = true.
Proof. destruct s; reflexivity. Qed.

Lemma split_three (f1 f2 f3 : str) :
  ~ In ","%char f1 -> ~ In ","%char f2 -> ~ In ","%char f3 ->
  split ","%char (f1 ++ ","%char :: f2 ++ ","%char :: f3) = [f1; f2; f3].
Proof.
  intros H1 H2 H3.
  rewrite split_app by assumption. rewrite split_app by assumption.
  rewrite split_no_sep by assumption. reflexivity.
Qed.

Lemma entry_line_strip (l f1 f2 f3 : str) :
  strip l = lit "(" ++ f1 ++ lit "," ++ f2 ++ lit "," ++ f3 ++ lit ")" ->
  strip l
  = "("%char :: (f1 ++ ","%char :: f2 ++ ","%char :: f3) ++ [")"%char].
Proof.
  intros ->. simpl. rewrite <- !app_assoc. simpl.
  rewrite <- !app_assoc. reflexivity.
Qed.

(** What [load_entry] does on a line of the entry form. *)
Lemma load_entry_entry (l : str) (row col value : Z) (m : SparseMatrix) :
  entry_line_of l row col value ->
  load_entry l m
  = if in_bounds m row col then
      if value =? 0 then (inr tt, m)
      else (inr tt,
            mkSparseMatrix (rows m) (cols m)
              (dict_setitem (matrix_data m) (row, col) value))
    else (inl (entry_bounds_error m row col), m).
Proof.
  intros [f1 [f2 [f3 [Hs [H1 [H2 [H3 [Hr [Hc Hv]]]]]]]]].
  apply entry_line_strip in Hs.
  rewrite load_entry_eq, Hs.
  rewrite startswith_paren.
  change ("("%char :: (f1 ++ ","%char :: f2 ++ ","%char :: f3) ++ [")"%char])
    with (("("%char :: f1 ++ ","%char :: f2 ++ ","%char :: f3) ++ lit ")")
    at 1.
  rewrite endswith_app.
  rewrite slice_1_m1_between, split_three by assumption.
  cbn [negb andb length Nat.eqb nth]. cbv zeta.
  rewrite Hr, Hc, Hv.
  destruct (in_bounds m row col); simpl; [|reflexivity].
  destruct (value =? 0); reflexivity.
Qed.

Lemma entry_line_not_blank (l : str) (row col value : Z) :
  entry_line_of l row col value -> ~ blank_line l.
Proof.
  intros [f1 [f2 [f3 [Hs _]]]] Hb. unfold blank_line in Hb.
  rewrite Hb in Hs. discriminate.
Qed.

Lemma split_nonempty (sep : ascii) (s : str) : split sep s <> [].
Proof.
  destruct s as [|c s]; simpl; [discriminate|].
  destruct (Ascii.eqb c sep); [discriminate|].
  destruct (split sep s); discriminate.
Qed.

Lemma join_split (sep : ascii) (s : str) : join sep (split sep s) = s.
Proof.
  induction s as [|c s IH]; [reflexivity|].
  simpl. pose proof (split_nonempty sep s) as Hne.
  destruct (Ascii.eqb_spec c sep) as [->|Hc].
  - destruct (split sep s) as [|p ps]; [congruence|].
    cbn [join app]. rewrite <- IH. reflexivity.
  - destruct (split sep s) as [|p ps]; [congruence|].
    rewrite <- IH. destruct ps; reflexivity.
Qed.

Lemma split_no_sep_parts (sep : ascii) (s : str) :
  Forall (fun p => ~ In sep p) (split sep s).
Proof.
  induction s as [|c s IH]; simpl.
  - constructor; [simpl; tauto | constructor].
  - destruct (Ascii.eqb_spec c sep) as [->|Hc].
    + constructor; [simpl; tauto | exact IH].
    + destruct (split sep s) as [|p ps].
      * constructor; [|constructor]. simpl. intros [H|[]]; congruence.
      * inversion IH as [|? ? Hp Hps]; subst.
        constructor; [|assumption]. simpl. intros [H|H]; [congruence | auto].
Qed.

Lemma split_three_inv (s f1 f2 f3 : str) :
  split ","%char s = [f1; f2; f3] ->
  s = f1 ++ ","%char :: f2 ++ ","%char :: f3
  /\ ~ In ","%char f1 /\ ~ In ","%char f2 /\ ~ In ","%char f3.
Proof.
  intros H. pose proof (join_split ","%char s) as Hj.
  pose proof (split_no_sep_parts ","%char s) as Hf.
  rewrite H in Hj, Hf. simpl in Hj.
  inversion Hf as [|? ? H1 Hf1]; subst.
  inversion Hf1 as [|? ? H2 Hf2]; subst.
  inversion Hf2 as [|? ? H3 _]; subst.
  repeat split; auto.
Qed.

Lemma paren_inv (s : str) :
  startswith s (lit "(") && endswith s (lit ")") = true ->
  exists mid, s = "("%char :: mid ++ [")"%char].
Proof.
  rewrite andb_true_iff. intros [Hs He].
  destruct s as [|a rest]; [discriminate|].
  change (Ascii.eqb "("%char a && startswith rest [] = true) in Hs.
  apply andb_true_iff in Hs as [Hs _]. apply Ascii.eqb_eq in Hs. subst a.
  unfold endswith in He.
  destruct rest as [|x rest'] using rev_ind; [discriminate He|].
  clear IHrest'. exists rest'.
  change ("("%char :: rest' ++ [x]) with (("("%char :: rest') ++ [x]) in He.
  rewrite rev_app_distr in He.
  change (Ascii.eqb ")"%char x
          && startswith (rev ("("%char :: rest')) [] = true) in He.
  apply andb_true_iff in He as [He _]. apply Ascii.eqb_eq in He. subst x.
  reflexivity.
Qed.

Lemma malformed_of_error (l : str) (m m' : SparseMatrix) (msg : message) :
  load_entry l m = (inl (ValueError, msg), m') ->
  kind_of (ValueError, msg) = Some MalformedEntry ->
  malformed_line l.
Proof.
  intros H Hk. split.
  - intros Hb. rewrite (load_entry_blank l m Hb) in H. discriminate.
  - intros r c v He. rewrite (load_entry_entry l r c v m He) in H.
    destruct (in_bounds m r c); [destruct (v =? 0); discriminate|].
    unfold entry_bounds_error in H.
    destruct (message_printable m r c); inversion H; subst; discriminate.
Qed.

(** Every line is blank, of the entry form, or malformed, and a malformed
    line makes [load_entry] raise one of the three format messages. *)
Lemma load_entry_cases (l : str) (m : SparseMatrix) :
  blank_line l
  \/ (exists row col value, entry_line_of l row col value)
  \/ (malformed_line l
      /\ exists msg, load_entry l m = (inl (ValueError, msg), m)
                     /\ kind_of (ValueError, msg) = Some MalformedEntry).
Proof.
  pose proof (load_entry_eq l m) as E.
  destruct (strip l) as [|a line] eqn:Hs; [left; exact Hs|].
  right.
  destruct (startswith (a :: line) (lit "(") && endswith (a :: line) (lit ")"))
    eqn:Hp; cbn [negb] in E.
  2:{ right. split; [eapply malformed_of_error; [exact E | reflexivity]|].
      exists msg_parens. split; [exact E | reflexivity]. }
  cbv zeta in E.
  destruct (paren_inv _ Hp) as [mid Hmid]. rewrite Hmid in E.
  rewrite slice_1_m1_between in E.
  destruct (split ","%char mid) as [|f1 [|f2 [|f3 [|f4 ps]]]] eqn:Hsplit;
    cbn [length Nat.eqb negb] in E;
    try (right; split; [eapply malformed_of_error; [exact E | reflexivity]|];
         exists msg_fields; split; [exact E | reflexivity]).
  cbn [nth] in E.
  destruct (Py.int (strip f1)) as [row|] eqn:H1.
  2:{ right. split; [eapply malformed_of_error; [exact E | reflexivity]|].
      exists msg_not_int. split; [exact E | reflexivity]. }
  destruct (Py.int (strip f2)) as [col|] eqn:H2.
  2:{ right. split; [eapply malformed_of_error; [exact E | reflexivity]|].
      exists msg_not_int. split; [exact E | reflexivity]. }
  destruct (Py.int (strip f3)) as [value|] eqn:H3.
  2:{ right. split; [eapply malformed_of_error; [exact E | reflexivity]|].
      exists msg_not_int. split; [exact E | reflexivity]. }
  left. exists row, col, value, f1, f2, f3.
  destruct (split_three_inv _ _ _ _ Hsplit) as [Hm [N1 [N2 N3]]].
  split; [|tauto].
  rewrite Hs, Hmid, Hm. simpl. rewrite <- !app_assoc. simpl.
  rewrite <- !app_assoc. reflexivity.
Qed.

(** The numbers of an entry line can be written, so the bounds check of the
    loader raises its own message on an instance whose dimensions can. *)
Lemma entry_line_printable (l : str) (row col value : Z) :
  entry_line_of l row col value ->
  printable row = true /\ printable col = true /\ printable value = true.
Proof.
  intros [f1 [f2 [f3 [_ [_ [_ [_ [Hr [Hc Hv]]]]]]]]].
  repeat split; eapply int_printable; eassumption.
Qed.

Lemma entry_bounds_error_line (l : str) (row col value : Z)
    (m : SparseMatrix) :
  entry_line_of l row col value ->
  printable (rows m) = true -> printable (cols m) = true ->
  entry_bounds_error m row col
  = (ValueError, msg_entry_bounds row col (rows m) (cols m)).
Proof.
  intros He Hr Hc. destruct (entry_line_printable _ _ _ _ He) as [H1 [H2 _]].
  unfold entry_bounds_error, message_printable.
  rewrite H1, H2, Hr, Hc. reflexivity.
Qed.

(** A line has at most one reading as an entry. *)
Lemma entry_line_of_fun (l : str) (r c v r' c' v' : Z) :
  entry_line_of l r c v -> entry_line_of l r' c' v' ->
  r = r' /\ c = c' /\ v = v'.
Proof.
  intros [f1 [f2 [f3 [Hs [H1 [H2 [H3 [Hr [Hc Hv]]]]]]]]]
         [g1 [g2 [g3 [Hs' [G1 [G2 [G3 [Hr' [Hc' Hv']]]]]]]]].
  apply entry_line_strip in Hs, Hs'. rewrite Hs in Hs'.
  inversion Hs' as [Heq]. apply app_inj_tail in Heq as [Heq _].
  pose proof (split_three f1 f2 f3 H1 H2 H3) as S1.
  pose proof (split_three g1 g2 g3 G1 G2 G3) as S2.
  rewrite Heq, S2 in S1. inversion S1; subst.
  rewrite Hr in Hr'. rewrite Hc in Hc'. rewrite Hv in Hv'.
  inversion Hr'; inversion Hc'; inversion Hv'. auto.
Qed.

Lemma load_entry_ok_inv (l : str) (m m' : SparseMatrix) :
  load_entry l m = (inr tt, m') ->
  (blank_line l /\ m' = m)
  \/ exists row col value,
       entry_line_of l row col value
       /\ in_bounds m row col = true
       /\ m' = if value =? 0 then m
               else mkSparseMatrix (rows m) (cols m)
                      (dict_setitem (matrix_data m) (row, col) value).
Proof.
  intros H. destruct (load_entry_cases l m) as [Hb|[[r [c [v He]]]|[_ [msg [E _]]]]].
  - left. rewrite (load_entry_blank l m Hb) in H. inversion H. auto.
  - right. exists r, c, v. rewrite (load_entry_entry l r c v m He) in H.
    destruct (in_bounds m r c); [|discriminate].
    split; [exact He|]. split; [reflexivity|].
    destruct (v =? 0); inversion H; reflexivity.
  - rewrite E in H. discriminate.
Qed.

Lemma load_entry_err_inv (l : str) (m m' : SparseMatrix) (e : exn) :
  load_entry l m = (inl e, m') ->
  m' = m
  /\ ((malformed_line l /\ kind_of e = Some MalformedEntry)
      \/ exists row col value,
           entry_line_of l row col value
           /\ in_bounds m row col = false
           /\ e = entry_bounds_error m row col).
Proof.
  intros H. destruct (load_entry_cases l m) as [Hb|[[r [c [v He]]]|[Hm [msg [E Hk]]]]].
  - rewrite (load_entry_blank l m Hb) in H. discriminate.
  - rewrite (load_entry_entry l r c v m He) in H.
    destruct (in_bounds m r c) eqn:Hin; [destruct (v =? 0); discriminate|].
    inversion H; subst. split; [reflexivity|]. right. exists r, c, v. auto.
  - rewrite E in H. inversion H; subst. auto.
Qed.

Lemma load_entry_dims (l : str) (m m' : SparseMatrix) (r : exn + unit) :
  load_entry l m = (r, m') -> rows m' = rows m /\ cols m' = cols m.
Proof.
  destruct r as [e|[]]; intros H.
  - apply load_entry_err_inv in H as [-> _]. auto.
  - apply load_entry_ok_inv in H as [[_ ->]|[r [c [v [_ [_ ->]]]]]]; [auto|].
    destruct (v =? 0); auto.
Qed.

Lemma load_entry_accepted (l : str) (m : SparseMatrix) :
  accepted_line (rows m) (cols m) l ->
  exists m', load_entry l m = (inr tt, m').
Proof.
  intros [Hb|[r [c [v [He Hin]]]]].
  - exists m. apply load_entry_blank; assumption.
  - rewrite (load_entry_entry l r c v m He).
    rewrite (proj2 (in_bounds_iff m r c) Hin).
    destruct (v =? 0); eexists; reflexivity.
Qed.

(** A line the loader goes past keeps the instance a matrix. *)
Lemma load_entry_matrix (l : str) (m m' : SparseMatrix) :
  matrix m -> load_entry l m = (inr tt, m') -> matrix m'.
Proof.
  intros Hm H.
  apply load_entry_ok_inv in H as [[_ ->]|[r [c [v [_ [Hin ->]]]]]];
    [assumption|].
  destruct (Z.eqb_spec v 0) as [|Hv]; [assumption|].
  destruct Hm as [Hok [Hr [Hc Hall]]].
  split; [apply dict_ok_setitem; assumption|].
  split; [exact Hr|]. split; [exact Hc|]. simpl.
  apply Forall_forall. intros e He. apply In_setitem in He as [->|He].
  - apply in_bounds_iff in Hin. unfold entry_ok; simpl. tauto.
  - rewrite Forall_forall in Hall. apply (Hall e He).
Qed.

Lemma for_each_app {X} (a b : list X) (body : X -> M unit) (m : SparseMatrix) :
  for_each (a ++ b) body m
  = match for_each a body m with
    | (inl e, m') => (inl e, m')
    | (inr _, m') => for_each b body m'
    end.
Proof.
  revert m. induction a as [|x a IH]; intros m; [reflexivity|].
  cbn [app for_each]. unfold bind.
  destruct (body x m) as [[e|[]] m1]; [reflexivity | apply IH].
Qed.

Lemma for_each_cons {X} (x : X) (l : list X) (body : X -> M unit)
    (m : SparseMatrix) :
  for_each (x :: l) body m
  = match body x m with
    | (inl e, m') => (inl e, m')
    | (inr _, m') => for_each l body m'
    end.
Proof. reflexivity. Qed.

(** The loop over the entry lines goes past accepted lines. *)
Lemma load_loop_accepted (ls : list str) (m : SparseMatrix) :
  Forall (accepted_line (rows m) (cols m)) ls ->
  exists m',
    for_each ls load_entry m = (inr tt, m')
    /\ rows m' = rows m /\ cols m' = cols m.
Proof.
  revert m. induction ls as [|l ls IH]; intros m Hall.
  - exists m. repeat split.
  - inversion Hall as [|? ? Hl Hls]; subst.
    destruct (load_entry_accepted l m Hl) as [m1 H1].
    destruct (load_entry_dims l m m1 _ H1) as [Hr Hc].
    rewrite <- Hr, <- Hc in Hls.
    destruct (IH m1 Hls) as [m' [H' [Hr' Hc']]].
    exists m'. rewrite for_each_cons, H1.
    split; [exact H'|]. split; congruence.
Qed.

(** When the loop returns, every line was accepted and the instance is
    still a matrix of the same dimensions. *)
Lemma load_loop_ok_inv (ls : list str) (m m' : SparseMatrix) :
  for_each ls load_entry m = (inr tt, m') ->
  rows m' = rows m /\ cols m' = cols m
  /\ Forall (accepted_line (rows m) (cols m)) ls
  /\ (matrix m -> matrix m').
Proof.
  revert m. induction ls as [|l ls IH]; intros m H.
  - inversion H; subst. split; [reflexivity|]. split; [reflexivity|].
    split; [constructor | auto].
  - rewrite for_each_cons in H.
    destruct (load_entry l m) as [[e|[]] m1] eqn:H1; [discriminate|].
    destruct (load_entry_dims l m m1 _ H1) as [Hr Hc].
    destruct (IH m1 H) as [Hr' [Hc' [Hall Hm]]].
    split; [congruence|]. split; [congruence|]. split.
    + rewrite Hr, Hc in Hall. constructor; [|exact Hall].
      apply load_entry_ok_inv in H1 as [[Hb _]|[r [c [v [He [Hin _]]]]]].
      * left; exact Hb.
      * right. exists r, c, v. apply in_bounds_iff in Hin. tauto.
    + intros Hmat. apply Hm. eapply load_entry_matrix; eassumption.
Qed.

(** When the loop raises, it raises at the first line that is not accepted,
    with the kind of that line's defect. *)
Lemma load_loop_err_inv (ls : list str) (m m' : SparseMatrix) (e : exn) :
  for_each ls load_entry m = (inl e, m') ->
  exists pre bad post,
    ls = pre ++ bad :: post
    /\ Forall (accepted_line (rows m) (cols m)) pre
    /\ ((malformed_line bad /\ kind_of e = Some MalformedEntry)
        \/ exists row col value,
             entry_line_of bad row col value
             /\ ~ (0 <= row < rows m /\ 0 <= col < cols m)
             /\ e = entry_bounds_error m row col).
Proof.
  revert m. induction ls as [|l ls IH]; intros m H; [discriminate|].
  rewrite for_each_cons in H.
  destruct (load_entry l m) as [[e1|[]] m1] eqn:H1.
  - inversion H; subst. exists [], l, ls.
    split; [reflexivity|]. split; [constructor|].
    apply load_entry_err_inv in H1 as [_ [Hbad|[r [c [v [He [Hin ->]]]]]]].
    + left; exact Hbad.
    + right. exists r, c, v. apply in_bounds_false_iff in Hin. auto.
  - destruct (load_entry_dims l m m1 _ H1) as [Hr Hc].
    destruct (IH m1 H) as [pre [bad [post [-> [Hpre Hbad]]]]].
    unfold entry_bounds_error, message_printable in Hbad.
    rewrite Hr, Hc in Hpre, Hbad.
    exists (l :: pre), bad, post.
    split; [reflexivity|]. split; [|exact Hbad].
    constructor; [|exact Hpre].
    apply load_entry_ok_inv in H1 as [[Hb _]|[r [c [v [He [Hin _]]]]]].
    + left; exact Hb.
    + right. exists r, c, v. apply in_bounds_iff in Hin. tauto.
Qed.

(** ** The loader: header and whole file *)

Lemma startswith_inv (s p : str) :
  startswith s p = true -> s = p ++ slice_from (length p) s.
Proof.
  unfold slice_from. revert s. induction p as [|a p IH]; intros s H.
  - reflexivity.
  - destruct s as [|b s]; [discriminate|].
    change (Ascii.eqb a b && startswith s p = true) in H.
    apply andb_true_iff in H as [Hab Hs]. apply Ascii.eqb_eq in Hab. subst b.
    simpl. f_equal. apply IH; assumption.
Qed.

(** [load_header] without the monad. *)
Lemma load_header_eq (lines : list str) (m : SparseMatrix) :
  load_header lines m
  = match lines with
    | l0 :: l1 :: _ =>
        if negb (startswith (strip l0) (lit "rows="))
           || negb (startswith (strip l1) (lit "cols=")) then
          (inl (ValueError, msg_header), m)
        else
          match Py.int (slice_from (length (lit "rows=")) (strip l0)) with
          | None => (inl (ValueError, msg_header), m)
          | Some r =>
              match Py.int (slice_from (length (lit "cols=")) (strip l1)) with
              | None =>
                  (inl (ValueError, msg_header),
                   mkSparseMatrix r (cols m) (matrix_data m))
              | Some c =>
                  if (r <=? 0) || (c <=? 0) then
                    (inl (ValueError, msg_header),
                     mkSparseMatrix r c (matrix_data m))
                  else (inr tt, mkSparseMatrix r c (matrix_data m))
              end
          end
    | _ => (inl (ValueError, msg_header), m)
    end.
Proof.
  unfold load_header, try_except, bind, index_, ret, raise.
  destruct lines as [|l0 [|l1 rest]]; [reflexivity | reflexivity|].
  cbn [nth_error].
  destruct (negb (startswith (strip l0) (lit "rows="))
            || negb (startswith (strip l1) (lit "cols="))); [reflexivity|].
  unfold int_, set_rows, set_cols, get_self, ret, raise.
  destruct (Py.int (slice_from (length (lit "rows=")) (strip l0))) as [r|];
    [|reflexivity].
  cbn [rows cols matrix_data].
  destruct (Py.int (slice_from (length (lit "cols=")) (strip l1))) as [c|];
    [|reflexivity].
  cbn [rows cols matrix_data].
  destruct ((r <=? 0) || (c <=? 0)); reflexivity.
Qed.

Lemma load_header_ok (lines : list str) (nrows ncols : Z) (m : SparseMatrix) :
  header_ok lines nrows ncols ->
  load_header lines m
  = (inr tt, mkSparseMatrix nrows ncols (matrix_data m)).
Proof.
  intros [l0 [l1 [rest [a [b [-> [H0 [H1 [Ha [Hb [Hr Hc]]]]]]]]]]].
  rewrite load_header_eq, H0, H1.
  rewrite !startswith_app, !slice_from_app, Ha, Hb. cbn [negb orb].
  destruct (Z.leb_spec nrows 0); [lia|].
  destruct (Z.leb_spec ncols 0); [lia|]. reflexivity.
Qed.

(** [load_header] returns exactly on a good header, and raises nothing but
    the header message. *)
Lemma load_header_inv (lines : list str) (m m' : SparseMatrix)
    (r : exn + unit) :
  load_header lines m = (r, m') ->
  (r = inr tt
   /\ exists nrows ncols,
        header_ok lines nrows ncols
        /\ m' = mkSparseMatrix nrows ncols (matrix_data m))
  \/ (r = inl (ValueError, msg_header)
      /\ forall nrows ncols, ~ header_ok lines nrows ncols).
Proof.
  intros H.
  assert (Hbad : r = inl (ValueError, msg_header) ->
                 forall nrows ncols, ~ header_ok lines nrows ncols).
  { intros -> nR nC Hok. rewrite (load_header_ok lines nR nC m Hok) in H.
    discriminate. }
  rewrite load_header_eq in H.
  destruct lines as [|l0 [|l1 rest]];
    try (inversion H; subst; right; split; [reflexivity | auto]).
  destruct (startswith (strip l0) (lit "rows=")) eqn:S0;
    [|inversion H; subst; right; split; [reflexivity | auto]].
  destruct (startswith (strip l1) (lit "cols=")) eqn:S1;
    [|inversion H; subst; right; split; [reflexivity | auto]].
  cbn [negb orb] in H.
  destruct (Py.int (slice_from (length (lit "rows=")) (strip l0)))
    as [nR|] eqn:I0;
    [|inversion H; subst; right; split; [reflexivity | auto]].
  destruct (Py.int (slice_from (length (lit "cols=")) (strip l1)))
    as [nC|] eqn:I1;
    [|inversion H; subst; right; split; [reflexivity | auto]].
  destruct (Z.leb_spec nR 0);
    [inversion H; subst; right; split; [reflexivity | auto]|].
  destruct (Z.leb_spec nC 0);
    [inversion H; subst; right; split; [reflexivity | auto]|].
  cbn [orb] in H. inversion H; subst. left. split; [reflexivity|].
  exists nR, nC. split; [|reflexivity].
  exists l0, l1, rest, (slice_from (length (lit "rows=")) (strip l0)),
    (slice_from (length (lit "cols=")) (strip l1)).
  split; [reflexivity|].
  split; [apply startswith_inv; assumption|].
  split; [apply startswith_inv; assumption|]. auto.
Qed.

(** The dimensions of a good header can be written. *)
Lemma header_ok_printable (lines : list str) (nrows ncols : Z) :
  header_ok lines nrows ncols ->
  printable nrows = true /\ printable ncols = true.
Proof.
  intros [l0 [l1 [rest [a [b [_ [_ [_ [Ha [Hb _]]]]]]]]]].
  split; eapply int_printable; eassumption.
Qed.

Lemma header_ok_fun (lines : list str) (r c r' c' : Z) :
  header_ok lines r c -> header_ok lines r' c' -> r = r' /\ c = c'.
Proof.
  intros H H'.
  pose proof (load_header_ok lines r c (mkSparseMatrix 0 0 []) H) as E.
  rewrite (load_header_ok lines r' c' (mkSparseMatrix 0 0 []) H') in E.
  inversion E; auto.
Qed.

(** [__init__] on a file that exists. *)
Lemma init_file (fs : FileSystem) (path text : str) (numRows numCols : Z) :
  path <> [] -> fs path = Text text ->
  __init__ fs (Some path) numRows numCols
  = returning (load_header (readlines text) ;;
               for_each (skipn 2 (readlines text)) load_entry)
      (mkSparseMatrix numRows numCols []).
Proof.
  intros Hp Hfs. destruct path as [|c p]; [congruence|].
  unfold __init__, _load_from_file. rewrite Hfs. reflexivity.
Qed.

Lemma init_missing (fs : FileSystem) (path : str) (numRows numCols : Z) :
  path <> [] -> fs path = Missing ->
  __init__ fs (Some path) numRows numCols
  = inl (FileNotFoundError, msg_not_found path).
Proof.
  intros Hp Hfs. destruct path as [|c p]; [congruence|].
  unfold __init__, _load_from_file, returning, raise. rewrite Hfs. reflexivity.
Qed.

Lemma init_unreadable (fs : FileSystem) (path : str) (c : exn_class)
    (numRows numCols : Z) :
  path <> [] -> fs path = Unreadable c ->
  __init__ fs (Some path) numRows numCols = inl (c, msg_builtin).
Proof.
  intros Hp Hfs. destruct path as [|ch p]; [congruence|].
  unfold __init__, _load_from_file, returning, raise. rewrite Hfs. reflexivity.
Qed.

(** The three outcomes of loading a file that exists. *)
Lemma init_file_cases (fs : FileSystem) (path text : str) (numRows numCols : Z) :
  path <> [] -> fs path = Text text ->
  (__init__ fs (Some path) numRows numCols = inl (ValueError, msg_header)
   /\ forall nrows ncols, ~ header_ok (readlines text) nrows ncols)
  \/ exists nrows ncols,
       header_ok (readlines text) nrows ncols
       /\ exists (r : exn + unit) (m : SparseMatrix),
            for_each (skipn 2 (readlines text)) load_entry
              (mkSparseMatrix nrows ncols []) = (r, m)
            /\ __init__ fs (Some path) numRows numCols
               = match r with inl e => inl e | inr _ => inr m end.
Proof.
  intros Hp Hfs. rewrite (init_file fs path text numRows numCols Hp Hfs).
  unfold returning, bind.
  destruct (load_header (readlines text) (mkSparseMatrix numRows numCols []))
    as [r m1] eqn:Hh.
  apply load_header_inv in Hh as [[-> [nR [nC [Hok ->]]]]|[-> Hbad]].
  - right. exists nR, nC. split; [exact Hok|]. cbn [matrix_data].
    destruct (for_each (skipn 2 (readlines text)) load_entry
                (mkSparseMatrix nR nC [])) as [r m] eqn:Hl.
    exists r, m. split; [reflexivity|]. destruct r as [e|[]]; reflexivity.
  - left. split; [reflexivity | exact Hbad].
Qed.

(** ** Reading back what [to_string] wrote *)

Lemma lit_rows_plain : Forall (fun c => plain c = true) (lit "rows=").
Proof. repeat constructor. Qed.

Lemma lit_cols_plain : Forall (fun c => plain c = true) (lit "cols=").
Proof. repeat constructor. Qed.

Lemma header_line_strip (p : str) (n : Z) :
  Forall (fun c => plain c = true) p ->
  strip (p ++ str_of_int n ++ ["010"%char]) = p ++ str_of_int n.
Proof.
  intros Hp. rewrite app_assoc. apply strip_plain_space; [|reflexivity].
  apply Forall_app. split; [exact Hp | apply str_of_int_plain].
Qed.

Lemma header_line_no_newline (p : str) (n : Z) :
  Forall (fun c => plain c = true) p -> ~ In "010"%char (p ++ str_of_int n).
Proof.
  intros Hp. apply plain_not_newline, Forall_app.
  split; [exact Hp | apply str_of_int_plain].
Qed.

(** The text of an entry line. *)
Lemma entry_line_body (r c v : Z) :
  entry_line r c v
  = "("%char :: entry_fields r c v ++ [")"%char] ++ ["010"%char].
Proof.
  unfold entry_line, entry_fields. simpl. rewrite <- !app_assoc. simpl.
  rewrite <- !app_assoc. reflexivity.
Qed.

Lemma entry_line_app (r c v : Z) (rest : str) :
  entry_line r c v ++ rest
  = ("("%char :: entry_fields r c v ++ [")"%char]) ++ "010"%char :: rest.
Proof.
  rewrite entry_line_body. simpl. rewrite <- !app_assoc. reflexivity.
Qed.

Lemma entry_line_no_newline (r c v : Z) :
  ~ In "010"%char ("("%char :: entry_fields r c v ++ [")"%char]).
Proof.
  pose proof (plain_not_newline _ (str_of_int_plain r)) as Hr.
  pose proof (plain_not_newline _ (str_of_int_plain c)) as Hc.
  pose proof (plain_not_newline _ (str_of_int_plain v)) as Hv.
  unfold entry_fields. intros [H|H]; [discriminate|].
  apply in_app_or in H as [H|H].
  - apply in_app_or in H as [H|[H|[H|H]]]; try discriminate; auto.
    apply in_app_or in H as [H|[H|[H|H]]]; try discriminate; auto.
  - destruct H as [H|[]]; discriminate.
Qed.

Lemma not_in_space_plain (s : str) :
  Forall (fun c => plain c = true) s -> ~ In ","%char (" "%char :: s).
Proof.
  intros Hs [H|H]; [discriminate|]. exact (plain_not_comma s Hs H).
Qed.

(** [to_string] writes entry lines the loader reads back as the entry. *)
Lemma printable_entry_iff (r c v : Z) :
  printable_entry ((r, c), v) = true
  <-> printable r = true /\ printable c = true /\ printable v = true.
Proof.
  unfold printable_entry. cbn [fst snd]. rewrite !andb_true_iff. tauto.
Qed.

Lemma entry_line_of_entry_line (r c v : Z) :
  printable_entry ((r, c), v) = true ->
  entry_line_of (entry_line r c v) r c v.
Proof.
  intros Hp. apply printable_entry_iff in Hp as [Hpr [Hpc Hpv]].
  exists (str_of_int r), (" "%char :: str_of_int c), (" "%char :: str_of_int v).
  split.
  { rewrite entry_line_body.
    rewrite (strip_between "("%char ")"%char "010"%char) by reflexivity.
    unfold entry_fields. simpl. repeat (rewrite <- app_assoc; simpl).
    reflexivity. }
  split; [apply plain_not_comma, str_of_int_plain|].
  split; [apply not_in_space_plain, str_of_int_plain|].
  split; [apply not_in_space_plain, str_of_int_plain|].
  rewrite strip_plain by apply str_of_int_plain.
  rewrite !strip_space_plain by (try apply str_of_int_plain; reflexivity).
  rewrite !int_str_of_int by assumption. auto.
Qed.

Lemma readlines_entry_lines (es : list (key * Z)) :
  readlines
    (concat (map (fun e => entry_line (fst (fst e)) (snd (fst e)) (snd e)) es))
  = map (fun e => entry_line (fst (fst e)) (snd (fst e)) (snd e)) es.
Proof.
  induction es as [|[[r c] v] es IH]; [reflexivity|].
  cbn [map concat fst snd]. rewrite entry_line_app.
  rewrite readlines_line by apply entry_line_no_newline.
  rewrite IH, entry_line_body. simpl. rewrite <- !app_assoc. reflexivity.
Qed.

Lemma readlines_serialized (nrows ncols : Z) (es : list (key * Z)) :
  readlines (serialized nrows ncols es)
  = (lit "rows=" ++ str_of_int nrows ++ ["010"%char])
    :: (lit "cols=" ++ str_of_int ncols ++ ["010"%char])
    :: map (fun e => entry_line (fst (fst e)) (snd (fst e)) (snd e)) es.
Proof.
  unfold serialized.
  replace (lit "rows=" ++ str_of_int nrows ++ ["010"%char]
           ++ lit "cols=" ++ str_of_int ncols ++ ["010"%char]
           ++ concat (map (fun e => entry_line (fst (fst e)) (snd (fst e))
                                      (snd e)) es))
    with ((lit "rows=" ++ str_of_int nrows)
          ++ "010"%char
             :: (lit "cols=" ++ str_of_int ncols)
                ++ "010"%char
                   :: concat (map (fun e => entry_line (fst (fst e))
                                              (snd (fst e)) (snd e)) es))
    by (rewrite <- !app_assoc; reflexivity).
  rewrite readlines_line by apply header_line_no_newline, lit_rows_plain.
  rewrite readlines_line by apply header_line_no_newline, lit_cols_plain.
  rewrite readlines_entry_lines, <- !app_assoc. reflexivity.
Qed.

Lemma header_ok_serialized (nrows ncols : Z) (es : list (key * Z)) :
  0 < nrows -> 0 < ncols ->
  printable nrows = true -> printable ncols = true ->
  header_ok (readlines (serialized nrows ncols es)) nrows ncols.
Proof.
  intros Hr Hc Hpr Hpc. rewrite readlines_serialized.
  eexists _, _, _, (str_of_int nrows), (str_of_int ncols).
  split; [reflexivity|].
  split; [apply header_line_strip, lit_rows_plain|].
  split; [apply header_line_strip, lit_cols_plain|].
  rewrite !int_str_of_int by assumption. auto.
Qed.

Lemma dict_setitem_new (d : dict) (k : key) (v : Z) :
  ~ In k (keys d) -> dict_setitem d k v = d ++ [(k, v)].
Proof.
  induction d as [|[k0 v0] d IH]; intros H; simpl; [reflexivity|].
  simpl in H. key_cases k k0; [exfalso; auto|].
  rewrite IH by tauto. reflexivity.
Qed.

(** Loading the entry lines of distinct, in-bounds, non-zero entries appends
    exactly these entries. *)
Lemma load_loop_entry_lines (es : list (key * Z)) :
  forall m,
    NoDup (keys (matrix_data m ++ es)) ->
    Forall (entry_ok m) es ->
    forallb printable_entry es = true ->
    for_each (map (fun e => entry_line (fst (fst e)) (snd (fst e)) (snd e)) es)
      load_entry m
    = (inr tt, mkSparseMatrix (rows m) (cols m) (matrix_data m ++ es)).
Proof.
  induction es as [|[[r c] v] es IH]; intros m Hnd Hall Hpr.
  - simpl. unfold ret. rewrite app_nil_r. destruct m; reflexivity.
  - inversion Hall as [|? ? [Hv [Hr Hc]] Hall']; subst. simpl in Hv, Hr, Hc.
    cbn [forallb] in Hpr. apply andb_true_iff in Hpr as [Hpe Hpr].
    cbn [map fst snd]. rewrite for_each_cons.
    rewrite (load_entry_entry _ r c v m (entry_line_of_entry_line r c v Hpe)).
    rewrite (proj2 (in_bounds_iff m r c) (conj Hr Hc)).
    destruct (Z.eqb_spec v 0) as [|_]; [contradiction|].
    assert (Hnew : ~ In (r, c) (keys (matrix_data m))).
    { unfold keys in *. rewrite map_app in Hnd.
      apply NoDup_remove_2 in Hnd. intros Hin. apply Hnd.
      apply in_or_app. left; exact Hin. }
    rewrite dict_setitem_new by assumption.
    rewrite IH.
    + cbn [rows cols matrix_data]. rewrite <- app_assoc. reflexivity.
    + cbn [matrix_data]. rewrite <- app_assoc. exact Hnd.
    + eapply Forall_impl; [|exact Hall'].
      intros e He. exact He.
    + exact Hpr.
Qed.

(** ** Duplicate coordinates in a file *)

Lemma dict_get_setitem (d : dict) (k k' : key) (v : Z) :
  dict_get (dict_setitem d k v) k' 0
  = if key_eqb k' k then v else dict_get d k' 0.
Proof.
  unfold dict_get. rewrite dict_find_setitem.
  destruct (key_eqb k' k); reflexivity.
Qed.

(** Lines that carry the coordinate only with value 0 leave its value as it
    was. *)
Lemma load_loop_value_unchanged (r c : Z) (ls : list str) :
  forall m m',
    for_each ls load_entry m = (inr tt, m') ->
    (forall l v, In l ls -> entry_line_of l r c v -> v = 0) ->
    value_at m' r c = value_at m r c.
Proof.
  induction ls as [|l ls IH]; intros m m' H Hz.
  - inversion H; reflexivity.
  - rewrite for_each_cons in H.
    destruct (load_entry l m) as [[e|[]] m1] eqn:H1; [discriminate|].
    rewrite (IH m1 m' H) by (intros l' v' Hin; apply Hz; right; exact Hin).
    apply load_entry_ok_inv in H1 as [[_ ->]|[r0 [c0 [v0 [He [_ ->]]]]]];
      [reflexivity|].
    destruct (Z.eqb_spec v0 0) as [|Hv0]; [reflexivity|].
    unfold value_at. cbn [matrix_data]. rewrite dict_get_setitem.
    key_cases (r, c) (r0, c0); [|reflexivity].
    inversion E; subst. exfalso. apply Hv0.
    apply (Hz l v0); [left; reflexivity | exact He].
Qed.

(** After a line with a non-zero value, followed by lines that carry the
    coordinate only with value 0, the coordinate holds that value. *)
Lemma load_loop_last_nonzero (r c v : Z) (pre post : list str) (l : str)
    (m m' : SparseMatrix) :
  for_each (pre ++ l :: post) load_entry m = (inr tt, m') ->
  entry_line_of l r c v -> v <> 0 ->
  (forall l' v', In l' post -> entry_line_of l' r c v' -> v' = 0) ->
  value_at m' r c = v.
Proof.
  intros H He Hv Hpost. rewrite for_each_app in H.
  destruct (for_each pre load_entry m) as [[e|[]] m1]; [discriminate|].
  rewrite for_each_cons in H.
  destruct (load_entry l m1) as [[e|[]] m2] eqn:H2; [discriminate|].
  rewrite (load_loop_value_unchanged r c post m2 m' H Hpost).
  rewrite (load_entry_entry l r c v m1 He) in H2.
  destruct (in_bounds m1 r c); [|discriminate].
  destruct (Z.eqb_spec v 0) as [|_]; [contradiction|].
  inversion H2; subst. unfold value_at. cbn [matrix_data].
  rewrite dict_get_setitem, key_eqb_refl. reflexivity.
Qed.

(** ** The storage invariant *)

Lemma init_matrix (fs : FileSystem) (matrixFilePath : option str)
    (numRows numCols : Z) (m : SparseMatrix) :
  __init__ fs matrixFilePath numRows numCols = inr m -> matrix m.
Proof.
  intros H.
  assert (Hexplicit :
    (if (numRows <=? 0) || (numCols <=? 0)
     then inl (ValueError, msg_empty_dims)
     else inr (mkSparseMatrix numRows numCols [])) = inr m -> matrix m).
  { destruct (Z.leb_spec numRows 0); [discriminate|].
    destruct (Z.leb_spec numCols 0); [discriminate|].
    intros E; inversion E; subst. apply empty_matrix; assumption. }
  destruct matrixFilePath as [[|ch p]|]; [exact (Hexplicit H) | | exact (Hexplicit H)].
  destruct (fs (ch :: p)) as [|cls|text] eqn:Hfs.
  - rewrite init_missing in H by (discriminate || assumption). discriminate.
  - rewrite (init_unreadable fs (ch :: p) cls) in H
      by (discriminate || assumption).
    discriminate.
  - destruct (init_file_cases fs (ch :: p) text numRows numCols)
      as [[E _]|[nR [nC [Hok [r [m' [Hloop E]]]]]]];
      [discriminate | exact Hfs | congruence |].
    rewrite E in H. destruct r as [e|[]]; [discriminate|].
    inversion H; subst m'.
    destruct (load_loop_ok_inv _ _ _ Hloop) as [_ [_ [_ Hm]]].
    apply Hm. destruct Hok as [? [? [? [? [? [_ [_ [_ [_ [_ [Hr Hc]]]]]]]]]]].
    apply empty_matrix; assumption.
Qed.

Lemma setElement_snd_matrix (m : SparseMatrix) (r c v : Z) :
  matrix m -> matrix (snd (setElement r c v m)).
Proof.
  intros Hm. destruct (in_bounds m r c) eqn:Hin.
  - destruct (setElement_matrix m r c v Hm Hin) as [m' [-> [_ [_ [Hm' _]]]]].
    exact Hm'.
  - rewrite setElement_out by assumption. exact Hm.
Qed.


(** * The properties *)

Lemma scenario_A_matrix : matrix scenario_A.
Proof.
  split; [|split; [reflexivity|split; [reflexivity|]]].
  - repeat constructor; simpl; intuition congruence.
  - repeat constructor; simpl; lia.
Qed.

Lemma scenario_B_matrix : matrix scenario_B.
Proof.
  split; [|split; [reflexivity|split; [reflexivity|]]].
  - repeat constructor; simpl; intuition congruence.
  - repeat constructor; simpl; lia.
Qed.

(** ** Element access *)






(** ** The storage invariant *)

Lemma reachable_matrix (m : SparseMatrix) : reachable m -> matrix m.
Proof.
  induction 1 as [fs p nr nc m Hinit | m r c v _ IH | m r c _ IH | m _ IH
                 | fs a b m _ IHa _ IHb Hop | fs a b m _ IHa _ IHb Hop
                 | fs a b m _ IHa _ IHb Hop].
  - eapply init_matrix; eassumption.
  - apply setElement_snd_matrix; assumption.
  - rewrite getElement_pure; assumption.
  - rewrite to_string_pure; assumption.
  - assert (E : negb (rows a =? rows b) || negb (cols a =? cols b) = false).
    { unfold add in Hop.
      destruct (negb (rows a =? rows b) || negb (cols a =? cols b));
        [discriminate | reflexivity]. }
    apply orb_false_iff in E as [Er Ec].
    apply negb_false_iff, Z.eqb_eq in Er, Ec.
    destruct (add_matrix fs a b IHa IHb Er Ec) as [m' [Hm' [_ [_ [Hmat _]]]]].
    congruence.
  - assert (E : negb (rows a =? rows b) || negb (cols a =? cols b) = false).
    { unfold subtract in Hop.
      destruct (negb (rows a =? rows b) || negb (cols a =? cols b));
        [discriminate | reflexivity]. }
    apply orb_false_iff in E as [Er Ec].
    apply negb_false_iff, Z.eqb_eq in Er, Ec.
    destruct (subtract_matrix fs a b IHa IHb Er Ec)
      as [m' [Hm' [_ [_ [Hmat _]]]]].
    congruence.
  - assert (E : negb (cols a =? rows b) = false).
    { unfold multiply in Hop.
      destruct (negb (cols a =? rows b)); [discriminate | reflexivity]. }
    apply negb_false_iff, Z.eqb_eq in E.
    destruct (multiply_matrix fs a b IHa IHb E) as [m' [Hm' [_ [_ [Hmat _]]]]].
    congruence.
Qed.

(** C7.  Every instance the public operations produce satisfies the storage
    invariant: positive dimensions, no key associated with 0, every stored
    key inside [[0, rows) x [0, cols)]. *)
Theorem reachable_storage_invariant (m : SparseMatrix) (Hreach : reachable m) :
  0 < rows m /\ 0 < cols m
  /\ forall r c v, In ((r, c), v) (items (matrix_data m)) ->
                   v <> 0 /\ 0 <= r < rows m /\ 0 <= c < cols m.
Proof.
  destruct (reachable_matrix m Hreach) as [_ [Hr [Hc Hall]]].
  split; [exact Hr|]. split; [exact Hc|].
  intros r c v Hin. rewrite Forall_forall in Hall. exact (Hall _ Hin).
Qed.

Lemma reachable_storage_invariant_witness :
  reachable (snd (setElement 0 1 7 (mkSparseMatrix 2 3 [])))
  /\ 0 < rows (snd (setElement 0 1 7 (mkSparseMatrix 2 3 []))).
Proof.
  assert (H : reachable (snd (setElement 0 1 7 (mkSparseMatrix 2 3 [])))).
  { apply reach_setElement. apply (reach_init no_files None 2 3). reflexivity. }
  split; [exact H|].
  apply (reachable_storage_invariant _ H).
Defined.

(** ** Arithmetic *)

(** C6.  On matrices, [add] and [subtract] raise the dimension error when
    the dimensions differ and return a matrix when they agree; [multiply]
    raises it when [cols] of the first differs from [rows] of the second
    and returns a matrix otherwise. *)
Theorem dimension_mismatch (fs : FileSystem) (a b : SparseMatrix)
    (Ha : matrix a) (Hb : matrix b) :
  ((rows a <> rows b \/ cols a <> cols b ->
    (exists e, add fs a b = inl e /\ kind_of e = Some DimensionMismatch)
    /\ (exists e, subtract fs a b = inl e
                  /\ kind_of e = Some DimensionMismatch))
   /\ (rows a = rows b /\ cols a = cols b ->
       (exists m, add fs a b = inr m)
       /\ (exists m, subtract fs a b = inr m)))
  /\ (cols a <> rows b ->
      exists e, multiply fs a b = inl e /\ kind_of e = Some DimensionMismatch)
  /\ (cols a = rows b -> exists m, multiply fs a b = inr m).
Proof.
  split; [split|split].
  - intros Hne.
    assert (E : negb (rows a =? rows b) || negb (cols a =? cols b) = true).
    { apply orb_true_iff. rewrite !negb_true_iff, !Z.eqb_neq. exact Hne. }
    unfold add, subtract. rewrite E.
    split; eexists; (split; [reflexivity | reflexivity]).
  - intros [Hr Hc].
    destruct (add_matrix fs a b Ha Hb Hr Hc) as [m [Hm _]].
    destruct (subtract_matrix fs a b Ha Hb Hr Hc) as [m' [Hm' _]].
    split; eexists; eassumption.
  - intros Hne. unfold multiply.
    rewrite (proj2 (Z.eqb_neq _ _) Hne). cbn [negb].
    eexists; (split; [reflexivity | reflexivity]).
  - intros Heq.
    destruct (multiply_matrix fs a b Ha Hb Heq) as [m [Hm _]].
    eexists; eassumption.
Qed.

Lemma dimension_mismatch_witness :
  matrix scenario_A /\ matrix (mkSparseMatrix 3 2 [])
  /\ exists e, add no_files scenario_A (mkSparseMatrix 3 2 []) = inl e
               /\ kind_of e = Some DimensionMismatch.
Proof.
  assert (Hb : matrix (mkSparseMatrix 3 2 [])) by (apply empty_matrix; lia).
  split; [apply scenario_A_matrix|]. split; [exact Hb|].
  apply (dimension_mismatch no_files scenario_A (mkSparseMatrix 3 2 [])
           scenario_A_matrix Hb).
  left. simpl. lia.
Defined.

(** C9.  For matrices of equal dimensions, [add(A, B)] and [add(B, A)] both
    return, with the same dimensions and the same set of entries. *)
Theorem add_commutative (fs : FileSystem) (a b : SparseMatrix)
    (Ha : matrix a) (Hb : matrix b)
    (Hrows : rows a = rows b) (Hcols : cols a = cols b) :
  exists m1 m2,
    add fs a b = inr m1 /\ add fs b a = inr m2
    /\ rows m1 = rows m2 /\ cols m1 = cols m2
    /\ same_entries m1 m2.
Proof.
  destruct (add_matrix fs a b Ha Hb Hrows Hcols)
    as [m1 [H1 [Hr1 [Hc1 [Hm1 Hv1]]]]].
  destruct (add_matrix fs b a Hb Ha (eq_sym Hrows) (eq_sym Hcols))
    as [m2 [H2 [Hr2 [Hc2 [Hm2 Hv2]]]]].
  exists m1, m2. split; [exact H1|]. split; [exact H2|].
  split; [congruence|]. split; [congruence|].
  apply same_values_same_entries; [assumption | assumption|].
  intros r c. rewrite Hv1, Hv2. lia.
Qed.

Lemma add_commutative_witness :
  matrix scenario_A /\ matrix scenario_B
  /\ exists m1 m2,
       add no_files scenario_A scenario_B = inr m1
       /\ add no_files scenario_B scenario_A = inr m2
       /\ rows m1 = rows m2 /\ cols m1 = cols m2
       /\ same_entries m1 m2.
Proof.
  split; [apply scenario_A_matrix|]. split; [apply scenario_B_matrix|].
  apply (add_commutative no_files scenario_A scenario_B
           scenario_A_matrix scenario_B_matrix); reflexivity.
Defined.

(** C1.  For matrices [A] and [B] with [A.cols == B.rows], [multiply]
    returns a matrix of dimensions [A.rows x B.cols] in which [getElement]
    at every in-bounds [(i, j)] returns the sum, over [k] in
    [[0, A.cols)], of the value of [A] at [(i, k)] times the value of [B] at
    [(k, j)], these values being what [getElement] returns on [A] and
    [B]. *)
Theorem multiply_correct (fs : FileSystem) (a b : SparseMatrix)
    (Ha : matrix a) (Hb : matrix b) (Hinner : cols a = rows b) :
  exists m,
    multiply fs a b = inr m
    /\ rows m = rows a /\ cols m = cols b
    /\ (forall i j,
          0 <= i < rows a -> 0 <= j < cols b ->
          fst (getElement i j m)
          = inr (sum_range (cols a)
                   (fun k => value_at a i k * value_at b k j)))
    /\ (forall i j k,
          0 <= i < rows a -> 0 <= k < cols a -> 0 <= j < cols b ->
          fst (getElement i k a) = inr (value_at a i k)
          /\ fst (getElement k j b) = inr (value_at b k j)).
Proof.
  destruct (multiply_matrix fs a b Ha Hb Hinner)
    as [m [Hm [Hr [Hc [_ Hv]]]]].
  exists m. split; [exact Hm|]. split; [exact Hr|]. split; [exact Hc|].
  split.
  - intros i j Hi Hj. rewrite getElement_in.
    + rewrite Hv. reflexivity.
    + apply in_bounds_iff. rewrite Hr, Hc. auto.
  - intros i j k Hi Hk Hj.
    rewrite !getElement_in; [auto | |];
      apply in_bounds_iff; rewrite <- ?Hinner; auto.
Qed.

Lemma multiply_correct_witness :
  matrix scenario_A /\ matrix scenario_B
  /\ exists m,
       multiply no_files scenario_A scenario_B = inr m
       /\ fst (getElement 0 1 m)
          = inr (sum_range 2
                   (fun k => value_at scenario_A 0 k * value_at scenario_B k 1)).
Proof.
  split; [apply scenario_A_matrix|]. split; [apply scenario_B_matrix|].
  destruct (multiply_correct no_files scenario_A scenario_B
              scenario_A_matrix scenario_B_matrix eq_refl)
    as [m [Hm [_ [_ [Hv _]]]]].
  exists m. split; [exact Hm|]. apply (Hv 0 1); simpl; lia.
Defined.

(** ** The scenario *)

Lemma same_entries_matrix (m m0 : SparseMatrix) :
  matrix m0 -> rows m = rows m0 -> cols m = cols m0 ->
  Permutation (items (matrix_data m)) (items (matrix_data m0)) ->
  matrix m /\ forall r c, value_at m r c = value_at m0 r c.
Proof.
  unfold items. intros [Hok [Hr [Hc Hall]]] Er Ec Hp.
  assert (Hok' : dict_ok (matrix_data m)).
  { unfold dict_ok, keys in *.
    eapply Permutation_NoDup; [|exact Hok].
    apply Permutation_map, Permutation_sym, Hp. }
  split.
  - split; [exact Hok'|]. split; [lia|]. split; [lia|].
    eapply Permutation_Forall; [apply Permutation_sym, Hp|].
    eapply Forall_impl; [|exact Hall].
    intros e He. unfold entry_ok in *. rewrite Er, Ec. exact He.
  - intros r c. apply dict_get_perm; assumption.
Qed.

Ltac scenario_values :=
  unfold value_at, dict_get, sum_range; simpl; unfold key_eqb; simpl;
  repeat match goal with
         | |- context [?x =? ?y] => destruct (Z.eqb_spec x y); simpl
         end;
  lia.

(** C2, as the code has it.  For 2x2 matrices [A] with entries
    [{(0,0): 1, (1,1): 2}] and [B] with entries [{(0,0): 3, (0,1): 4}], in
    any insertion order: [add] has exactly [{(0,0): 4, (0,1): 4, (1,1): 2}],
    [subtract] has exactly [{(0,0): -2, (0,1): -4, (1,1): 2}], and
    [multiply] has exactly [{(0,0): 3, (0,1): 4}]. *)
Theorem scenario_results (fs : FileSystem) (A B : SparseMatrix)
    (HAr : rows A = 2) (HAc : cols A = 2)
    (HA : Permutation (items (matrix_data A)) [((0, 0), 1); ((1, 1), 2)])
    (HBr : rows B = 2) (HBc : cols B = 2)
    (HB : Permutation (items (matrix_data B)) [((0, 0), 3); ((0, 1), 4)]) :
  (exists C, add fs A B = inr C
             /\ rows C = 2 /\ cols C = 2
             /\ Permutation (items (matrix_data C))
                  [((0, 0), 4); ((0, 1), 4); ((1, 1), 2)])
  /\ (exists C, subtract fs A B = inr C
                /\ rows C = 2 /\ cols C = 2
                /\ Permutation (items (matrix_data C))
                     [((0, 0), -2); ((0, 1), -4); ((1, 1), 2)])
  /\ (exists C, multiply fs A B = inr C
                /\ rows C = 2 /\ cols C = 2
                /\ Permutation (items (matrix_data C))
                     [((0, 0), 3); ((0, 1), 4)]).
Proof.
  destruct (same_entries_matrix A scenario_A scenario_A_matrix HAr HAc HA)
    as [Ha Hva].
  destruct (same_entries_matrix B scenario_B scenario_B_matrix HBr HBc HB)
    as [Hb Hvb].
  assert (Hexp : forall es, dict_ok es ->
            Forall (entry_ok (mkSparseMatrix 2 2 es)) es ->
            matrix (mkSparseMatrix 2 2 es)).
  { intros es H1 H2. split; [exact H1|].
    split; [reflexivity|]. split; [reflexivity | exact H2]. }
  split; [|split].
  - destruct (add_matrix fs A B Ha Hb) as [C [HC [Hr [Hc [Hm Hv]]]]];
      [congruence | congruence|].
    exists C. split; [exact HC|]. split; [congruence|]. split; [congruence|].
    apply (same_values_same_entries C
             (mkSparseMatrix 2 2 [((0, 0), 4); ((0, 1), 4); ((1, 1), 2)]) Hm).
    + apply Hexp; repeat constructor; simpl; intuition (congruence || lia).
    + intros r c. rewrite Hv, Hva, Hvb. scenario_values.
  - destruct (subtract_matrix fs A B Ha Hb) as [C [HC [Hr [Hc [Hm Hv]]]]];
      [congruence | congruence|].
    exists C. split; [exact HC|]. split; [congruence|]. split; [congruence|].
    apply (same_values_same_entries C
             (mkSparseMatrix 2 2 [((0, 0), -2); ((0, 1), -4); ((1, 1), 2)]) Hm).
    + apply Hexp; repeat constructor; simpl; intuition (congruence || lia).
    + intros r c. rewrite Hv, Hva, Hvb. scenario_values.
  - destruct (multiply_matrix fs A B Ha Hb) as [C [HC [Hr [Hc [Hm Hv]]]]];
      [congruence|].
    exists C. split; [exact HC|]. split; [congruence|]. split; [congruence|].
    apply (same_values_same_entries C
             (mkSparseMatrix 2 2 [((0, 0), 3); ((0, 1), 4)]) Hm).
    + apply Hexp; repeat constructor; simpl; intuition (congruence || lia).
    + intros r c. rewrite Hv, HAc.
      unfold sum_range. change (Z.to_nat 2) with 2%nat. cbn [sum_below].
      change (Z.of_nat 0) with 0. change (Z.of_nat 1) with 1.
      rewrite !Hva, !Hvb. scenario_values.
Qed.

Lemma scenario_results_witness :
  exists C, multiply no_files scenario_A scenario_B = inr C
            /\ rows C = 2 /\ cols C = 2
            /\ Permutation (items (matrix_data C)) [((0, 0), 3); ((0, 1), 4)].
Proof.
  apply (scenario_results no_files scenario_A scenario_B);
    reflexivity || apply Permutation_refl.
Defined.

(** C2 as stated fails: on the scenario matrices [multiply] does not have
    the entries [{(0,0): 3, (0,1): 4, (1,1): 8}]; it returns the two
    entries [{(0,0): 3, (0,1): 4}] and nothing at [(1, 1)]. *)
Lemma scenario_multiply_counterexample :
  multiply no_files scenario_A scenario_B
  = inr (mkSparseMatrix 2 2 [((0, 0), 3); ((0, 1), 4)])
  /\ ~ (exists C,
          multiply no_files scenario_A scenario_B = inr C
          /\ Permutation (items (matrix_data C))
               [((0, 0), 3); ((0, 1), 4); ((1, 1), 8)]).
Proof.
  split; [reflexivity|].
  intros [C [H P]]. vm_compute in H. inversion H; subst C.
  apply Permutation_length in P. discriminate.
Qed.

(** The scenario as Python runs it, dicts in insertion order. *)
Example scenario_add_eval :
  add no_files scenario_A scenario_B
  = inr (mkSparseMatrix 2 2 [((0, 0), 4); ((1, 1), 2); ((0, 1), 4)]).
Proof. reflexivity. Qed.

Example scenario_subtract_eval :
  subtract no_files scenario_A scenario_B
  = inr (mkSparseMatrix 2 2 [((0, 0), -2); ((1, 1), 2); ((0, 1), -4)]).
Proof. reflexivity. Qed.

Example scenario_serialized :
  fst (to_string (mkSparseMatrix 2 2 [((0, 0), 4); ((1, 1), 2); ((0, 1), 4)]))
  = inr (lit "rows=2" ++ LF ++ lit "cols=2" ++ LF
         ++ lit "(0, 0, 4)" ++ LF ++ lit "(0, 1, 4)" ++ LF
         ++ lit "(1, 1, 2)" ++ LF).
Proof. reflexivity. Qed.

(** ** Serialization *)


Lemma to_string_same_entries (m m2 : SparseMatrix) :
  matrix m -> matrix m2 -> rows m2 = rows m -> cols m2 = cols m ->
  same_entries m2 m -> fst (to_string m2) = fst (to_string m).
Proof.
  intros [Hok _] [Hok2 _] Hr Hc Hp. unfold same_entries, items in Hp.
  rewrite !to_string_eq. cbn [fst]. rewrite Hr, Hc.
  assert (Hk : sorted (keys (matrix_data m2)) = sorted (keys (matrix_data m))).
  { apply sorted_perm_eq; [exact Hok2|]. apply Permutation_map, Hp. }
  rewrite Hk.
  rewrite (map_ext (fun k => (k, dict_get (matrix_data m2) k 0))
             (fun k => (k, dict_get (matrix_data m) k 0))).
  - match goal with
    | |- context [if ?b then _ else _] => destruct b
    end; reflexivity.
  - intros k. f_equal. apply dict_get_perm; assumption.
Qed.








(** ** Round trip *)




(** ** Loading a file *)

(** C5.  Construction from a file that exists fails with the kind of the
    first defect.  A header that is not [rows=<int>] then [cols=<int>] with
    positive values gives [MalformedHeader].  With a good header, the first
    line after it that is not accepted gives [MalformedEntry] when it is a
    non-blank line not of the form [(<int>, <int>, <int>)], and
    [EntryOutOfBounds], with the coordinate and the dimensions in the
    message, when it is of that form with a coordinate outside the declared
    dimensions.  These are the only failures, a failure returns no matrix,
    and a file without defect is loaded. *)
Theorem load_error_kinds (fs : FileSystem) (path text : str)
    (numRows numCols : Z)
    (Hpath : path <> []) (Hfs : fs path = Text text) :
  ((forall nrows ncols, ~ header_ok (readlines text) nrows ncols) ->
   exists e, __init__ fs (Some path) numRows numCols = inl e
             /\ kind_of e = Some MalformedHeader)
  /\ (forall nrows ncols pre bad post,
        header_ok (readlines text) nrows ncols ->
        skipn 2 (readlines text) = pre ++ bad :: post ->
        Forall (accepted_line nrows ncols) pre ->
        (malformed_line bad ->
         exists e, __init__ fs (Some path) numRows numCols = inl e
                   /\ kind_of e = Some MalformedEntry)
        /\ (forall row col value,
              entry_line_of bad row col value ->
              ~ (0 <= row < nrows /\ 0 <= col < ncols) ->
              __init__ fs (Some path) numRows numCols
              = inl (ValueError, msg_entry_bounds row col nrows ncols)
              /\ kind_of (ValueError, msg_entry_bounds row col nrows ncols)
                 = Some EntryOutOfBounds))
  /\ (forall e,
        __init__ fs (Some path) numRows numCols = inl e ->
        kind_of e = Some MalformedHeader
        \/ kind_of e = Some MalformedEntry
        \/ kind_of e = Some EntryOutOfBounds)
  /\ (forall nrows ncols,
        header_ok (readlines text) nrows ncols ->
        Forall (accepted_line nrows ncols) (skipn 2 (readlines text)) ->
        exists m, __init__ fs (Some path) numRows numCols = inr m).
Proof.
  destruct (init_file_cases fs path text numRows numCols Hpath Hfs)
    as [[E Hbad]|[nR [nC [Hok [r [m [Hloop E]]]]]]].
  - split; [|split; [|split]].
    + intros _. eexists; split; [exact E | reflexivity].
    + intros nrows ncols pre bad post Hok'. exfalso. exact (Hbad _ _ Hok').
    + intros e He. rewrite E in He. inversion He; subst. left; reflexivity.
    + intros nrows ncols Hok'. exfalso. exact (Hbad _ _ Hok').
  - split; [|split; [|split]].
    + intros Hbad. exfalso. exact (Hbad _ _ Hok).
    + intros nrows ncols pre bad post Hok' Hlines Hpre.
      destruct (header_ok_fun _ _ _ _ _ Hok Hok') as [<- <-].
      rewrite Hlines, for_each_app in Hloop.
      destruct (load_loop_accepted pre (mkSparseMatrix nR nC []) Hpre)
        as [m1 [H1 [Hr1 Hc1]]].
      rewrite H1, for_each_cons in Hloop. split.
      * intros Hmal.
        destruct (load_entry_cases bad m1)
          as [Hb|[[r0 [c0 [v0 He]]]|[_ [msg [Hmsg Hk]]]]].
        -- exfalso. exact (proj1 Hmal Hb).
        -- exfalso. exact (proj2 Hmal _ _ _ He).
        -- rewrite Hmsg in Hloop. inversion Hloop; subst.
           eexists; split; [exact E | exact Hk].
      * intros row col value He Hout.
        rewrite (load_entry_entry bad row col value m1 He) in Hloop.
        assert (Hin : in_bounds m1 row col = false).
        { apply in_bounds_false_iff. rewrite Hr1, Hc1. exact Hout. }
        destruct (header_ok_printable _ _ _ Hok) as [Hpr Hpc].
        rewrite Hin in Hloop.
        rewrite (entry_bounds_error_line bad row col value m1 He) in Hloop
          by (rewrite ?Hr1, ?Hc1; assumption).
        rewrite Hr1, Hc1 in Hloop. inversion Hloop; subst.
        split; [exact E | reflexivity].
    + intros e He. rewrite E in He. destruct r as [e'|[]]; [|discriminate].
      inversion He; subst e'.
      destruct (load_loop_err_inv _ _ _ _ Hloop)
        as [pre [bad [post [_ [_ [[_ Hk]|[r0 [c0 [v0 [He0 [_ ->]]]]]]]]]]].
      * right; left; exact Hk.
      * right; right.
        destruct (header_ok_printable _ _ _ Hok) as [Hpr Hpc].
        rewrite (entry_bounds_error_line bad r0 c0 v0
                   (mkSparseMatrix nR nC []) He0 Hpr Hpc).
        reflexivity.
    + intros nrows ncols Hok' Hall.
      destruct (header_ok_fun _ _ _ _ _ Hok Hok') as [<- <-].
      destruct (load_loop_accepted _ (mkSparseMatrix nR nC []) Hall)
        as [m1 [H1 _]].
      rewrite H1 in Hloop. inversion Hloop; subst.
      exists m. exact E.
Qed.

Lemma bounds_text_header : header_ok (readlines bounds_text) 3 2.
Proof.
  exists (lit "rows=3" ++ LF), (lit "cols=2" ++ LF), [lit "(5, 0, 1)" ++ LF],
    (lit "3"), (lit "2").
  repeat split; reflexivity.
Qed.

Lemma load_error_kinds_witness :
  lit "m.txt" <> []
  /\ __init__ (fun _ => Text bounds_text) (Some (lit "m.txt")) 0 0
     = inl (ValueError, msg_entry_bounds 5 0 3 2)
  /\ kind_of (ValueError, msg_entry_bounds 5 0 3 2) = Some EntryOutOfBounds.
Proof.
  assert (Hp : lit "m.txt" <> []) by discriminate.
  split; [exact Hp|].
  refine (proj2 (proj1 (proj2 (load_error_kinds (fun _ => Text bounds_text)
                                 (lit "m.txt") bounds_text 0 0 Hp eq_refl))
                   3 2 [] (lit "(5, 0, 1)" ++ LF) []
                   bounds_text_header eq_refl (Forall_nil _))
            5 0 1 _ _).
  - exact (entry_line_of_entry_line 5 0 1 eq_refl).
  - simpl. lia.
Defined.

(** The malformed inputs of the specification's test list. *)
Example load_bounds_text :
  option_map kind_of
    (match __init__ (fun _ => Text bounds_text) (Some (lit "m.txt")) 0 0 with
     | inl e => Some e
     | inr _ => None
     end)
  = Some (Some EntryOutOfBounds).
Proof. vm_compute. reflexivity. Qed.

Example load_header_text :
  __init__ (fun _ => Text header_text) (Some (lit "m.txt")) 0 0
  = inl (ValueError, msg_header)
  /\ kind_of (ValueError, msg_header) = Some MalformedHeader.
Proof. split; vm_compute; reflexivity. Qed.

Example load_fields_text :
  __init__ (fun _ => Text fields_text) (Some (lit "m.txt")) 0 0
  = inl (ValueError, msg_fields)
  /\ kind_of (ValueError, msg_fields) = Some MalformedEntry.
Proof. split; vm_compute; reflexivity. Qed.

Example load_missing_file :
  __init__ no_files (Some (lit "m.txt")) 0 0
  = inl (FileNotFoundError, msg_not_found (lit "m.txt")).
Proof. reflexivity. Qed.

(** ** Duplicate coordinates *)

(** C3, as the code has it.  After a successful construction from a file,
    the value at a coordinate is the value of the last line for that
    coordinate whose value is not 0: lines with value 0 store nothing and
    remove nothing.  The coordinate is absent when every line for it has
    value 0. *)
Theorem load_last_nonzero_wins (fs : FileSystem) (path text : str)
    (numRows numCols : Z) (m : SparseMatrix) (r c : Z)
    (Hpath : path <> []) (Hfs : fs path = Text text)
    (Hinit : __init__ fs (Some path) numRows numCols = inr m) :
  (forall pre l post v,
     skipn 2 (readlines text) = pre ++ l :: post ->
     entry_line_of l r c v -> v <> 0 ->
     (forall l' v', In l' post -> entry_line_of l' r c v' -> v' = 0) ->
     value_at m r c = v)
  /\ ((forall l v, In l (skipn 2 (readlines text)) ->
                   entry_line_of l r c v -> v = 0) ->
      value_at m r c = 0 /\ dict_contains (matrix_data m) (r, c) = false).
Proof.
  pose proof (init_matrix _ _ _ _ _ Hinit) as Hm.
  destruct (init_file_cases fs path text numRows numCols Hpath Hfs)
    as [[E _]|[nR [nC [_ [res [m' [Hloop E]]]]]]]; [congruence|].
  rewrite E in Hinit. destruct res as [e|[]]; [discriminate|].
  inversion Hinit; subst m'. split.
  - intros pre l post v Hlines He Hv Hpost. rewrite Hlines in Hloop.
    eapply load_loop_last_nonzero; eassumption.
  - intros Hz.
    assert (Hval : value_at m r c = 0).
    { rewrite (load_loop_value_unchanged r c _ _ _ Hloop Hz). reflexivity. }
    split; [exact Hval|].
    unfold dict_contains.
    destruct (dict_find (matrix_data m) (r, c)) as [v|] eqn:Hf; [|reflexivity].
    exfalso. pose proof (dict_find_In _ _ _ Hf) as Hin.
    apply (matrix_In_value m r c v Hm) in Hin as [Hv Hval'].
    congruence.
Qed.

Lemma dup_text_loaded :
  __init__ dup_files (Some (lit "m.txt")) 0 0
  = inr (mkSparseMatrix 2 2 [((0, 0), 5)]).
Proof. vm_compute. reflexivity. Qed.

Lemma load_last_nonzero_wins_witness :
  lit "m.txt" <> []
  /\ value_at (mkSparseMatrix 2 2 [((0, 0), 5)]) 0 0 = 5.
Proof.
  assert (Hp : lit "m.txt" <> []) by discriminate.
  split; [exact Hp|].
  refine (proj1 (load_last_nonzero_wins dup_files (lit "m.txt") dup_text 0 0
                   (mkSparseMatrix 2 2 [((0, 0), 5)]) 0 0 Hp eq_refl
                   dup_text_loaded)
            [] dup_line_5 [dup_line_0] 5 eq_refl
            (entry_line_of_entry_line 0 0 5 eq_refl) _ _).
  - discriminate.
  - intros l' v' [<-|[]] He.
    destruct (entry_line_of_fun _ _ _ _ _ _ _ He (entry_line_of_entry_line 0 0 0 eq_refl))
      as [_ [_ Hv]].
    exact Hv.
Defined.

(** C3 as stated fails: the file [dup_text] has the entry lines
    [(0, 0, 5)] then [(0, 0, 0)], both well-formed and in bounds; the last
    line for [(0, 0)] has value 0, yet after construction the value at
    [(0, 0)] is 5 and the key is present. *)
Lemma last_zero_line_counterexample :
  skipn 2 (readlines dup_text) = [dup_line_5; dup_line_0]
  /\ entry_line_of dup_line_5 0 0 5
  /\ entry_line_of dup_line_0 0 0 0
  /\ exists m,
       __init__ dup_files (Some (lit "m.txt")) 0 0 = inr m
       /\ value_at m 0 0 = 5
       /\ value_at m 0 0 <> 0
       /\ dict_contains (matrix_data m) (0, 0) = true.
Proof.
  split; [reflexivity|].
  split; [exact (entry_line_of_entry_line 0 0 5 eq_refl)|].
  split; [exact (entry_line_of_entry_line 0 0 0 eq_refl)|].
  exists (mkSparseMatrix 2 2 [((0, 0), 5)]).
  split; [exact dup_text_loaded|].
  split; [reflexivity|]. split; [discriminate | reflexivity].
Qed.

(** * Further properties *)

(** ** Entrywise arithmetic *)

Lemma matrix_zero_absent (m : SparseMatrix) (r c : Z) :
  matrix m -> value_at m r c = 0 ->
  dict_contains (matrix_data m) (r, c) = false.
Proof.
  intros Hm Hv. unfold dict_contains.
  destruct (dict_find (matrix_data m) (r, c)) as [v|] eqn:Hf; [|reflexivity].
  exfalso. pose proof (dict_find_In _ _ _ Hf) as Hin.
  apply (matrix_In_value m r c v Hm) in Hin as [Hne Hval]. congruence.
Qed.

Lemma matrix_all_zero_empty (m : SparseMatrix) :
  matrix m -> (forall r c, value_at m r c = 0) -> matrix_data m = [].
Proof.
  intros Hm Hz. destruct (matrix_data m) as [|[[r c] v] d] eqn:Hd; [reflexivity|].
  exfalso.
  assert (Hin : In ((r, c), v) (matrix_data m)) by (rewrite Hd; left; reflexivity).
  apply (matrix_In_value m r c v Hm) in Hin as [Hne Hval].
  rewrite Hz in Hval. congruence.
Qed.

Lemma value_at_out_of_bounds (m : SparseMatrix) (r c : Z) :
  matrix m -> in_bounds m r c = false -> value_at m r c = 0.
Proof.
  intros Hm Hout. unfold value_at, dict_get.
  destruct (dict_find (matrix_data m) (r, c)) as [v|] eqn:Hf; [|reflexivity].
  apply dict_find_In in Hf.
  rewrite (matrix_entry_in_bounds m r c v Hm Hf) in Hout. discriminate.
Qed.

(** X1.  For matrices of equal dimensions [add] returns a matrix of these
    dimensions in which [getElement] at every in-bounds coordinate returns the
    sum of the two values, a coordinate whose sum is 0 being absent from the
    dict. *)
Theorem add_correct (fs : FileSystem) (a b : SparseMatrix)
    (Ha : matrix a) (Hb : matrix b)
    (Hrows : rows a = rows b) (Hcols : cols a = cols b) :
  exists m,
    add fs a b = inr m
    /\ rows m = rows a /\ cols m = cols a
    /\ forall i j,
         0 <= i < rows a -> 0 <= j < cols a ->
         fst (getElement i j m) = inr (value_at a i j + value_at b i j)
         /\ (value_at a i j + value_at b i j = 0 ->
             dict_contains (matrix_data m) (i, j) = false).
Proof.
  destruct (add_matrix fs a b Ha Hb Hrows Hcols) as [m [Hm [Hr [Hc [Hmat Hv]]]]].
  exists m. split; [exact Hm|]. split; [exact Hr|]. split; [exact Hc|].
  intros i j Hi Hj. split.
  - rewrite getElement_in; [rewrite Hv; reflexivity|].
    apply in_bounds_iff. rewrite Hr, Hc. auto.
  - intros Hz. apply matrix_zero_absent; [exact Hmat|]. rewrite Hv. exact Hz.
Qed.

Lemma add_correct_witness :
  matrix scenario_A /\ matrix scenario_B
  /\ exists m,
       add no_files scenario_A scenario_B = inr m
       /\ fst (getElement 0 0 m)
          = inr (value_at scenario_A 0 0 + value_at scenario_B 0 0).
Proof.
  split; [apply scenario_A_matrix|]. split; [apply scenario_B_matrix|].
  destruct (add_correct no_files scenario_A scenario_B
              scenario_A_matrix scenario_B_matrix eq_refl eq_refl)
    as [m [Hm [_ [_ Hv]]]].
  exists m. split; [exact Hm|]. apply (Hv 0 0); simpl; lia.
Defined.

(** X2.  For matrices of equal dimensions [subtract] returns a matrix of
    these dimensions in which [getElement] at every in-bounds coordinate
    returns the difference of the two values, a coordinate whose difference
    is 0 being absent from the dict. *)
Theorem subtract_correct (fs : FileSystem) (a b : SparseMatrix)
    (Ha : matrix a) (Hb : matrix b)
    (Hrows : rows a = rows b) (Hcols : cols a = cols b) :
  exists m,
    subtract fs a b = inr m
    /\ rows m = rows a /\ cols m = cols a
    /\ forall i j,
         0 <= i < rows a -> 0 <= j < cols a ->
         fst (getElement i j m) = inr (value_at a i j - value_at b i j)
         /\ (value_at a i j = value_at b i j ->
             dict_contains (matrix_data m) (i, j) = false).
Proof.
  destruct (subtract_matrix fs a b Ha Hb Hrows Hcols)
    as [m [Hm [Hr [Hc [Hmat Hv]]]]].
  exists m. split; [exact Hm|]. split; [exact Hr|]. split; [exact Hc|].
  intros i j Hi Hj. split.
  - rewrite getElement_in; [rewrite Hv; reflexivity|].
    apply in_bounds_iff. rewrite Hr, Hc. auto.
  - intros Hz. apply matrix_zero_absent; [exact Hmat|]. rewrite Hv. lia.
Qed.

Lemma subtract_correct_witness :
  matrix scenario_A /\ matrix scenario_B
  /\ exists m,
       subtract no_files scenario_A scenario_B = inr m
       /\ fst (getElement 0 1 m)
          = inr (value_at scenario_A 0 1 - value_at scenario_B 0 1).
Proof.
  split; [apply scenario_A_matrix|]. split; [apply scenario_B_matrix|].
  destruct (subtract_correct no_files scenario_A scenario_B
              scenario_A_matrix scenario_B_matrix eq_refl eq_refl)
    as [m [Hm [_ [_ Hv]]]].
  exists m. split; [exact Hm|]. apply (Hv 0 1); simpl; lia.
Defined.

Lemma matrix_eta (m : SparseMatrix) :
  m = mkSparseMatrix (rows m) (cols m) (matrix_data m).
Proof. destruct m; reflexivity. Qed.

(** X3.  Subtracting a matrix from itself returns the matrix of the same
    dimensions with an empty dict: every entry cancels and is removed. *)
Theorem subtract_self_empty (fs : FileSystem) (a : SparseMatrix)
    (Ha : matrix a) :
  subtract fs a a = inr (mkSparseMatrix (rows a) (cols a) []).
Proof.
  destruct (subtract_matrix fs a a Ha Ha eq_refl eq_refl)
    as [m [Hm [Hr [Hc [Hmat Hv]]]]].
  rewrite Hm. f_equal. rewrite (matrix_eta m), Hr, Hc. f_equal.
  apply matrix_all_zero_empty; [exact Hmat|].
  intros r c. rewrite Hv. lia.
Qed.

Lemma subtract_self_empty_witness :
  matrix scenario_A
  /\ subtract no_files scenario_A scenario_A = inr (mkSparseMatrix 2 2 []).
Proof.
  split; [apply scenario_A_matrix|].
  exact (subtract_self_empty no_files scenario_A scenario_A_matrix).
Defined.

(** X4.  [add] is associative up to the order of the dict: for three matrices
    of equal dimensions, [(A + B) + C] and [A + (B + C)] both return, with
    the same dimensions and the same set of entries. *)
Theorem add_associative (fs : FileSystem) (a b c : SparseMatrix)
    (Ha : matrix a) (Hb : matrix b) (Hc : matrix c)
    (Hrab : rows a = rows b) (Hcab : cols a = cols b)
    (Hrbc : rows b = rows c) (Hcbc : cols b = cols c) :
  exists ab bc l r,
    add fs a b = inr ab /\ add fs ab c = inr l
    /\ add fs b c = inr bc /\ add fs a bc = inr r
    /\ rows l = rows r /\ cols l = cols r
    /\ same_entries l r.
Proof.
  destruct (add_matrix fs a b Ha Hb Hrab Hcab)
    as [ab [Hab [Hr1 [Hc1 [Hm1 Hv1]]]]].
  destruct (add_matrix fs ab c Hm1 Hc) as [l [Hl [Hr2 [Hc2 [Hm2 Hv2]]]]];
    [congruence | congruence|].
  destruct (add_matrix fs b c Hb Hc Hrbc Hcbc)
    as [bc [Hbc [Hr3 [Hc3 [Hm3 Hv3]]]]].
  destruct (add_matrix fs a bc Ha Hm3) as [r [Hr [Hr4 [Hc4 [Hm4 Hv4]]]]];
    [congruence | congruence|].
  exists ab, bc, l, r. repeat (split; [assumption || congruence|]).
  apply same_values_same_entries; [assumption | assumption|].
  intros i j. rewrite Hv2, Hv1, Hv4, Hv3. lia.
Qed.

Lemma add_associative_witness :
  matrix scenario_A /\ matrix scenario_B
  /\ exists ab bc l r,
       add no_files scenario_A scenario_B = inr ab
       /\ add no_files ab scenario_A = inr l
       /\ add no_files scenario_B scenario_A = inr bc
       /\ add no_files scenario_A bc = inr r
       /\ rows l = rows r /\ cols l = cols r
       /\ same_entries l r.
Proof.
  split; [apply scenario_A_matrix|]. split; [apply scenario_B_matrix|].
  apply (add_associative no_files scenario_A scenario_B scenario_A
           scenario_A_matrix scenario_B_matrix scenario_A_matrix);
    reflexivity.
Defined.

(** X5.  [subtract] undoes [add]: for matrices of equal dimensions,
    [(A + B) - B] returns a matrix with the dimensions and the set of entries
    of [A]. *)
Theorem add_subtract_cancel (fs : FileSystem) (a b : SparseMatrix)
    (Ha : matrix a) (Hb : matrix b)
    (Hrows : rows a = rows b) (Hcols : cols a = cols b) :
  exists s d,
    add fs a b = inr s /\ subtract fs s b = inr d
    /\ rows d = rows a /\ cols d = cols a
    /\ same_entries d a.
Proof.
  destruct (add_matrix fs a b Ha Hb Hrows Hcols)
    as [s [Hs [Hr1 [Hc1 [Hm1 Hv1]]]]].
  destruct (subtract_matrix fs s b Hm1 Hb) as [d [Hd [Hr2 [Hc2 [Hm2 Hv2]]]]];
    [congruence | congruence|].
  exists s, d. split; [exact Hs|]. split; [exact Hd|].
  split; [congruence|]. split; [congruence|].
  apply same_values_same_entries; [assumption | assumption|].
  intros i j. rewrite Hv2, Hv1. lia.
Qed.

Lemma add_subtract_cancel_witness :
  matrix scenario_A /\ matrix scenario_B
  /\ exists s d,
       add no_files scenario_A scenario_B = inr s
       /\ subtract no_files s scenario_B = inr d
       /\ rows d = rows scenario_A /\ cols d = cols scenario_A
       /\ same_entries d scenario_A.
Proof.
  split; [apply scenario_A_matrix|]. split; [apply scenario_B_matrix|].
  apply (add_subtract_cancel no_files scenario_A scenario_B
           scenario_A_matrix scenario_B_matrix); reflexivity.
Defined.

(** ** Laws of [multiply] *)

Lemma sum_below_zero (n : nat) : sum_below n (fun _ => 0) = 0.
Proof. induction n as [|n IH]; simpl; [reflexivity | rewrite IH; reflexivity]. Qed.

Lemma sum_below_mul_l (n : nat) (x : Z) (f : Z -> Z) :
  x * sum_below n f = sum_below n (fun k => x * f k).
Proof. induction n as [|n IH]; simpl; [lia | rewrite <- IH; lia]. Qed.

Lemma sum_below_mul_r (n : nat) (x : Z) (f : Z -> Z) :
  sum_below n f * x = sum_below n (fun k => f k * x).
Proof. induction n as [|n IH]; simpl; [lia | rewrite <- IH; lia]. Qed.

Lemma sum_below_swap (n p : nat) (F : Z -> Z -> Z) :
  sum_below n (fun k => sum_below p (fun l => F k l))
  = sum_below p (fun l => sum_below n (fun k => F k l)).
Proof.
  induction n as [|n IH]; simpl.
  - rewrite sum_below_zero. reflexivity.
  - rewrite IH, <- sum_below_add. reflexivity.
Qed.

(** X6.  [multiply] distributes over [add] on both sides, up to the order of
    the dict: [A * (B + C)] has the dimensions and entries of
    [A * B + A * C], and [(A + B) * C] those of [A * C + B * C]. *)
Theorem multiply_distributes (fs : FileSystem) (a b c : SparseMatrix)
    (Ha : matrix a) (Hb : matrix b) (Hc : matrix c) :
  (cols a = rows b -> rows b = rows c -> cols b = cols c ->
   exists bc l ab ac r,
     add fs b c = inr bc /\ multiply fs a bc = inr l
     /\ multiply fs a b = inr ab /\ multiply fs a c = inr ac
     /\ add fs ab ac = inr r
     /\ rows l = rows r /\ cols l = cols r /\ same_entries l r)
  /\ (rows a = rows b -> cols a = cols b -> cols a = rows c ->
      exists ab l ac bc r,
        add fs a b = inr ab /\ multiply fs ab c = inr l
        /\ multiply fs a c = inr ac /\ multiply fs b c = inr bc
        /\ add fs ac bc = inr r
        /\ rows l = rows r /\ cols l = cols r /\ same_entries l r).
Proof.
  split.
  - intros Hab Hrbc Hcbc.
    destruct (add_matrix fs b c Hb Hc Hrbc Hcbc)
      as [bc [Hbc [Hr1 [Hc1 [Hm1 Hv1]]]]].
    destruct (multiply_matrix fs a bc Ha Hm1) as [l [Hl [Hr2 [Hc2 [Hm2 Hv2]]]]];
      [congruence|].
    destruct (multiply_matrix fs a b Ha Hb Hab)
      as [ab [Hab' [Hr3 [Hc3 [Hm3 Hv3]]]]].
    destruct (multiply_matrix fs a c Ha Hc) as [ac [Hac [Hr4 [Hc4 [Hm4 Hv4]]]]];
      [congruence|].
    destruct (add_matrix fs ab ac Hm3 Hm4) as [r [Hr [Hr5 [Hc5 [Hm5 Hv5]]]]];
      [congruence | congruence|].
    exists bc, l, ab, ac, r. repeat (split; [assumption || congruence|]).
    apply same_values_same_entries; [assumption | assumption|].
    intros i j. rewrite Hv2, Hv5, Hv3, Hv4. unfold sum_range.
    rewrite <- sum_below_add. apply sum_below_ext.
    intros k _. rewrite Hv1. lia.
  - intros Hrab Hcab Hac.
    destruct (add_matrix fs a b Ha Hb Hrab Hcab)
      as [ab [Hab [Hr1 [Hc1 [Hm1 Hv1]]]]].
    destruct (multiply_matrix fs ab c Hm1 Hc) as [l [Hl [Hr2 [Hc2 [Hm2 Hv2]]]]];
      [congruence|].
    destruct (multiply_matrix fs a c Ha Hc Hac)
      as [ac [Hac' [Hr3 [Hc3 [Hm3 Hv3]]]]].
    destruct (multiply_matrix fs b c Hb Hc) as [bc [Hbc [Hr4 [Hc4 [Hm4 Hv4]]]]];
      [congruence|].
    destruct (add_matrix fs ac bc Hm3 Hm4) as [r [Hr [Hr5 [Hc5 [Hm5 Hv5]]]]];
      [congruence | congruence|].
    exists ab, l, ac, bc, r. repeat (split; [assumption || congruence|]).
    apply same_values_same_entries; [assumption | assumption|].
    intros i j. rewrite Hv2, Hv5, Hv3, Hv4, Hc1, <- Hcab. unfold sum_range.
    rewrite <- sum_below_add. apply sum_below_ext.
    intros k _. rewrite Hv1. lia.
Qed.

Lemma multiply_distributes_witness :
  matrix scenario_A /\ matrix scenario_B
  /\ exists bc l ab ac r,
       add no_files scenario_B scenario_A = inr bc
       /\ multiply no_files scenario_A bc = inr l
       /\ multiply no_files scenario_A scenario_B = inr ab
       /\ multiply no_files scenario_A scenario_A = inr ac
       /\ add no_files ab ac = inr r
       /\ rows l = rows r /\ cols l = cols r /\ same_entries l r.
Proof.
  split; [apply scenario_A_matrix|]. split; [apply scenario_B_matrix|].
  apply (proj1 (multiply_distributes no_files scenario_A scenario_B scenario_A
                  scenario_A_matrix scenario_B_matrix scenario_A_matrix));
    reflexivity.
Defined.

(** X7.  [multiply] is associative up to the order of the dict: for
    compatible matrices, [(A * B) * C] and [A * (B * C)] both return, with
    the same dimensions and the same set of entries. *)
Theorem multiply_associative (fs : FileSystem) (a b c : SparseMatrix)
    (Ha : matrix a) (Hb : matrix b) (Hc : matrix c)
    (Hab : cols a = rows b) (Hbc : cols b = rows c) :
  exists ab l bc r,
    multiply fs a b = inr ab /\ multiply fs ab c = inr l
    /\ multiply fs b c = inr bc /\ multiply fs a bc = inr r
    /\ rows l = rows r /\ cols l = cols r
    /\ same_entries l r.
Proof.
  destruct (multiply_matrix fs a b Ha Hb Hab)
    as [ab [Hab' [Hr1 [Hc1 [Hm1 Hv1]]]]].
  destruct (multiply_matrix fs ab c Hm1 Hc) as [l [Hl [Hr2 [Hc2 [Hm2 Hv2]]]]];
    [congruence|].
  destruct (multiply_matrix fs b c Hb Hc Hbc)
    as [bc [Hbc' [Hr3 [Hc3 [Hm3 Hv3]]]]].
  destruct (multiply_matrix fs a bc Ha Hm3) as [r [Hr [Hr4 [Hc4 [Hm4 Hv4]]]]];
    [congruence|].
  exists ab, l, bc, r. repeat (split; [assumption || congruence|]).
  apply same_values_same_entries; [assumption | assumption|].
  intros i j. rewrite Hv2, Hv4, Hc1. unfold sum_range.
  rewrite (sum_below_ext (Z.to_nat (cols b))
             (fun k => value_at ab i k * value_at c k j)
             (fun k => sum_below (Z.to_nat (cols a))
                         (fun l0 => value_at a i l0 * value_at b l0 k
                                    * value_at c k j))).
  2:{ intros k _. rewrite Hv1. unfold sum_range. apply sum_below_mul_r. }
  rewrite sum_below_swap. apply sum_below_ext.
  intros l0 _. rewrite Hv3. unfold sum_range. rewrite sum_below_mul_l.
  apply sum_below_ext. intros k _. lia.
Qed.

Lemma multiply_associative_witness :
  matrix scenario_A /\ matrix scenario_B
  /\ exists ab l bc r,
       multiply no_files scenario_A scenario_B = inr ab
       /\ multiply no_files ab scenario_A = inr l
       /\ multiply no_files scenario_B scenario_A = inr bc
       /\ multiply no_files scenario_A bc = inr r
       /\ rows l = rows r /\ cols l = cols r
       /\ same_entries l r.
Proof.
  split; [apply scenario_A_matrix|]. split; [apply scenario_B_matrix|].
  apply (multiply_associative no_files scenario_A scenario_B scenario_A
           scenario_A_matrix scenario_B_matrix scenario_A_matrix);
    reflexivity.
Defined.

(** X8.  [multiply] with an operand that holds no entry returns the matrix
    of dimensions [A.rows x B.cols] with an empty dict. *)
Theorem multiply_empty (fs : FileSystem) (a b : SparseMatrix)
    (Ha : matrix a) (Hb : matrix b) (Hinner : cols a = rows b)
    (Hempty : matrix_data a = [] \/ matrix_data b = []) :
  multiply fs a b = inr (mkSparseMatrix (rows a) (cols b) []).
Proof.
  destruct (multiply_matrix fs a b Ha Hb Hinner)
    as [m [Hm [Hr [Hc [Hmat Hv]]]]].
  rewrite Hm. f_equal. rewrite (matrix_eta m), Hr, Hc. f_equal.
  apply matrix_all_zero_empty; [exact Hmat|].
  intros i j. rewrite Hv. unfold sum_range.
  rewrite <- (sum_below_zero (Z.to_nat (cols a))). apply sum_below_ext.
  intros k _. unfold value_at, dict_get.
  destruct Hempty as [-> | ->]; simpl; lia.
Qed.

Lemma multiply_empty_witness :
  matrix scenario_A /\ matrix (mkSparseMatrix 2 5 [])
  /\ multiply no_files scenario_A (mkSparseMatrix 2 5 [])
     = inr (mkSparseMatrix 2 5 []).
Proof.
  assert (Hb : matrix (mkSparseMatrix 2 5 [])) by (apply empty_matrix; lia).
  split; [apply scenario_A_matrix|]. split; [exact Hb|].
  apply (multiply_empty no_files scenario_A (mkSparseMatrix 2 5 [])
           scenario_A_matrix Hb eq_refl).
  right. reflexivity.
Defined.

(** ** [setElement] *)

(** X9.  [setElement] keeps the dimensions and the dict property, leaves
    every other coordinate as it was, leaves the whole instance as it was when
    it raises, and a second [setElement] at the same coordinate makes the first
    one invisible. *)
Theorem setElement_frame (m : SparseMatrix) (r c v : Z)
    (Hdict : dict_ok (matrix_data m)) :
  rows (snd (setElement r c v m)) = rows m
  /\ cols (snd (setElement r c v m)) = cols m
  /\ dict_ok (matrix_data (snd (setElement r c v m)))
  /\ (forall r' c',
        (r', c') <> (r, c) ->
        dict_find (matrix_data (snd (setElement r c v m))) (r', c')
        = dict_find (matrix_data m) (r', c'))
  /\ (forall e, fst (setElement r c v m) = inl e ->
                snd (setElement r c v m) = m)
  /\ (forall v' k,
        dict_find
          (matrix_data (snd ((setElement r c v ;; setElement r c v') m))) k
        = dict_find (matrix_data (snd (setElement r c v' m))) k).
Proof.
  destruct (in_bounds m r c) eqn:Hin.
  - destruct (setElement_in m r c v Hin) as [d' [Hset [_ Hfind]]].
    destruct (Hfind Hdict) as [Hok' Hfind'].
    rewrite Hset. cbn [snd fst rows cols matrix_data].
    split; [reflexivity|]. split; [reflexivity|]. split; [exact Hok'|].
    split; [|split; [discriminate|]].
    + intros r' c' Hne. rewrite Hfind'.
      rewrite (proj2 (key_eqb_neq (r', c') (r, c)) Hne). reflexivity.
    + intros v' k. unfold bind. rewrite Hset.
      assert (Hin' : in_bounds (mkSparseMatrix (rows m) (cols m) d') r c = true)
        by exact Hin.
      destruct (setElement_in _ r c v' Hin') as [d2 [Hset2 [_ Hfind2]]].
      destruct (setElement_in m r c v' Hin) as [d3 [Hset3 [_ Hfind3]]].
      rewrite Hset2, Hset3. cbn [snd matrix_data].
      rewrite (proj2 (Hfind2 Hok')), (proj2 (Hfind3 Hdict)), Hfind'.
      cbn [matrix_data]. destruct (key_eqb k (r, c)); reflexivity.
  - rewrite setElement_out by assumption. cbn [snd fst].
    split; [reflexivity|]. split; [reflexivity|]. split; [exact Hdict|].
    split; [reflexivity|]. split; [reflexivity|].
    intros v' k. unfold bind.
    rewrite !setElement_out by assumption. reflexivity.
Qed.

Lemma setElement_frame_witness :
  dict_ok (matrix_data scenario_A)
  /\ dict_find (matrix_data (snd (setElement 0 1 9 scenario_A))) (1, 1)
     = dict_find (matrix_data scenario_A) (1, 1).
Proof.
  assert (H : dict_ok (matrix_data scenario_A)) by apply scenario_A_matrix.
  split; [exact H|].
  apply (setElement_frame scenario_A 0 1 9 H). discriminate.
Defined.

(** ** Construction *)

Lemma load_header_state (lines : list str) (m1 m2 : SparseMatrix) :
  matrix_data m1 = matrix_data m2 ->
  fst (load_header lines m1) = fst (load_header lines m2)
  /\ (fst (load_header lines m1) = inr tt ->
      snd (load_header lines m1) = snd (load_header lines m2)).
Proof.
  intros Hd.
  destruct (load_header lines m1) as [r1 s1] eqn:E1.
  destruct (load_header lines m2) as [r2 s2] eqn:E2.
  apply load_header_inv in E1 as [[-> [n1 [c1 [Hok1 ->]]]]|[-> Hbad1]];
    apply load_header_inv in E2 as [[-> [n2 [c2 [Hok2 ->]]]]|[-> Hbad2]];
    cbn [fst snd].
  - destruct (header_ok_fun _ _ _ _ _ Hok1 Hok2) as [-> ->].
    rewrite Hd. auto.
  - exfalso. exact (Hbad2 _ _ Hok1).
  - exfalso. exact (Hbad1 _ _ Hok2).
  - split; [reflexivity | discriminate].
Qed.

(** X10.  How the constructor dispatches.  Without a path, or with the empty
    path, it checks the dimensions: a non-positive one raises the dimension
    error, otherwise the result is the empty matrix, where every in-bounds
    [getElement] returns 0.  With a path that does not exist it raises the
    not-found error.  With any non-empty path the arguments [numRows] and
    [numCols] have no influence on the outcome. *)
Theorem init_dispatch (fs : FileSystem) (numRows numCols : Z) :
  (forall matrixFilePath,
     matrixFilePath = None \/ matrixFilePath = Some [] ->
     (numRows <= 0 \/ numCols <= 0 ->
      __init__ fs matrixFilePath numRows numCols
      = inl (ValueError, msg_empty_dims)
      /\ kind_of (ValueError, msg_empty_dims) = Some InvalidDimension)
     /\ (0 < numRows /\ 0 < numCols ->
         __init__ fs matrixFilePath numRows numCols
         = inr (mkSparseMatrix numRows numCols [])
         /\ forall r c,
              0 <= r < numRows -> 0 <= c < numCols ->
              fst (getElement r c (mkSparseMatrix numRows numCols []))
              = inr 0))
  /\ (forall path,
        path <> [] ->
        (fs path = Missing ->
         __init__ fs (Some path) numRows numCols
         = inl (FileNotFoundError, msg_not_found path)
         /\ kind_of (FileNotFoundError, msg_not_found path)
            = Some SourceNotFound)
        /\ forall numRows' numCols',
             __init__ fs (Some path) numRows' numCols'
             = __init__ fs (Some path) numRows numCols).
Proof.
  split.
  - intros p Hp.
    assert (E : __init__ fs p numRows numCols
                = if (numRows <=? 0) || (numCols <=? 0)
                  then inl (ValueError, msg_empty_dims)
                  else inr (mkSparseMatrix numRows numCols []))
      by (destruct Hp as [-> | ->]; reflexivity).
    rewrite E. split.
    + intros Hbad. split; [|reflexivity].
      destruct (Z.leb_spec numRows 0); [reflexivity|].
      destruct (Z.leb_spec numCols 0); [reflexivity | lia].
    + intros [Hr Hc].
      destruct (Z.leb_spec numRows 0); [lia|].
      destruct (Z.leb_spec numCols 0); [lia|].
      split; [reflexivity|].
      intros r c Hr' Hc'. rewrite getElement_in; [reflexivity|].
      apply in_bounds_iff. simpl. auto.
  - intros path Hpath. split.
    + intros Hnone. split; [apply init_missing; assumption | reflexivity].
    + intros nr' nc'. destruct (fs path) as [|cls|text] eqn:Hfs.
      * rewrite !init_missing by assumption. reflexivity.
      * rewrite !(init_unreadable fs path cls) by assumption. reflexivity.
      * rewrite !(init_file fs path text) by assumption.
        unfold returning, bind.
        destruct (load_header_state (readlines text)
                    (mkSparseMatrix nr' nc' []) (mkSparseMatrix numRows numCols [])
                    eq_refl) as [Hfst Hsnd].
        destruct (load_header (readlines text) (mkSparseMatrix nr' nc' []))
          as [r1 s1].
        destruct (load_header (readlines text) (mkSparseMatrix numRows numCols []))
          as [r2 s2].
        cbn [fst snd] in Hfst, Hsnd. subst r2.
        destruct r1 as [e|[]]; [reflexivity|].
        rewrite (Hsnd eq_refl). reflexivity.
Qed.

(** ** The loader *)

Lemma load_header_firstn (lines : list str) (m : SparseMatrix) :
  load_header lines m = load_header (firstn 2 lines) m.
Proof.
  rewrite !load_header_eq. destruct lines as [|l0 [|l1 rest]]; reflexivity.
Qed.

Lemma is_blank_iff (l : str) : is_blank l = true <-> blank_line l.
Proof.
  unfold is_blank, blank_line. destruct (strip l); split; congruence.
Qed.

Lemma load_loop_filter_blank (ls : list str) (m : SparseMatrix) :
  for_each (filter (fun l => negb (is_blank l)) ls) load_entry m
  = for_each ls load_entry m.
Proof.
  revert m. induction ls as [|l ls IH]; intros m; [reflexivity|].
  cbn [filter]. destruct (is_blank l) eqn:Hb; cbn [negb].
  - rewrite (for_each_cons l ls).
    rewrite (load_entry_blank l m (proj1 (is_blank_iff l) Hb)). apply IH.
  - rewrite !for_each_cons. destruct (load_entry l m) as [[e|[]] m1];
      [reflexivity | apply IH].
Qed.

(** X11.  Blank lines among the entry lines are skipped: two files with the
    same two header lines whose entry lines agree once the blank ones are
    dropped give the same outcome, matrix or error. *)
Theorem load_blank_lines_skipped (fs1 fs2 : FileSystem)
    (path1 path2 text1 text2 : str) (numRows numCols : Z)
    (Hp1 : path1 <> []) (Hp2 : path2 <> [])
    (Hfs1 : fs1 path1 = Text text1) (Hfs2 : fs2 path2 = Text text2)
    (Hheader : firstn 2 (readlines text1) = firstn 2 (readlines text2))
    (Hentries :
       filter (fun l => negb (is_blank l)) (skipn 2 (readlines text1))
       = filter (fun l => negb (is_blank l)) (skipn 2 (readlines text2))) :
  __init__ fs1 (Some path1) numRows numCols
  = __init__ fs2 (Some path2) numRows numCols.
Proof.
  rewrite (init_file fs1 path1 text1 numRows numCols Hp1 Hfs1).
  rewrite (init_file fs2 path2 text2 numRows numCols Hp2 Hfs2).
  unfold returning, bind.
  rewrite (load_header_firstn (readlines text1)), Hheader,
    <- (load_header_firstn (readlines text2)).
  destruct (load_header (readlines text2) (mkSparseMatrix numRows numCols []))
    as [[e|[]] m1]; [reflexivity|].
  rewrite <- (load_loop_filter_blank (skipn 2 (readlines text1))), Hentries,
    load_loop_filter_blank.
  reflexivity.
Qed.

Lemma load_blank_lines_skipped_witness :
  __init__ (fun _ => Text blank_text) (Some (lit "a.txt")) 0 0
  = __init__ (fun _ => Text dense_text) (Some (lit "b.txt")) 0 0
  /\ __init__ (fun _ => Text blank_text) (Some (lit "a.txt")) 0 0
     = inr (mkSparseMatrix 2 2 [((0, 1), 7); ((1, 0), -3)]).
Proof.
  split; [|vm_compute; reflexivity].
  apply (load_blank_lines_skipped (fun _ => Text blank_text)
           (fun _ => Text dense_text) (lit "a.txt") (lit "b.txt")
           blank_text dense_text 0 0);
    solve [discriminate | reflexivity].
Defined.

Lemma load_loop_entries (ls : list str) :
  forall m m',
    for_each ls load_entry m = (inr tt, m') ->
    forall r c v,
      In ((r, c), v) (matrix_data m') ->
      In ((r, c), v) (matrix_data m)
      \/ exists l, In l ls /\ entry_line_of l r c v.
Proof.
  induction ls as [|l ls IH]; intros m m' H r c v Hin.
  - inversion H; subst. left; exact Hin.
  - rewrite for_each_cons in H.
    destruct (load_entry l m) as [[e|[]] m1] eqn:H1; [discriminate|].
    destruct (IH m1 m' H r c v Hin) as [Hin1|[l' [Hl' He]]].
    + apply load_entry_ok_inv in H1 as [[_ ->]|[r0 [c0 [v0 [He [_ ->]]]]]];
        [left; exact Hin1|].
      destruct (v0 =? 0); [left; exact Hin1|].
      cbn [matrix_data] in Hin1. apply In_setitem in Hin1 as [Heq|Hin1].
      * inversion Heq; subst. right. exists l. split; [left; reflexivity|exact He].
      * left; exact Hin1.
    + right. exists l'. split; [right; exact Hl' | exact He].
Qed.

(** X12.  A loaded matrix has the dimensions of the header and holds nothing
    the file does not say: every stored entry is the entry of some line after
    the header. *)
Theorem load_entries_from_lines (fs : FileSystem) (path text : str)
    (numRows numCols : Z) (m : SparseMatrix)
    (Hpath : path <> []) (Hfs : fs path = Text text)
    (Hinit : __init__ fs (Some path) numRows numCols = inr m) :
  header_ok (readlines text) (rows m) (cols m)
  /\ forall r c v,
       In ((r, c), v) (items (matrix_data m)) ->
       exists l, In l (skipn 2 (readlines text)) /\ entry_line_of l r c v.
Proof.
  destruct (init_file_cases fs path text numRows numCols Hpath Hfs)
    as [[E _]|[nR [nC [Hok [res [m' [Hloop E]]]]]]]; [congruence|].
  rewrite E in Hinit. destruct res as [e|[]]; [discriminate|].
  inversion Hinit; subst m'.
  destruct (load_loop_ok_inv _ _ _ Hloop) as [Hr [Hc _]].
  cbn [rows cols] in Hr, Hc. rewrite Hr, Hc. split; [exact Hok|].
  intros r c v Hin.
  destruct (load_loop_entries _ _ _ Hloop r c v Hin) as [[]|H]; exact H.
Qed.

Lemma load_entries_from_lines_witness :
  lit "m.txt" <> []
  /\ header_ok (readlines dup_text) 2 2.
Proof.
  assert (Hp : lit "m.txt" <> []) by discriminate.
  split; [exact Hp|].
  exact (proj1 (load_entries_from_lines dup_files (lit "m.txt") dup_text 0 0
                  (mkSparseMatrix 2 2 [((0, 0), 5)]) Hp eq_refl
                  dup_text_loaded)).
Defined.

(** ** Serialization, again *)

(** Loading the text [to_string] wrote for a matrix gives its dimensions and
    its entries in sorted key order. *)
Lemma load_serialized (fs : FileSystem) (path : str) (numRows numCols : Z)
    (m : SparseMatrix) :
  matrix m -> printable_matrix m = true -> path <> [] ->
  fs path
  = Text (serialized (rows m) (cols m)
            (map (fun k => (k, dict_get (matrix_data m) k 0))
               (sorted (keys (matrix_data m))))) ->
  __init__ fs (Some path) numRows numCols
  = inr (mkSparseMatrix (rows m) (cols m)
           (map (fun k => (k, dict_get (matrix_data m) k 0))
              (sorted (keys (matrix_data m))))).
Proof.
  intros Hm Hpm Hpath Hfs.
  unfold printable_matrix in Hpm.
  apply andb_true_iff in Hpm as [Hpm Hpe].
  apply andb_true_iff in Hpm as [Hpr Hpc].
  pose proof (sorted_entries_perm (matrix_data m) (proj1 Hm)) as Hp.
  set (es := map (fun k => (k, dict_get (matrix_data m) k 0))
               (sorted (keys (matrix_data m)))) in *.
  destruct Hm as [Hok [Hr [Hc Hall]]].
  rewrite (init_file fs path _ numRows numCols Hpath Hfs).
  unfold returning, bind.
  rewrite (load_header_ok _ (rows m) (cols m) _
             (header_ok_serialized (rows m) (cols m) es Hr Hc Hpr Hpc)).
  rewrite readlines_serialized. cbn [skipn matrix_data].
  rewrite load_loop_entry_lines; [reflexivity | | |].
  - cbn [matrix_data app]. unfold dict_ok, keys in *.
    eapply Permutation_NoDup; [|exact Hok].
    apply Permutation_map, Permutation_sym, Hp.
  - eapply Permutation_Forall; [apply Permutation_sym, Hp|].
    eapply Forall_impl; [|exact Hall]. intros e He. exact He.
  - rewrite (forallb_perm printable_entry _ _ Hp). exact Hpe.
Qed.

Lemma inr_eq {A B} (x y : B) : @inr A B x = inr y -> x = y.
Proof. intros H; inversion H; reflexivity. Qed.

(** X13.  [to_string] loses nothing: two matrices with the same text have the
    same dimensions and the same set of entries. *)
Theorem to_string_injective (m1 m2 : SparseMatrix) (text : str)
    (H1 : matrix m1) (H2 : matrix m2)
    (Htext1 : fst (to_string m1) = inr text)
    (Htext2 : fst (to_string m2) = inr text) :
  rows m1 = rows m2 /\ cols m1 = cols m2 /\ same_entries m1 m2.
Proof.
  apply (to_string_text m1 text (proj1 H1)) in Htext1 as [Hp1 Ht1].
  apply (to_string_text m2 text (proj1 H2)) in Htext2 as [Hp2 Ht2].
  assert (Hp : lit "m" <> []) by discriminate.
  pose proof (load_serialized (fun _ => Text text) (lit "m") 0 0 m1 H1 Hp1 Hp
                (f_equal Text Ht1)) as L1.
  pose proof (load_serialized (fun _ => Text text) (lit "m") 0 0 m2 H2 Hp2 Hp
                (f_equal Text Ht2)) as L2.
  rewrite L2 in L1. inversion L1 as [[Hr Hc He]].
  split; [congruence|]. split; [congruence|].
  unfold same_entries, items.
  eapply Permutation_trans;
    [apply Permutation_sym, (sorted_entries_perm _ (proj1 H1))|].
  rewrite <- He. apply sorted_entries_perm, H2.
Qed.

Lemma to_string_injective_witness :
  matrix scenario_A
  /\ matrix (mkSparseMatrix 2 2 [((1, 1), 2); ((0, 0), 1)])
  /\ same_entries scenario_A (mkSparseMatrix 2 2 [((1, 1), 2); ((0, 0), 1)]).
Proof.
  assert (H2 : matrix (mkSparseMatrix 2 2 [((1, 1), 2); ((0, 0), 1)])).
  { split; [|split; [reflexivity|split; [reflexivity|]]].
    - repeat constructor; simpl; intuition congruence.
    - repeat constructor; simpl; lia. }
  split; [apply scenario_A_matrix|]. split; [exact H2|].
  apply (to_string_injective scenario_A _
           (lit "rows=2" ++ LF ++ lit "cols=2" ++ LF
            ++ lit "(0, 0, 1)" ++ LF ++ lit "(1, 1, 2)" ++ LF)
           scenario_A_matrix H2); reflexivity.
Defined.

(** X14.  Writing, loading and writing again gives the same text: for any
    matrix, the matrix loaded from its text has that very text. *)
Theorem to_string_load_to_string (fs : FileSystem) (path text : str)
    (numRows numCols : Z) (m : SparseMatrix)
    (Hm : matrix m) (Hpath : path <> [])
    (Htext : fst (to_string m) = inr text) (Hfs : fs path = Text text) :
  exists m',
    __init__ fs (Some path) numRows numCols = inr m'
    /\ fst (to_string m') = inr text.
Proof.
  pose proof Htext as Htext'.
  apply (to_string_text m text (proj1 Hm)) in Htext as [Hpm Htext].
  rewrite Htext in Hfs.
  pose proof (load_serialized fs path numRows numCols m Hm Hpm Hpath Hfs) as L.
  eexists. split; [exact L|].
  pose proof (sorted_entries_perm (matrix_data m) (proj1 Hm)) as Hp.
  pose proof (proj1 (same_entries_matrix
                       (mkSparseMatrix (rows m) (cols m)
                          (map (fun k => (k, dict_get (matrix_data m) k 0))
                             (sorted (keys (matrix_data m)))))
                       m Hm eq_refl eq_refl Hp)) as Hm'.
  rewrite (to_string_same_entries m _ Hm Hm' eq_refl eq_refl Hp).
  exact Htext'.
Qed.

Lemma to_string_load_to_string_witness :
  matrix scenario_A
  /\ exists text m',
       fst (to_string scenario_A) = inr text
       /\ __init__ (fun _ => Text text) (Some (lit "m.txt")) 0 0 = inr m'
       /\ fst (to_string m') = inr text.
Proof.
  split; [apply scenario_A_matrix|].
  assert (Hp : lit "m.txt" <> []) by discriminate.
  eexists.
  destruct (to_string_load_to_string
              (fun _ => Text _) (lit "m.txt") _ 0 0 scenario_A
              scenario_A_matrix Hp eq_refl eq_refl) as [m' [H1 H2]].
  exists m'. split; [reflexivity|]. split; [exact H1 | exact H2].
Defined.

(** ** Size *)

Lemma in_all_coords (nrows ncols r c : Z) :
  0 <= r < nrows -> 0 <= c < ncols -> In (r, c) (all_coords nrows ncols).
Proof.
  intros Hr Hc. unfold all_coords. apply in_prod; apply in_map_iff.
  - exists (Z.to_nat r). split; [lia|]. apply in_seq. lia.
  - exists (Z.to_nat c). split; [lia|]. apply in_seq. lia.
Qed.

(** X15.  A reachable matrix never stores more entries than it has
    coordinates: the length of the dict is at most [rows * cols]. *)
Theorem entries_bounded (m : SparseMatrix) (Hreach : reachable m) :
  Z.of_nat (length (items (matrix_data m))) <= rows m * cols m.
Proof.
  destruct (reachable_matrix m Hreach) as [Hok [Hr [Hc Hall]]].
  assert (Hlen : (length (keys (matrix_data m))
                  <= length (all_coords (rows m) (cols m)))%nat).
  { apply NoDup_incl_length; [exact Hok|].
    intros [r c] Hin. unfold keys in Hin. apply in_map_iff in Hin.
    destruct Hin as [[[r' c'] v] [Heq Hin]]. simpl in Heq. inversion Heq; subst.
    rewrite Forall_forall in Hall. destruct (Hall _ Hin) as [_ [H1 H2]].
    apply in_all_coords; assumption. }
  unfold keys, all_coords in Hlen.
  rewrite length_map, length_prod, !length_map, !length_seq in Hlen.
  unfold items. nia.
Qed.

Lemma entries_bounded_witness :
  reachable (snd (setElement 0 1 7 (mkSparseMatrix 2 3 [])))
  /\ Z.of_nat (length (items (matrix_data
                                (snd (setElement 0 1 7 (mkSparseMatrix 2 3 []))))))
     <= 2 * 3.
Proof.
  assert (H : reachable (snd (setElement 0 1 7 (mkSparseMatrix 2 3 [])))).
  { apply reach_setElement. apply (reach_init no_files None 2 3). reflexivity. }
  split; [exact H|].
  apply (entries_bounded _ H).
Defined.

(** ** The command-line loop *)

Lemma str_eqb_eq (a b : str) : str_eqb a b = true <-> a = b.
Proof.
  revert b. induction a as [|x a IH]; intros [|y b]; simpl;
    try (split; [discriminate | discriminate]); [tauto|].
  rewrite andb_true_iff, Ascii.eqb_eq, IH.
  split; [intros [-> ->]; reflexivity | intros H; inversion H; auto].
Qed.

Lemma str_eqb_refl (a : str) : str_eqb a a = true.
Proof. apply str_eqb_eq. reflexivity. Qed.

(** Construction raises nothing but [ValueError] and [FileNotFoundError], the
    two classes the loop of [main] catches, unless the file exists and
    cannot be read: then it raises what reading raised. *)
Lemma init_error_class (fs : FileSystem) (p : option str) (nr nc : Z) (e : exn) :
  __init__ fs p nr nc = inl e ->
  existsb (exn_class_eqb (fst e)) [FileNotFoundError; ValueError] = true
  \/ exists path c,
       p = Some path /\ fs path = Unreadable c /\ e = (c, msg_builtin).
Proof.
  intros H.
  assert (Hexplicit :
    (if (nr <=? 0) || (nc <=? 0)
     then inl (ValueError, msg_empty_dims)
     else inr (mkSparseMatrix nr nc [])) = inl e ->
    existsb (exn_class_eqb (fst e)) [FileNotFoundError; ValueError] = true).
  { destruct ((nr <=? 0) || (nc <=? 0)); [|discriminate].
    intros E; inversion E; reflexivity. }
  destruct p as [[|ch p]|];
    [left; exact (Hexplicit H) | | left; exact (Hexplicit H)].
  destruct (fs (ch :: p)) as [|cls|text] eqn:Hfs.
  - left. rewrite init_missing in H by (discriminate || assumption).
    inversion H; reflexivity.
  - right. rewrite (init_unreadable fs (ch :: p) cls) in H
      by (discriminate || assumption).
    inversion H; subst. exists (ch :: p), cls. auto.
  - left.
    destruct (init_file_cases fs (ch :: p) text nr nc)
      as [[E _]|[nR [nC [_ [r [m [Hloop E]]]]]]];
      [discriminate | exact Hfs | |].
    + rewrite E in H. inversion H; reflexivity.
    + rewrite E in H. destruct r as [e'|[]]; [|discriminate].
      inversion H; subst e'.
      destruct (load_loop_err_inv _ _ _ _ Hloop)
        as [_ [_ [_ [_ [_ [[_ Hk]|[r0 [c0 [v0 [_ [_ ->]]]]]]]]]]].
      * destruct e as [[] []]; simpl in Hk; try discriminate; reflexivity.
      * unfold entry_bounds_error.
        destruct (message_printable _ r0 c0); reflexivity.
Qed.

Lemma last_Forall {A} (P : A -> Prop) (l : list A) (d : A) :
  Forall P l -> P d -> P (last l d).
Proof.
  induction l as [|x l IH]; intros Hl Hd; [exact Hd|].
  inversion Hl; subst. destruct l as [|y l']; [assumption|].
  apply IH; assumption.
Qed.

Lemma basename_no_slash (p : str) : ~ In "/"%char (basename p).
Proof.
  unfold basename.
  apply (last_Forall (fun s => ~ In "/"%char s)); [|simpl; tauto].
  apply split_no_sep_parts.
Qed.

Lemma split_head_subset (sep c : ascii) (s : str) :
  In c (nth 0 (split sep s) []) -> In c s.
Proof.
  intros H. rewrite <- (join_split sep s).
  destruct (split sep s) as [|p [|q ps]]; simpl in *; [tauto | exact H|].
  apply in_or_app. left; exact H.
Qed.

Lemma stem_no_slash (p : str) :
  ~ In "/"%char (nth 0 (split "."%char (basename p)) []).
Proof.
  intros H. apply split_head_subset in H. exact (basename_no_slash p H).
Qed.

Lemma output_filename_no_slash (name f1 f2 : str) :
  ~ In "/"%char (lower name) ->
  ~ In "/"%char (output_filename name f1 f2).
Proof.
  intros Hname H. unfold output_filename in H.
  repeat (apply in_app_or in H as [H|H]);
    first [ exact (Hname H)
          | exact (stem_no_slash f1 H)
          | exact (stem_no_slash f2 H)
          | simpl in H; intuition discriminate ].
Qed.

Lemma output_filepath_eq (name f1 f2 : str) :
  path_join output_dir (output_filename name f1 f2)
  = output_dir ++ lit "/" ++ output_filename name f1 f2.
Proof. reflexivity. Qed.

Section CommandLineFacts.

Variable World : Type.
Variable read : World -> FileSystem.
Variable makedirs : World -> str -> option str * World.
Variable write_file : World -> str -> str -> option str * World.

Abbreviation touched' := (touched World makedirs write_file).
Abbreviation operate' := (operate World read makedirs write_file).
Abbreviation main_loop' := (main_loop World read makedirs write_file).
Abbreviation computed' := (computed World read).

Lemma touched_trans (w w1 w2 : World) :
  touched' w w1 -> touched' w1 w2 -> touched' w w2.
Proof.
  intros H1 H2. induction H2 as [|w' _ IH|w' name m text _ IH Hn Hm Ht].
  - exact H1.
  - apply touched_makedirs. exact IH.
  - eapply touched_write; eassumption.
Qed.

Lemma load_pair_reachable (w : World) (f1 f2 : str) (ev : list event)
    (m1 m2 : SparseMatrix) :
  load_pair World read w f1 f2 = (ev, inr (m1, m2)) ->
  reachable m1 /\ reachable m2.
Proof.
  unfold load_pair. intros H.
  destruct (__init__ (read w) (Some (path_join base_input_path f1)) 0 0)
    as [e|a] eqn:E1; [discriminate|].
  destruct (__init__ (read w) (Some (path_join base_input_path f2)) 0 0)
    as [e|b] eqn:E2; [discriminate|].
  inversion H; subst. split; eapply reach_init; eassumption.
Qed.

Lemma load_pair_error_class (w : World) (f1 f2 : str) (ev : list event)
    (e : exn) :
  load_pair World read w f1 f2 = (ev, inl e) ->
  existsb (exn_class_eqb (fst e)) [FileNotFoundError; ValueError] = true
  \/ exists f c,
       (f = f1 \/ f = f2)
       /\ read w (path_join base_input_path f) = Unreadable c
       /\ e = (c, msg_builtin).
Proof.
  unfold load_pair. intros H.
  destruct (__init__ (read w) (Some (path_join base_input_path f1)) 0 0)
    as [e1|a] eqn:E1.
  - inversion H; subst.
    destruct (init_error_class _ _ _ _ _ E1) as [Hc|[path [c [Hp [Hfs ->]]]]];
      [left; exact Hc|].
    inversion Hp; subst path. right. exists f1, c. auto.
  - destruct (__init__ (read w) (Some (path_join base_input_path f2)) 0 0)
      as [e2|b] eqn:E2; [|discriminate].
    inversion H; subst.
    destruct (init_error_class _ _ _ _ _ E2) as [Hc|[path [c [Hp [Hfs ->]]]]];
      [left; exact Hc|].
    inversion Hp; subst path. right. exists f2, c. auto.
Qed.

Lemma computed_reachable (w : World) (choice : str)
    (m1 m2 result : SparseMatrix) :
  reachable m1 -> reachable m2 -> computed' w choice m1 m2 result ->
  reachable result.
Proof.
  intros H1 H2 [[_ H]|[[_ H]|[_ H]]].
  - exact (reach_add _ _ _ _ H1 H2 H).
  - exact (reach_subtract _ _ _ _ H1 H2 H).
  - exact (reach_multiply _ _ _ _ H1 H2 H).
Qed.

(** The outcomes of [operate]: nothing done to the disk, or the result
    computed, printed, and the directory and the file attempted in turn. *)
Lemma operate_cases (w : World) (choice f1 f2 : str) (m1 m2 : SparseMatrix) :
  reachable m1 -> reachable m2 ->
  (snd (operate' w choice f1 f2 m1 m2) = w
   /\ forall d s, last (fst (operate' w choice f1 f2 m1 m2)) d <> Print s)
  \/ exists name result text header,
       ~ In "/"%char (lower name)
       /\ computed' w choice m1 m2 result
       /\ fst (to_string result) = inr text
       /\ (let path := output_dir ++ lit "/" ++ output_filename name f1 f2 in
           match makedirs w output_dir with
           | (Some failure, w1) =>
               operate' w choice f1 f2 m1 m2
               = ([header; Print text;
                   PrintOther (lit "An unexpected error occurred: ") failure],
                  w1)
           | (None, w1) =>
               match write_file w1 path text with
               | (Some failure, w2) =>
                   operate' w choice f1 f2 m1 m2
                   = ([header; Print text;
                       PrintOther (lit "An unexpected error occurred: ")
                         failure], w2)
               | (None, w2) =>
                   operate' w choice f1 f2 m1 m2
                   = ([header; Print text;
                       Print (lit "Result saved to: " ++ path)], w2)
               end
           end).
Proof.
  intros H1 H2.
  assert (Hgo : forall name (op : exn + SparseMatrix),
            ~ In "/"%char (lower name) ->
            (forall result, op = inr result -> computed' w choice m1 m2 result) ->
            (let header := Print (LF ++ lit "--- Result of " ++ name ++ lit " ---") in
             match op with
             | inl e => ([operation_error e], w)
             | inr result_matrix =>
                 match fst (to_string result_matrix) with
                 | inl e => ([header; operation_error e], w)
                 | inr text =>
                     match makedirs w output_dir with
                     | (Some failure, w1) =>
                         ([header; Print text;
                           PrintOther (lit "An unexpected error occurred: ")
                             failure], w1)
                     | (None, w1) =>
                         match write_file w1
                                 (path_join output_dir
                                    (output_filename name f1 f2)) text with
                         | (Some failure, w2) =>
                             ([header; Print text;
                               PrintOther (lit "An unexpected error occurred: ")
                                 failure], w2)
                         | (None, w2) =>
                             ([header; Print text;
                               Print (lit "Result saved to: "
                                      ++ path_join output_dir
                                           (output_filename name f1 f2))], w2)
                         end
                     end
                 end
             end) = operate' w choice f1 f2 m1 m2 ->
            (snd (operate' w choice f1 f2 m1 m2) = w
             /\ forall d s, last (fst (operate' w choice f1 f2 m1 m2)) d <> Print s)
            \/ exists name result text header,
                 ~ In "/"%char (lower name)
                 /\ computed' w choice m1 m2 result
                 /\ fst (to_string result) = inr text
                 /\ (let path := output_dir ++ lit "/" ++ output_filename name f1 f2 in
                     match makedirs w output_dir with
                     | (Some failure, w1) =>
                         operate' w choice f1 f2 m1 m2
                         = ([header; Print text;
                             PrintOther (lit "An unexpected error occurred: ")
                               failure], w1)
                     | (None, w1) =>
                         match write_file w1 path text with
                         | (Some failure, w2) =>
                             operate' w choice f1 f2 m1 m2
                             = ([header; Print text;
                                 PrintOther (lit "An unexpected error occurred: ")
                                   failure], w2)
                         | (None, w2) =>
                             operate' w choice f1 f2 m1 m2
                             = ([header; Print text;
                                 Print (lit "Result saved to: " ++ path)], w2)
                         end
                     end)).
  { intros name op Hname Hop Heq. cbv zeta in Heq.
    destruct op as [e|result].
    - left. rewrite <- Heq. split; [reflexivity|].
      intros d s. unfold operation_error. cbn [fst last].
      destruct (exn_class_eqb (fst e) ValueError); discriminate.
    - destruct (fst (to_string result)) as [e|text] eqn:Ht.
      { left. rewrite <- Heq. split; [reflexivity|].
        intros d s. unfold operation_error. cbn [fst last].
        destruct (exn_class_eqb (fst e) ValueError); discriminate. }
      right. exists name, result, text. eexists.
      split; [exact Hname|]. split; [apply Hop; reflexivity|].
      split; [exact Ht|].
      cbv zeta. rewrite <- output_filepath_eq.
      destruct (makedirs w output_dir) as [[failure|] w1];
        [symmetry; exact Heq|].
      destruct (write_file w1 _ _) as [[failure|] w2]; symmetry; exact Heq. }
  unfold operate in *.
  destruct (str_eqb choice (lit "1")) eqn:E1.
  { apply str_eqb_eq in E1.
    apply (Hgo (lit "Addition") (add (read w) m1 m2)).
    - simpl. intuition discriminate.
    - intros result Hr. left. auto.
    - reflexivity. }
  destruct (str_eqb choice (lit "2")) eqn:E2.
  { apply str_eqb_eq in E2.
    apply (Hgo (lit "Subtraction") (subtract (read w) m1 m2)).
    - simpl. intuition discriminate.
    - intros result Hr. right; left. auto.
    - reflexivity. }
  destruct (str_eqb choice (lit "3")) eqn:E3.
  { apply str_eqb_eq in E3.
    apply (Hgo (lit "Multiplication") (multiply (read w) m1 m2)).
    - simpl. intuition discriminate.
    - intros result Hr. right; right. auto.
    - reflexivity. }
  left. split; [reflexivity|]. intros d s. discriminate.
Qed.

Lemma main_loop_cons (w : World) (choice : str) (rest : list str) :
  main_loop' w (choice :: rest)
  = if str_eqb choice (lit "4") then
      (Returned, menu ++ [Print (lit "Exiting program. Happy coding!")], w)
    else if negb (existsb (str_eqb choice) [lit "1"; lit "2"; lit "3"]) then
      let '(en, ev, w') := main_loop' w rest in
      (en,
       menu
       ++ Print (lit "Invalid choice. Please enter a number between 1 and 4.")
          :: ev,
       w')
    else
      let ask1 :=
        Input (lit "Enter path for the first matrix file (e.g., matrix1.txt): ") in
      let ask2 :=
        Input (lit "Enter path for the second matrix file (e.g., matrix2.txt): ") in
      match rest with
      | [] => (EndOfInput, menu ++ [ask1], w)
      | [_] => (EndOfInput, menu ++ [ask1; ask2], w)
      | file1_path :: file2_path :: rest' =>
          match load_pair World read w file1_path file2_path with
          | (loading, inl e) =>
              if existsb (exn_class_eqb (fst e)) [FileNotFoundError; ValueError]
              then
                let '(en, ev, w') := main_loop' w rest' in
                (en,
                 menu ++ [ask1; ask2] ++ loading
                 ++ PrintError (lit "Error loading matrices: ") e :: ev,
                 w')
              else (Raised e, menu ++ [ask1; ask2] ++ loading, w)
          | (loading, inr (matrix1, matrix2)) =>
              let '(operating, w1) :=
                operate' w choice file1_path file2_path matrix1 matrix2 in
              let '(en, ev, w') := main_loop' w1 rest' in
              (en, menu ++ [ask1; ask2] ++ loading ++ operating ++ ev, w')
          end
      end.
Proof. reflexivity. Qed.

Lemma operate_touched (w : World) (choice f1 f2 : str) (m1 m2 : SparseMatrix) :
  reachable m1 -> reachable m2 ->
  touched' w (snd (operate' w choice f1 f2 m1 m2)).
Proof.
  intros H1 H2.
  destruct (operate_cases w choice f1 f2 m1 m2 H1 H2)
    as [[-> _]|[name [result [text [header [Hname [Hc [Ht Hop]]]]]]]].
  - apply touched_none.
  - cbv zeta in Hop.
    pose proof (touched_makedirs World makedirs write_file w w
                  (touched_none _ _ _ w)) as Hmk.
    destruct (makedirs w output_dir) as [[failure|] w1]; cbn [snd] in Hmk.
    + rewrite Hop. exact Hmk.
    + pose proof (touched_write World makedirs write_file w w1
                    (output_filename name f1 f2) result text Hmk
                    (output_filename_no_slash name f1 f2 Hname)
                    (reachable_matrix _ (computed_reachable w choice m1 m2
                                           result H1 H2 Hc))
                    Ht) as Hwr.
      destruct (write_file w1 _ text) as [[failure|] w2];
        cbn [snd] in Hwr; rewrite Hop; exact Hwr.
Qed.

Lemma main_loop_facts (n : nat) :
  forall (inputs : list str) (w : World),
    (length inputs <= n)%nat ->
    ((fst (fst (main_loop' w inputs)) = Returned /\ In (lit "4") inputs)
     \/ fst (fst (main_loop' w inputs)) = EndOfInput
     \/ exists (c : exn_class) (w1 : World) (f : str),
          fst (fst (main_loop' w inputs)) = Raised (c, msg_builtin)
          /\ c <> FileNotFoundError /\ c <> ValueError
          /\ In f inputs /\ touched' w w1
          /\ read w1 (path_join base_input_path f) = Unreadable c)
    /\ touched' w (snd (main_loop' w inputs)).
Proof.
  induction n as [|n IH]; intros inputs w Hlen.
  - destruct inputs; [|simpl in Hlen; lia].
    split; [right; left; reflexivity | apply touched_none].
  - destruct inputs as [|choice rest].
    { split; [right; left; reflexivity | apply touched_none]. }
    simpl in Hlen. rewrite main_loop_cons.
    destruct (str_eqb choice (lit "4")) eqn:E4.
    { apply str_eqb_eq in E4. subst choice.
      split; [left; split; [reflexivity | left; reflexivity] | apply touched_none]. }
    destruct (negb (existsb (str_eqb choice) [lit "1"; lit "2"; lit "3"])).
    { destruct (IH rest w ltac:(lia)) as [Hend Ht].
      destruct (main_loop' w rest) as [[en ev] w']. cbn [fst snd] in *.
      split; [|exact Ht].
      destruct Hend
        as [[-> Hin]|[->|[c [w1 [f [-> [Hc1 [Hc2 [Hin [Hw1 Hf]]]]]]]]]].
      - left; split; [reflexivity | right; exact Hin].
      - right; left; reflexivity.
      - right; right. exists c, w1, f.
        split; [reflexivity|]. split; [exact Hc1|]. split; [exact Hc2|].
        split; [right; exact Hin|]. split; assumption. }
    cbv zeta.
    destruct rest as [|f1 [|f2 rest']];
      [split; [right; left; reflexivity | apply touched_none]
      |split; [right; left; reflexivity | apply touched_none]|].
    simpl in Hlen.
    destruct (load_pair World read w f1 f2) as [loading [e|[m1 m2]]] eqn:Hload.
    + destruct (existsb (exn_class_eqb (fst e)) [FileNotFoundError; ValueError])
        eqn:Hcaught.
      * destruct (IH rest' w ltac:(lia)) as [Hend Ht].
        destruct (main_loop' w rest') as [[en ev] w']. cbn [fst snd] in *.
        split; [|exact Ht].
        destruct Hend
          as [[-> Hin]|[->|[c [w1 [f [-> [Hc1 [Hc2 [Hin [Hw1 Hf]]]]]]]]]].
        -- left; split; [reflexivity | right; right; right; exact Hin].
        -- right; left; reflexivity.
        -- right; right. exists c, w1, f.
           split; [reflexivity|]. split; [exact Hc1|]. split; [exact Hc2|].
           split; [right; right; right; exact Hin|]. split; assumption.
      * cbn [fst snd]. split; [|apply touched_none].
        right; right.
        destruct (load_pair_error_class w f1 f2 loading e Hload)
          as [Hc|[f [c [Hf [Hfs ->]]]]]; [congruence|].
        exists c, w, f. split; [reflexivity|].
        cbn [fst existsb] in Hcaught.
        split; [intros ->; discriminate|].
        split; [intros ->; discriminate|].
        split; [destruct Hf as [-> | ->]; simpl; auto|].
        split; [apply touched_none | exact Hfs].
    + destruct (load_pair_reachable w f1 f2 loading m1 m2 Hload) as [H1 H2].
      pose proof (operate_touched w choice f1 f2 m1 m2 H1 H2) as Hop.
      destruct (operate' w choice f1 f2 m1 m2) as [operating w1].
      cbn [snd] in Hop.
      destruct (IH rest' w1 ltac:(lia)) as [Hend Ht].
      destruct (main_loop' w1 rest') as [[en ev] w']. cbn [fst snd] in *.
      split; [|eapply touched_trans; eassumption].
      destruct Hend
        as [[-> Hin]|[->|[c [w2 [f [-> [Hc1 [Hc2 [Hin [Hw2 Hf]]]]]]]]]].
      * left; split; [reflexivity | right; right; right; exact Hin].
      * right; left; reflexivity.
      * right; right. exists c, w2, f.
        split; [reflexivity|]. split; [exact Hc1|]. split; [exact Hc2|].
        split; [right; right; right; exact Hin|].
        split; [eapply touched_trans; eassumption | exact Hf].
Qed.

End CommandLineFacts.

Lemma main_ending_world (World : Type) (read : World -> FileSystem)
    (makedirs : World -> str -> option str * World)
    (write_file : World -> str -> str -> option str * World)
    (w : World) (inputs : list str) :
  fst (fst (main World read makedirs write_file w inputs))
  = fst (fst (main_loop World read makedirs write_file w inputs))
  /\ snd (main World read makedirs write_file w inputs)
     = snd (main_loop World read makedirs write_file w inputs).
Proof.
  unfold main.
  destruct (main_loop World read makedirs write_file w inputs) as [[en ev] w'].
  split; reflexivity.
Qed.



(** X17.  A session does nothing to the disk but create the output directory
    and write, to files directly inside it, texts that [to_string] returned
    for a matrix. *)
Theorem main_touches_only_output (World : Type) (read : World -> FileSystem)
    (makedirs : World -> str -> option str * World)
    (write_file : World -> str -> str -> option str * World)
    (w : World) (inputs : list str) :
  touched World makedirs write_file w
    (snd (main World read makedirs write_file w inputs)).
Proof.
  rewrite (proj2 (main_ending_world World read makedirs write_file w inputs)).
  exact (proj2 (main_loop_facts World read makedirs write_file
                  (length inputs) inputs w (le_n _))).
Qed.

Lemma output_path_nonempty (name : str) : output_dir ++ lit "/" ++ name <> [].
Proof. intros H. apply app_eq_nil in H as [H _]. vm_compute in H. discriminate. Qed.

Lemma load_text_of_matrix (fs : FileSystem) (path text : str)
    (m : SparseMatrix) :
  matrix m -> path <> [] -> fst (to_string m) = inr text ->
  fs path = Text text ->
  exists m',
    __init__ fs (Some path) 0 0 = inr m'
    /\ rows m' = rows m /\ cols m' = cols m /\ same_entries m' m.
Proof.
  intros Hm Hpath Ht Hfs.
  apply (to_string_text m text (proj1 Hm)) in Ht as [Hpm Ht].
  rewrite Ht in Hfs.
  eexists. split; [exact (load_serialized fs path 0 0 m Hm Hpm Hpath Hfs)|].
  split; [reflexivity|]. split; [reflexivity|].
  exact (sorted_entries_perm (matrix_data m) (proj1 Hm)).
Qed.

(** X18.  When a command prints [Result saved to: p], on a disk where a
    written file reads back as written, the file [p] then loads to a matrix
    with the dimensions and the entries of the result of the command. *)
Theorem saved_file_loads (World : Type) (read : World -> FileSystem)
    (makedirs : World -> str -> option str * World)
    (write_file : World -> str -> str -> option str * World)
    (Hwrite : forall w p t w',
        write_file w p t = (None, w') -> read w' p = Text t)
    (w : World) (choice file1_path file2_path p : str)
    (matrix1 matrix2 : SparseMatrix)
    (H1 : reachable matrix1) (H2 : reachable matrix2)
    (Hsaved :
       last (fst (operate World read makedirs write_file w choice
                    file1_path file2_path matrix1 matrix2)) (Input [])
       = Print (lit "Result saved to: " ++ p)) :
  exists result m',
    computed World read w choice matrix1 matrix2 result
    /\ __init__
         (read (snd (operate World read makedirs write_file w choice
                       file1_path file2_path matrix1 matrix2)))
         (Some p) 0 0 = inr m'
    /\ rows m' = rows result /\ cols m' = cols result
    /\ same_entries m' result.
Proof.
  destruct (operate_cases World read makedirs write_file w choice
              file1_path file2_path matrix1 matrix2 H1 H2)
    as [[_ Hlast]|[name [result [text [header [Hname [Hc [Ht Hop]]]]]]]].
  - exfalso. exact (Hlast _ _ Hsaved).
  - cbv zeta in Hop.
    destruct (makedirs w output_dir) as [[failure|] w1].
    + rewrite Hop in Hsaved. discriminate.
    + destruct (write_file w1 _ text) as [[failure|] w2] eqn:Hw.
      * rewrite Hop in Hsaved. discriminate.
      * rewrite Hop in Hsaved. cbn [fst last] in Hsaved.
        inversion Hsaved as [Hp]. subst p.
        rewrite Hop. cbn [snd].
        destruct (load_text_of_matrix (read w2) _ text result
                    (reachable_matrix _
                       (computed_reachable World read w choice matrix1 matrix2
                          result H1 H2 Hc))
                    (output_path_nonempty _) Ht (Hwrite _ _ _ _ Hw))
          as [m' Hm'].
        exists result, m'. split; [exact Hc | exact Hm'].
Qed.

Lemma table_write_reads (w : FileSystem) (p t : str) (w' : FileSystem) :
  table_write w p t = (None, w') -> table_read w' p = Text t.
Proof.
  unfold table_write, table_read. intros H. inversion H.
  rewrite str_eqb_refl. reflexivity.
Qed.

Lemma scenario_A_reachable : reachable scenario_A.
Proof.
  exact (reach_setElement _ 1 1 2
           (reach_setElement _ 0 0 1
              (reach_init no_files None 2 2 _ eq_refl))).
Qed.

Lemma scenario_B_reachable : reachable scenario_B.
Proof.
  exact (reach_setElement _ 0 1 4
           (reach_setElement _ 0 0 3
              (reach_init no_files None 2 2 _ eq_refl))).
Qed.

Lemma saved_file_loads_witness :
  exists result m',
    computed FileSystem table_read scenario_disk (lit "1")
      scenario_A scenario_B result
    /\ __init__
         (table_read
            (snd (operate FileSystem table_read table_makedirs table_write
                    scenario_disk (lit "1") (lit "a.txt") (lit "b.txt")
                    scenario_A scenario_B)))
         (Some (lit "dsa/sparse_matrix/output/result_addition_a_b.txt")) 0 0
       = inr m'
    /\ rows m' = rows result /\ cols m' = cols result
    /\ same_entries m' result.
Proof.
  apply (saved_file_loads FileSystem table_read table_makedirs table_write
           table_write_reads scenario_disk (lit "1") (lit "a.txt") (lit "b.txt")
           (lit "dsa/sparse_matrix/output/result_addition_a_b.txt")
           scenario_A scenario_B scenario_A_reachable scenario_B_reachable).
  vm_compute. reflexivity.
Defined.

Lemma table_touched (w w' : FileSystem) :
  touched FileSystem table_makedirs table_write w w' ->
  forall p,
    w' p = w p
    \/ exists name m text,
         p = output_dir ++ lit "/" ++ name /\ ~ In "/"%char name
         /\ matrix m /\ fst (to_string m) = inr text /\ w' p = Text text.
Proof.
  induction 1 as [|w' _ IH|w' name m text _ IH Hn Hm Ht]; intros p.
  - left; reflexivity.
  - exact (IH p).
  - cbn [table_write snd].
    destruct (str_eqb p (output_dir ++ lit "/" ++ name)) eqn:E.
    + apply str_eqb_eq in E. right. exists name, m, text. auto.
    + exact (IH p).
Qed.

(** X19.  On a disk that is a table from paths to texts, after any session
    every file is as it was before, or lies directly inside the output
    directory and holds the text of a matrix, which loads back to a matrix
    with the same dimensions and entries. *)
Theorem table_session_files (w : FileSystem) (inputs : list str) (p : str) :
  snd (main FileSystem table_read table_makedirs table_write w inputs) p = w p
  \/ exists name m text m',
       p = output_dir ++ lit "/" ++ name /\ ~ In "/"%char name
       /\ matrix m
       /\ snd (main FileSystem table_read table_makedirs table_write
                 w inputs) p
          = Text text
       /\ fst (to_string m) = inr text
       /\ __init__
            (snd (main FileSystem table_read table_makedirs table_write
                    w inputs))
            (Some p) 0 0 = inr m'
       /\ rows m' = rows m /\ cols m' = cols m /\ same_entries m' m.
Proof.
  rewrite !(proj2 (main_ending_world FileSystem table_read table_makedirs
                     table_write w inputs)).
  destruct (table_touched w _
              (proj2 (main_loop_facts FileSystem table_read table_makedirs
                        table_write (length inputs) inputs w (le_n _))) p)
    as [H|[name [m [text [Hp [Hn [Hm [Ht Hw]]]]]]]].
  - left; exact H.
  - right.
    destruct (load_text_of_matrix _ p text m Hm
                ltac:(rewrite Hp; apply output_path_nonempty) Ht Hw)
      as [m' Hm'].
    exists name, m, text, m'. split; [exact Hp|]. split; [exact Hn|].
    split; [exact Hm|]. split; [exact Hw|]. split; [exact Ht | exact Hm'].
Qed.
